(** * Ridibooks metadata worker: a shallow embedding of [worker.py]

    The worker fetches a book page, reads fields out of its [<meta>] tags
    and its JSON-LD block, normalises them, and hands one [Metadata]
    record to the result queue.  This development embeds the helpers of
    [Worker.load_details], [Worker.parse_tags],
    [Worker._convert_genres_to_calibre_tags] and [Worker.run] and proves
    properties of them.

    Python [str] values are sequences of code points; they are modelled as
    [list N].  String literals are written as UTF-8 text and decoded by
    [u]. *)

From Stdlib Require Import List NArith ZArith Bool Lia Ascii String.
Import ListNotations.

(** ** Python strings *)

Module PyStr.

Definition char := N.
Definition str := list char.

Fixpoint eqb (a b : str) : bool :=
  match a, b with
  | [], [] => true
  | x :: a', y :: b' => N.eqb x y && eqb a' b'
  | _, _ => false
  end.

(** UTF-8 decoding of a literal.  A lead byte announces how many
    continuation bytes follow; each continuation byte carries six bits. *)
Fixpoint utf8_go (pending : nat) (acc : N) (bs : list N) : str :=
  match bs with
  | [] => []
  | b :: bs' =>
      match pending with
      | S k =>
          let acc' := (acc * 64 + N.land b 63)%N in
          match k with
          | O => acc' :: utf8_go 0 0 bs'
          | _ => utf8_go k acc' bs'
          end
      | O =>
          if (b <? 128)%N then b :: utf8_go 0 0 bs'
          else if (b <? 224)%N then utf8_go 1 (N.land b 31) bs'
          else if (b <? 240)%N then utf8_go 2 (N.land b 15) bs'
          else utf8_go 3 (N.land b 7) bs'
      end
  end.

Definition u (s : string) : str :=
  utf8_go 0 0 (map N_of_ascii (list_ascii_of_string s)).

(** A literal that contains double quotes is written with apostrophes in
    their place. *)
Definition dquote : char := 34%N.

Definition uq (s : string) : str :=
  map (fun c => if (c =? 39)%N then dquote else c) (u s).

(** [a in s] for strings: [s] has [a] as a prefix / as a substring. *)
Fixpoint startswith (s prefix : str) : bool :=
  match prefix, s with
  | [], _ => true
  | p :: prefix', c :: s' => N.eqb p c && startswith s' prefix'
  | _ :: _, [] => false
  end.

Fixpoint contains (sub s : str) : bool :=
  startswith s sub ||
  match s with
  | [] => false
  | _ :: s' => contains sub s'
  end.

Definition endswith (s suffix : str) : bool :=
  startswith (rev s) (rev suffix).

(** [s.partition(sep)] restricted to the case where [sep] occurs: the text
    before the first occurrence and the text after it. *)
Fixpoint partition (sep s : str) : option (str * str) :=
  if startswith s sep then Some ([], skipn (List.length sep) s)
  else match s with
       | [] => None
       | c :: s' =>
           match partition sep s' with
           | Some (a, b) => Some (c :: a, b)
           | None => None
           end
       end.

(** [s.split(sep)] for a non-empty [sep]: cut at the successive
    non-overlapping occurrences of [sep], scanning from the left.  Each cut
    removes at least one character, so [List.length s] rounds are enough. *)
Fixpoint split_fuel (fuel : nat) (sep s : str) : list str :=
  match fuel with
  | O => [s]
  | S fuel' =>
      match partition sep s with
      | None => [s]
      | Some (a, b) => a :: split_fuel fuel' sep b
      end
  end.

Definition split (s sep : str) : list str := split_fuel (List.length s) sep s.

Fixpoint join (sep : str) (parts : list str) : str :=
  match parts with
  | [] => []
  | [p] => p
  | p :: rest => p ++ sep ++ join sep rest
  end.

(** [s.replace(old, new)] for a non-empty [old]. *)
Definition replace (s old new : str) : str := join new (split s old).

(** Slices [s[a:b]] and [s[a:]] with non-negative bounds. *)
Definition slice (s : str) (a b : nat) : str := firstn (b - a) (skipn a s).
Definition slice_from (s : str) (a : nat) : str := skipn a s.

End PyStr.

Import PyStr.
Arguments u s%_string.
Arguments uq s%_string.

(** ** What the runtime supplies

    The worker leans on the Python runtime and on libraries: the Unicode
    character database, [calibre.utils.cleantext.unescape], [json.loads]
    and the float parser.  Their tables are not part of the worker; they
    are taken as given.  The built-ins are those of Python 3; their
    behaviour on ASCII is fixed below, the rest comes from a [Runtime]. *)

#[local] Set Warnings "-register-all".
Inductive json :=
| JNull
| JBool (b : bool)
| JNum (n : Z)
| JStr (s : str)
| JArr (items : list json)
| JObj (members : list (str * json)).

(** A Python [float] by its value. *)
Inductive pyfloat :=
| FInt (z : Z)                 (* an integral value *)
| FDyadic (m : Z) (e : positive) (* m / 2^e with m odd *)
| FInf (negative : bool)
| FNan.

Class Runtime := {
  (* decimal value of a non-ASCII character of category Nd *)
  uni_decimal : char -> option N;
  (* str.lower() on a string that has non-ASCII characters *)
  uni_lower : str -> str;
  (* calibre.utils.cleantext.unescape *)
  unescape : str -> str;
  (* json.loads; None when it raises *)
  json_loads : str -> option json;
  (* float() on a literal that is not a plain run of digits *)
  float_literal : str -> option pyfloat;
  (* str.isprintable() on a non-ASCII character *)
  uni_printable : char -> bool;
  (* sys.get_int_max_str_digits(): 0 for no limit, else at least 640 *)
  int_max_str_digits : nat;
  int_max_str_digits_ok :
    int_max_str_digits = 0 \/ 640 <= int_max_str_digits
}.

Inductive exn :=
| IndexError
| KeyError
| TypeError
| ValueError
| AttributeError
| UnboundLocalError
| OverflowError.

Inductive result (A : Type) :=
| Ok (a : A)
| Raise (e : exn).
Arguments Ok {A} a.
Arguments Raise {A} e.

Module Builtins.
Section WithRuntime.
Context {RT : Runtime}.

Definition is_ascii (c : char) : bool := (c <? 128)%N.

(** [str.isspace] on one character, which is also the class [\s]. *)
Definition isspace (c : char) : bool :=
  ((9 <=? c) && (c <=? 13) || (28 <=? c) && (c <=? 32)
   || (c =? 133) || (c =? 160) || (c =? 5760)
   || (8192 <=? c) && (c <=? 8202)
   || (c =? 8232) || (c =? 8233) || (c =? 8239) || (c =? 8287)
   || (c =? 12288))%N.

(** Decimal value of a character; [Some] exactly on the class [\d]. *)
Definition decimal (c : char) : option N :=
  if ((48 <=? c) && (c <=? 57))%N then Some (c - 48)%N
  else if is_ascii c then None
  else uni_decimal c.

Definition isdigit (c : char) : bool :=
  match decimal c with Some _ => true | None => false end.

Definition ascii_lower (c : char) : char :=
  if ((65 <=? c) && (c <=? 90))%N then (c + 32)%N else c.

Definition lower (s : str) : str :=
  if forallb is_ascii s then map ascii_lower s else uni_lower s.

Fixpoint lstrip (s : str) : str :=
  match s with
  | c :: s' => if isspace c then lstrip s' else s
  | [] => []
  end.

Definition rstrip (s : str) : str := rev (lstrip (rev s)).

Definition strip (s : str) : str := rstrip (lstrip s).

(** The digits of an integer literal: decimal digits, with single
    underscores allowed between two digits. *)
Fixpoint digits (acc : N) (after_digit : bool) (s : str) : option N :=
  match s with
  | [] => if after_digit then Some acc else None
  | c :: s' =>
      match decimal c with
      | Some d => digits (acc * 10 + d) true s'
      | None =>
          if (c =? 95)%N && after_digit then digits acc false s'
          else None
      end
  end.

(** The whitespace that [int] skips around a literal: the whitespace of
    C in ASCII (tab to carriage return, and the space) and the whitespace
    outside ASCII.  The separators U+001C to U+001F, which [str.strip]
    strips, are not skipped. *)
Definition int_space (c : char) : bool :=
  (isspace c && negb ((28 <=? c) && (c <=? 31)))%N.

Fixpoint int_lstrip (s : str) : str :=
  match s with
  | c :: s' => if int_space c then int_lstrip s' else s
  | [] => []
  end.

Definition int_strip (s : str) : str :=
  rev (int_lstrip (rev (int_lstrip s))).

(** [int(s)] in base 10: surrounding whitespace, an optional sign, then
    the digits.  [ValueError] otherwise. *)
Definition sign_split (body : str) : bool * str :=
  match body with
  | 43%N :: r => (false, r)
  | 45%N :: r => (true, r)
  | _ => (false, body)
  end.

(** A literal with more digits than the interpreter's limit is refused. *)
Definition too_many_digits (r : str) : bool :=
  negb (Nat.eqb int_max_str_digits 0)
  && Nat.ltb int_max_str_digits (List.length (filter isdigit r)).

Definition int (s : str) : result Z :=
  let signed := sign_split (int_strip s) in
  if too_many_digits (snd signed) then Raise ValueError
  else
    match digits 0 false (snd signed) with
    | Some n => Ok (if fst signed then (- Z.of_N n)%Z else Z.of_N n)
    | None => Raise ValueError
    end.

(** The value of a plain run of decimal digits. *)
Fixpoint plain_digits (acc : N) (s : str) : option N :=
  match s with
  | [] => Some acc
  | c :: s' =>
      match decimal c with
      | Some d => plain_digits (acc * 10 + d) s'
      | None => None
      end
  end.

(** The nearest binary64 value to a natural number, ties to even; values
    past the largest finite double become infinity. *)
Definition round_binary64 (n : N) : pyfloat :=
  let bits := N.size n in
  if (bits <=? 53)%N then FInt (Z.of_N n)
  else
    let sh := (bits - 53)%N in
    let q := N.shiftr n sh in
    let r := N.land n (N.ones sh) in
    let half := N.shiftl 1 (sh - 1) in
    let q' := if (half <? r)%N || ((r =? half)%N && N.odd q)
              then (q + 1)%N else q in
    let v := N.shiftl q' sh in
    if (N.shiftl 1 1024 <=? v)%N then FInf false else FInt (Z.of_N v).

(** [float(s)] for a string. *)
Definition float (s : str) : result pyfloat :=
  match s with
  | [] => Raise ValueError
  | _ =>
      match plain_digits 0 s with
      | Some n => Ok (round_binary64 n)
      | None =>
          match float_literal s with
          | Some f => Ok f
          | None => Raise ValueError
          end
      end
  end.

(** [repr(s)] for a string: between apostrophes, or between double quotes
    when the string has an apostrophe and no double quote; the quote and
    the backslash are escaped, and so is what is not printable. *)
Definition hex_digit (n : N) : char :=
  if (n <? 10)%N then (48 + n)%N else (87 + n)%N.

Fixpoint hex (width : nat) (n : N) : str :=
  match width with
  | O => []
  | S width' => hex width' (n / 16) ++ [hex_digit (n mod 16)]
  end.

Definition repr_char (quote c : char) : str :=
  if ((c =? quote) || (c =? 92))%N then [92%N; c]
  else if (c =? 9)%N then [92%N; 116%N]
  else if (c =? 10)%N then [92%N; 110%N]
  else if (c =? 13)%N then [92%N; 114%N]
  else if ((c <? 32) || (c =? 127))%N then [92%N; 120%N] ++ hex 2 c
  else if (c <? 127)%N then [c]
  else if uni_printable c then [c]
  else if (c <=? 255)%N then [92%N; 120%N] ++ hex 2 c
  else if (c <=? 65535)%N then [92%N; 117%N] ++ hex 4 c
  else [92%N; 85%N] ++ hex 8 c.

Definition repr (s : str) : str :=
  let quote :=
    if existsb (N.eqb 39) s && negb (existsb (N.eqb 34) s)
    then 34%N else 39%N in
  quote :: flat_map (repr_char quote) s ++ [quote].

End WithRuntime.
End Builtins.

Import Builtins.

(** ** [datetime.datetime] *)

(** The time zones of [calibre.utils.date].  A datetime made without a
    [tzinfo] argument has none. *)
Inductive tzinfo := utc_tz | local_tz.

Record datetime := {
  year : Z;
  month : Z;
  day : Z;
  hour : Z;
  minute : Z;
  second : Z;
  tz : option tzinfo
}.

Definition is_leap (y : Z) : bool :=
  ((y mod 4 =? 0) && (negb (y mod 100 =? 0) || (y mod 400 =? 0)))%Z.

Definition days_in_month (y m : Z) : Z :=
  if (m =? 2)%Z then (if is_leap y then 29 else 28)%Z
  else if ((m =? 4) || (m =? 6) || (m =? 9) || (m =? 11))%Z then 30%Z
  else 31%Z.

(** The constructor takes its fields as C ints, [OverflowError] for one
    that does not fit, and then checks them: 1 <= year <= 9999,
    1 <= month <= 12, 1 <= day <= days in that month; [ValueError]
    otherwise. *)
Definition c_int (z : Z) : bool :=
  ((- 2147483648 <=? z) && (z <=? 2147483647))%Z.

Definition mk_datetime (y m d : Z) (t : option tzinfo) : result datetime :=
  if negb (c_int y && c_int m && c_int d) then Raise OverflowError
  else if ((1 <=? y) && (y <=? 9999) && (1 <=? m) && (m <=? 12)
           && (1 <=? d) && (d <=? days_in_month y m))%Z
  then Ok {| year := y; month := m; day := d;
             hour := 0; minute := 0; second := 0; tz := t |}
  else Raise ValueError.

(** ** The [re] patterns the worker uses

    The three patterns of the worker are sequences of anchors, group
    brackets and single-character classes under a greedy quantifier.  The
    matcher backtracks the way [re] does: a greedy quantifier takes as many
    characters as it can and gives them back one at a time while the rest
    of the pattern fails. *)

Module Re.
Section WithRuntime.
Context {RT : Runtime}.

Inductive cls :=
| Dot                (* .   any character but a newline *)
| Space              (* \s *)
| Digit              (* \d *)
| Lit (c : char).

Inductive tok :=
| Bol                (* ^ *)
| Eol                (* $ *)
| Open (g : nat)     (* ( of group g *)
| Close (g : nat)    (* ) of group g *)
| One (c : cls)
| Star (c : cls)     (* c* *)
| Plus (c : cls).    (* c+ *)

Definition regex := list tok.

Definition in_cls (k : cls) (c : char) : bool :=
  match k with
  | Dot => negb (c =? 10)%N
  | Space => isspace c
  | Digit => isdigit c
  | Lit l => (c =? l)%N
  end.

(** A match in progress: the characters taken so far (latest first), the
    groups that are open with the offset they opened at, and the groups
    that are closed with their text. *)
Record mstate := {
  taken : str;
  opened : list (nat * nat);
  closed : list (nat * str)
}.

Definition mstart : mstate := {| taken := []; opened := []; closed := [] |}.

Definition take (c : char) (st : mstate) : mstate :=
  {| taken := c :: taken st; opened := opened st; closed := closed st |}.

Definition open_group (g : nat) (st : mstate) : mstate :=
  {| taken := taken st;
     opened := (g, List.length (taken st)) :: opened st;
     closed := closed st |}.

Fixpoint assoc {A : Type} (g : nat) (l : list (nat * A)) : option A :=
  match l with
  | [] => None
  | (k, v) :: l' => if Nat.eqb k g then Some v else assoc g l'
  end.

Definition close_group (g : nat) (st : mstate) : mstate :=
  match assoc g (opened st) with
  | Some from =>
      {| taken := taken st;
         opened := opened st;
         closed := (g, skipn from (rev (taken st))) :: closed st |}
  | None => st
  end.

(** The state after taking the characters of [a] one by one. *)
Definition takes (a : str) (st : mstate) : mstate :=
  fold_left (fun st c => take c st) a st.

(** [$] holds at the end of the subject and before a final newline. *)
Definition at_end (s : str) : bool :=
  match s with
  | [] => true
  | [c] => (c =? 10)%N
  | _ => false
  end.

Definition no_bol (p : regex) : bool :=
  forallb (fun t => match t with Bol => false | _ => true end) p.

(** Match [p] at the head of [s].  [at0] says that [s] starts at index 0
    of the subject.  Returns the final state and the unread rest. *)
Fixpoint match_here (p : regex) (at0 : bool) (st : mstate) (s : str)
  : option (mstate * str) :=
  match p with
  | [] => Some (st, s)
  | Bol :: p' =>
      match taken st with
      | [] => if at0 then match_here p' at0 st s else None
      | _ => None
      end
  | Eol :: p' => if at_end s then match_here p' at0 st s else None
  | Open g :: p' => match_here p' at0 (open_group g st) s
  | Close g :: p' => match_here p' at0 (close_group g st) s
  | One k :: p' =>
      match s with
      | c :: s' =>
          if in_cls k c then match_here p' at0 (take c st) s' else None
      | [] => None
      end
  | Star k :: p' =>
      (fix star (st : mstate) (s : str) {struct s} : option (mstate * str) :=
         match s with
         | c :: s' =>
             if in_cls k c then
               match star (take c st) s' with
               | Some r => Some r
               | None => match_here p' at0 st s
               end
             else match_here p' at0 st s
         | [] => match_here p' at0 st s
         end) st s
  | Plus k :: p' =>
      match s with
      | c :: s' =>
          if in_cls k c then
            (fix star (st : mstate) (s : str) {struct s}
               : option (mstate * str) :=
               match s with
               | c :: s' =>
                   if in_cls k c then
                     match star (take c st) s' with
                     | Some r => Some r
                     | None => match_here p' at0 st s
                     end
                   else match_here p' at0 st s
               | [] => match_here p' at0 st s
               end) (take c st) s'
          else None
      | [] => None
      end
  end.

(** A match object: [group n]. *)
Definition group (n : nat) (m : mstate) : str :=
  match n with
  | O => rev (taken m)
  | _ => match assoc n (closed m) with Some t => t | None => [] end
  end.

(** [re.search(p, s)]: the match at the leftmost position that has one. *)
Fixpoint search_from (p : regex) (at0 : bool) (s : str) : option mstate :=
  match match_here p at0 mstart s with
  | Some (m, _) => Some m
  | None =>
      match s with
      | [] => None
      | _ :: s' => search_from p false s'
      end
  end.

Definition search (p : regex) (s : str) : option mstate :=
  search_from p true s.

(** [re.sub(p, repl, s)] for a pattern whose matches are never empty:
    every leftmost non-overlapping match is replaced by [repl] of it. *)
Fixpoint sub_from (p : regex) (repl : mstate -> str) (at0 : bool)
         (skip : nat) (s : str) : str :=
  match s with
  | [] => []
  | c :: s' =>
      match skip with
      | S k => sub_from p repl false k s'
      | O =>
          match match_here p at0 mstart s with
          | Some (m, _) =>
              match List.length (taken m) with
              | S k => repl m ++ sub_from p repl false k s'
              | O => c :: sub_from p repl false 0 s'
              end
          | None => c :: sub_from p repl false 0 s'
          end
      end
  end.

Definition sub (p : regex) (repl : mstate -> str) (s : str) : str :=
  sub_from p repl true 0 s.

End WithRuntime.
End Re.

(** ** The page, the record and the worker *)

(** An [lxml] element by its attributes; [get] is [Element.get]. *)
Definition element := list (str * str).

Fixpoint get (e : element) (name : str) : option str :=
  match e with
  | [] => None
  | (k, v) :: e' => if PyStr.eqb k name then Some v else get e' name
  end.

(** One [<p class="info_category_wrap">]: the text of the elements that
    [a[1]] selects in it, and the text of the links that follow an arrow
    icon. *)
Record genre_node := {
  a1 : list str;
  sub_genre_nodes : list str
}.

(** The parsed page, by the element sets the worker queries. *)
Record document := {
  (* //head/meta *)
  head_meta : list element;
  (* //head/script[@type="application/ld+json"]/text() *)
  head_ld_json : list str;
  (* //p[@class="info_category_wrap"] *)
  info_category_wrap : list genre_node
}.

Module Metadata.
Record t := {
  title : option str;
  authors : list str;
  identifier : str * str;
  cover_url : option str;
  has_cover : bool;
  publisher : str;
  pubdate : datetime;
  comments : str;
  rating : pyfloat;
  tags : option (list str);
  series : option str;
  series_index : option pyfloat;
  language : str;
  source_relevance : Z
}.
End Metadata.

(** The local variables of [load_details] that hold what was read from
    the page. *)
Module Fields.
Record t := {
  book_info : json;
  ridibooks_id : str;
  isbn : option str;
  cover_url : option str;
  title : option str;
  authors : list str;
  publisher : str;
  pubdate : datetime;
  comments : str;
  rating : pyfloat
}.
End Fields.

(** What the worker does to the outside, in the order it does it. *)
Inductive event :=
| log_info (msg : str)
| log_exception (msg : str)
| cache_isbn_to_identifier (isbn id : str)
| cache_identifier_to_cover_url (id cover : str)
| clean_downloaded_metadata (mi : Metadata.t)
| result_queue_put (mi : Metadata.t).

(** The worker's fields and collaborators.  [page] is what logging in,
    fetching [url] and parsing the response give, [None] when that raises,
    and [page_error] is then the text of what was raised.  [clean] is the
    plugin's hook; it updates the record in place. *)
Record Worker := {
  url : str;
  relevance : Z;
  page : option document;
  page_error : str;
  genre_mappings : list (str * list str);
  clean : Metadata.t -> result Metadata.t
}.

(** ** Exceptions and effects *)

Definition M (A : Type) : Type := list event * result A.

Definition ret {A} (a : A) : M A := ([], Ok a).
Definition raise {A} (e : exn) : M A := ([], Raise e).
Definition emit (ev : event) : M unit := ([ev], Ok tt).
Definition lift {A} (r : result A) : M A := ([], r).

Definition bind {A B} (c : M A) (k : A -> M B) : M B :=
  match c with
  | (tr, Ok a) => let (tr', r) := k a in (tr ++ tr', r)
  | (tr, Raise e) => (tr, Raise e)
  end.

Notation "x <- c ;; k" := (bind c (fun x => k))
  (at level 61, c at next level, right associativity).
Notation "c ;; k" := (bind c (fun _ => k))
  (at level 61, right associativity).

Definition rbind {A B} (c : result A) (k : A -> result B) : result B :=
  match c with
  | Ok a => k a
  | Raise e => Raise e
  end.

Notation "x <-- c ;; k" := (rbind c (fun x => k))
  (at level 61, c at next level, right associativity).

(** [l[i]] *)
Definition index {A} (l : list A) (i : nat) : result A :=
  match nth_error l i with
  | Some a => Ok a
  | None => Raise IndexError
  end.

(** [j[key]] on a decoded JSON value. *)
Fixpoint lookup {A} (key : str) (ms : list (str * A)) : option A :=
  match ms with
  | [] => None
  | (k, v) :: ms' => if PyStr.eqb k key then Some v else lookup key ms'
  end.

Definition getitem (j : json) (key : str) : result json :=
  match j with
  | JObj ms =>
      match lookup key ms with
      | Some v => Ok v
      | None => Raise KeyError
      end
  | _ => Raise TypeError
  end.

Definition json_is_str (key : str) (j : json) : bool :=
  match j with
  | JStr s => PyStr.eqb s key
  | _ => false
  end.

(** [key in j] *)
Definition json_in (key : str) (j : json) : result bool :=
  match j with
  | JObj ms => Ok (match lookup key ms with Some _ => true | None => false end)
  | JArr items => Ok (existsb (json_is_str key) items)
  | JStr s => Ok (contains key s)
  | _ => Raise TypeError
  end.

(** A string method or [re] function applied to a value that must be a
    [str]. *)
Definition as_str (j : json) : result str :=
  match j with
  | JStr s => Ok s
  | _ => Raise TypeError
  end.

(** Truth of a value that is [None] or a string. *)
Definition truthy (o : option str) : bool :=
  match o with
  | Some (_ :: _) => true
  | _ => false
  end.

(** ** [worker.py] *)

Section Worker.
Context {RT : Runtime}.

(** The pattern of [_format_item]: start of string, a double quote, a
    group of any characters, a double quote, end of string. *)
Definition quoted : Re.regex :=
  [Re.Bol; Re.One (Re.Lit dquote); Re.Open 1; Re.Star Re.Dot; Re.Close 1;
   Re.One (Re.Lit dquote); Re.Eol].

Definition _format_item (s : str) : str :=
  Re.sub quoted (Re.group 1) (unescape s).

Definition _format_list (s : str) : list str :=
  map strip (split (_format_item s) (u ",")).

Definition property_is (property : str) (e : element) : bool :=
  match get e (u "property") with
  | Some p => PyStr.eqb p property
  | None => false
  end.

Definition _find_meta (node : list element) (property : str)
  : result (option str) :=
  index (map (fun e => get e (u "content"))
             (filter (property_is property) node)) 0.

Definition _format_date (date_text : str) : result datetime :=
  year <-- int (slice date_text 0 4) ;;
  month <-- int (slice date_text 4 6) ;;
  day <-- int (slice_from date_text 6) ;;
  mk_datetime year month day (Some utc_tz).

(** [_get_book_page]: a failure of the session is logged inside the
    function, after which [return root] finds [root] unbound. *)
Definition _get_book_page (w : Worker) : M document :=
  match page w with
  | Some root => ret root
  | None => emit (log_exception (page_error w)) ;; raise UnboundLocalError
  end.

(** [//head/meta[starts-with(@property, "og") or
    starts-with(@property, "books")]] *)
Definition meta_nodes (root : document) : list element :=
  filter (fun e =>
            match get e (u "property") with
            | Some p => startswith p (u "og") || startswith p (u "books")
            | None => false
            end)
         (head_meta root).

(** The JSON-LD block of the book, repaired and decoded. *)
Definition is_book (text : str) : bool :=
  contains (uq "'@type': 'Book'") text.

Definition book_block (root : document) : result json :=
  ld <-- index (filter is_book (head_ld_json root)) 0 ;;
  let ld := replace ld (u "&lt;") (u "<") in
  let ld := replace ld (u "&gt;") (u ">") in
  let ld := replace ld (u "\&quot;") (uq "\'") in
  let ld := replace ld (u "&quot;") (uq "\'") in
  match json_loads ld with
  | Some book_info => Ok book_info
  | None => Raise ValueError
  end.

(** [calibre_tag_map]: the configured mapping with its keys lowercased; a
    later item replaces an earlier one with the same key. *)
Fixpoint dict_set {A} (k : str) (v : A) (d : list (str * A))
  : list (str * A) :=
  match d with
  | [] => [(k, v)]
  | (k', v') :: d' =>
      if PyStr.eqb k' k then (k', v) :: d' else (k', v') :: dict_set k v d'
  end.

Definition calibre_tag_map (calibre_tag_lookup : list (str * list str))
  : list (str * list str) :=
  fold_left (fun d kv => dict_set (lower (fst kv)) (snd kv) d)
            calibre_tag_lookup [].

Definition mem (tag : str) (l : list str) : bool :=
  existsb (PyStr.eqb tag) l.

(** [if tag not in tags_to_add: tags_to_add.append(tag)] *)
Definition add_tag (tags_to_add : list str) (tag : str) : list str :=
  if mem tag tags_to_add then tags_to_add else tags_to_add ++ [tag].

Fixpoint convert_loop (tag_map : list (str * list str))
         (genre_tags tags_to_add : list str) : list str :=
  match genre_tags with
  | [] => tags_to_add
  | genre_tag :: rest =>
      match lookup (lower genre_tag) tag_map with
      | Some (tag :: more) =>
          convert_loop tag_map rest
                       (fold_left add_tag (tag :: more) tags_to_add)
      | _ =>
          convert_loop tag_map rest (add_tag tags_to_add genre_tag)
      end
  end.

Definition _convert_genres_to_calibre_tags
           (calibre_tag_lookup : list (str * list str))
           (genre_tags : list str) : list str :=
  convert_loop (calibre_tag_map calibre_tag_lookup) genre_tags [].

(** The loop over the breadcrumb containers of [parse_tags]. *)
Fixpoint genre_loop (genres_node : list genre_node)
         (genre_tags : list str) (added_main_genre : bool)
  : result (list str) :=
  match genres_node with
  | [] => Ok genre_tags
  | node :: rest =>
      genre_tags <-- (if added_main_genre then Ok genre_tags
                      else main <-- index (a1 node) 0 ;;
                           Ok (genre_tags ++ [main])) ;;
      genre_loop rest (genre_tags ++ map strip (sub_genre_nodes node)) true
  end.

Definition keyword_tags (book_info : json) : result (list str) :=
  has <-- json_in (u "keywords") book_info ;;
  if has : bool then
    keywords <-- getitem book_info (u "keywords") ;;
    match keywords with
    | JStr k =>
        Ok (split (slice k 1 (List.length k - 1)) (uq "', '"))
    | JArr _ => Raise AttributeError
    | _ => Raise TypeError
    end
  else Ok [].

Definition parse_tags (w : Worker) (root : document)
  : M (option (list str)) :=
  emit (log_info (u "Parsing tags")) ;;
  book_info <- lift (book_block root) ;;
  all_tags <- lift (keyword_tags book_info) ;;
  all_tags <- lift (match info_category_wrap root with
                    | [] => Ok all_tags
                    | genres_node =>
                        genre_tags <-- genre_loop genres_node [] false ;;
                        Ok (match all_tags with
                            | [] => genre_tags
                            | _ => all_tags ++ genre_tags
                            end)
                    end) ;;
  let calibre_tags :=
    _convert_genres_to_calibre_tags (genre_mappings w) all_tags in
  ret (match calibre_tags with
       | [] => None
       | _ => Some calibre_tags
       end).

(** The patterns of the series: a group of any characters, optional
    whitespace, a group of one or more digits, then the marker. *)
Definition volume : char := 44428%N.   (* 권 *)
Definition episode : char := 54868%N.  (* 화 *)

Definition series_tail (marker : char) : Re.regex :=
  [Re.Close 1; Re.Star Re.Space;
   Re.Open 2; Re.Plus Re.Digit; Re.Close 2; Re.One (Re.Lit marker)].

Definition series_pattern (marker : char) : Re.regex :=
  Re.Open 1 :: Re.Star Re.Dot :: series_tail marker.

(** Lines 155-162 of [load_details]: the series name and index that the
    title gives, if any. *)
Definition title_series (title : option str)
  : result (option (str * pyfloat)) :=
  match title with
  | None => Raise AttributeError
  | Some title =>
      let series :=
        if endswith title [volume]
        then Re.search (series_pattern volume) title
        else Re.search (series_pattern episode) title in
      match series with
      | Some m =>
          index <-- float (Re.group 2 m) ;;
          Ok (Some (Re.group 1 m, index))
      | None => Ok None
      end
  end.

Definition translator_mark : str := u "(역자)".

(** Lines 122-124 of [load_details]: the identifier that the URL gives. *)
Definition url_identifier (url : str) : result str :=
  let x := split url (u "/books/") in
  x1 <-- index x 1 ;;
  let y := split x1 (u "?_") in
  index y 0.

(** [book_info[key]['name']], which the formatters need as a [str]. *)
Definition name_of (book_info : json) (key : str) : result str :=
  person <-- getitem book_info key ;;
  name <-- getitem person (u "name") ;;
  as_str name.

(** Lines 147-151 of [load_details]: what the plugin's caches are told. *)
Definition cache_notifications (ridibooks_id : str)
           (isbn cover_url : option str) : M unit :=
  match ridibooks_id with
  | [] => ret tt
  | _ =>
      (match isbn with
       | Some (c :: i) =>
           emit (cache_isbn_to_identifier (c :: i) ridibooks_id)
       | _ => ret tt
       end) ;;
      (match cover_url with
       | Some (c :: v) =>
           emit (cache_identifier_to_cover_url ridibooks_id (c :: v))
       | _ => ret tt
       end)
  end.

(** Lines 109-145 of [load_details]: the values read from the page, in
    the order the statements compute them.  Nothing is told to the
    outside before the last of them is there. *)
Definition extract_fields (w : Worker) (root : document)
  : result Fields.t :=
  let meta := meta_nodes root in
  book_info <-- book_block root ;;
  ridibooks_id <-- url_identifier (url w) ;;
  isbn <-- _find_meta meta (u "books:isbn") ;;
  cover_url <-- _find_meta meta (u "og:image") ;;
  title <-- _find_meta meta (u "og:title") ;;
  authors <-- (name <-- name_of book_info (u "author") ;;
               Ok (_format_list name)) ;;
  has_translator <-- json_in (u "translator") book_info ;;
  authors <-- (if has_translator : bool then
                 name <-- name_of book_info (u "translator") ;;
                 Ok (authors ++ map (fun a => a ++ translator_mark)
                                    (_format_list name))
               else Ok authors) ;;
  publisher <-- (name <-- name_of book_info (u "publisher") ;;
                 Ok (_format_item name)) ;;
  pubdate <-- (date_text <-- getitem book_info (u "datePublished") ;;
               date_text <-- as_str date_text ;;
               _format_date date_text) ;;
  comments <-- (description <-- getitem book_info (u "description") ;;
                description <-- as_str description ;;
                Ok (_format_item description)) ;;
  rating <-- (value <-- _find_meta meta
                          (u "books:rating:normalized_value") ;;
              match value with
              | Some value => float value
              | None => Raise TypeError
              end) ;;
  Ok {| Fields.book_info := book_info;
        Fields.ridibooks_id := ridibooks_id;
        Fields.isbn := isbn;
        Fields.cover_url := cover_url;
        Fields.title := title;
        Fields.authors := authors;
        Fields.publisher := publisher;
        Fields.pubdate := pubdate;
        Fields.comments := comments;
        Fields.rating := rating |}.

(** The record [mi] as [load_details] has filled it when it reaches the
    plugin's hook. *)
Definition assemble (w : Worker) (f : Fields.t)
           (tags : option (list str)) (series : option (str * pyfloat))
  : Metadata.t :=
  {| Metadata.title := Fields.title f;
     Metadata.authors := Fields.authors f;
     Metadata.identifier := (u "ridibooks", Fields.ridibooks_id f);
     Metadata.cover_url := Fields.cover_url f;
     Metadata.has_cover := truthy (Fields.cover_url f);
     Metadata.publisher := Fields.publisher f;
     Metadata.pubdate := Fields.pubdate f;
     Metadata.comments := Fields.comments f;
     Metadata.rating := Fields.rating f;
     Metadata.tags := tags;
     Metadata.series := option_map fst series;
     Metadata.series_index := option_map snd series;
     Metadata.language := u "Korean";
     Metadata.source_relevance := relevance w |}.

Definition load_details (w : Worker) : M unit :=
  root <- _get_book_page w ;;
  f <- lift (extract_fields w root) ;;
  cache_notifications (Fields.ridibooks_id f) (Fields.isbn f)
                      (Fields.cover_url f) ;;
  tags <- parse_tags w root ;;
  series <- lift (title_series (Fields.title f)) ;;
  let mi := assemble w f tags series in
  emit (clean_downloaded_metadata mi) ;;
  mi <- lift (clean w mi) ;;
  emit (result_queue_put mi).

(** [run]: whatever [load_details] raises is logged, with the URL as
    [%r] writes it, and dropped. *)
Definition run (w : Worker) : list event :=
  match load_details w with
  | (tr, Ok _) => tr
  | (tr, Raise _) =>
      tr ++ [log_exception (u "get_details failed for url: " ++ repr (url w))]
  end.

End Worker.

(** ** A runtime to compute with

    [sample_runtime] is used to run the worker on concrete pages.  It knows
    no digits outside ASCII, lowercases ASCII letters only, unescapes the
    four XML entities, decodes JSON without fractions, exponents and
    [\u] escapes, and has the default limit of 4300 digits for [int].  On the inputs it is applied to below it agrees with the
    real runtime. *)

Module Sample.

Definition unescape (s : str) : str :=
  let s := replace s (u "&quot;") [dquote] in
  let s := replace s (u "&lt;") (u "<") in
  let s := replace s (u "&gt;") (u ">") in
  replace s (u "&amp;") (u "&").

Fixpoint skip_ws (s : str) : str :=
  match s with
  | c :: s' =>
      if ((c =? 32) || (c =? 9) || (c =? 10) || (c =? 13))%N
      then skip_ws s' else s
  | [] => []
  end.

(** The text of a JSON string after its opening quote, and the rest. *)
Fixpoint string_body (s : str) : option (str * str) :=
  match s with
  | [] => None
  | 34%N :: r => Some ([], r)
  | 92%N :: e :: r =>
      let c := if (e =? 110)%N then Some 10%N
               else if (e =? 116)%N then Some 9%N
               else if (e =? 114)%N then Some 13%N
               else if (e =? 98)%N then Some 8%N
               else if (e =? 102)%N then Some 12%N
               else if ((e =? 34) || (e =? 92) || (e =? 47))%N then Some e
               else None in
      match c, string_body r with
      | Some c, Some (t, r') => Some (c :: t, r')
      | _, _ => None
      end
  | c :: r =>
      if (c <? 32)%N then None
      else match string_body r with
           | Some (t, r') => Some (c :: t, r')
           | None => None
           end
  end.

Fixpoint number_body (acc : N) (s : str) : N * str :=
  match s with
  | c :: r =>
      if ((48 <=? c) && (c <=? 57))%N
      then number_body (acc * 10 + (c - 48)) r
      else (acc, s)
  | [] => (acc, [])
  end.

Definition ends_number (s : str) : bool :=
  match s with
  | c :: _ => negb ((c =? 46) || (c =? 101) || (c =? 69))%N
  | [] => true
  end.

Inductive mode :=
| Value
| Members (acc : list (str * json))
| Items (acc : list json).

Fixpoint parse (fuel : nat) (m : mode) (s : str) : option (json * str) :=
  match fuel with
  | O => None
  | S fuel' =>
      match m with
      | Value =>
          match skip_ws s with
          | 123%N :: r =>
              match skip_ws r with
              | 125%N :: r' => Some (JObj [], r')
              | _ => parse fuel' (Members []) r
              end
          | 91%N :: r =>
              match skip_ws r with
              | 93%N :: r' => Some (JArr [], r')
              | _ => parse fuel' (Items []) r
              end
          | 34%N :: r =>
              match string_body r with
              | Some (t, r') => Some (JStr t, r')
              | None => None
              end
          | 45%N :: c :: r =>
              if ((48 <=? c) && (c <=? 57))%N then
                let (n, r') := number_body 0 (c :: r) in
                if ends_number r' then Some (JNum (- Z.of_N n), r') else None
              else None
          | c :: r =>
              if ((48 <=? c) && (c <=? 57))%N then
                let (n, r') := number_body 0 (c :: r) in
                if ends_number r' then Some (JNum (Z.of_N n), r') else None
              else if startswith (c :: r) (u "true")
                   then Some (JBool true, skipn 4 (c :: r))
              else if startswith (c :: r) (u "false")
                   then Some (JBool false, skipn 5 (c :: r))
              else if startswith (c :: r) (u "null")
                   then Some (JNull, skipn 4 (c :: r))
              else None
          | [] => None
          end
      | Members acc =>
          match skip_ws s with
          | 34%N :: r =>
              match string_body r with
              | Some (k, r') =>
                  match skip_ws r' with
                  | 58%N :: r'' =>
                      match parse fuel' Value r'' with
                      | Some (v, r3) =>
                          match skip_ws r3 with
                          | 44%N :: r4 =>
                              parse fuel' (Members (dict_set k v acc)) r4
                          | 125%N :: r4 => Some (JObj (dict_set k v acc), r4)
                          | _ => None
                          end
                      | None => None
                      end
                  | _ => None
                  end
              | None => None
              end
          | _ => None
          end
      | Items acc =>
          match parse fuel' Value s with
          | Some (v, r) =>
              match skip_ws r with
              | 44%N :: r' => parse fuel' (Items (acc ++ [v])) r'
              | 93%N :: r' => Some (JArr (acc ++ [v]), r')
              | _ => None
              end
          | None => None
          end
      end
  end.

Definition json_loads (s : str) : option json :=
  match parse (S (List.length s)) Value s with
  | Some (j, r) =>
      match skip_ws r with
      | [] => Some j
      | _ => None
      end
  | None => None
  end.

End Sample.

Definition sample_runtime : Runtime := {|
  uni_decimal := fun _ => None;
  uni_lower := map ascii_lower;
  unescape := Sample.unescape;
  json_loads := Sample.json_loads;
  float_literal := fun _ => None;
  uni_printable := fun _ => true;
  int_max_str_digits := 4300;
  int_max_str_digits_ok := or_intror (proj1 (Nat.leb_le 640 4300) eq_refl)
|}.

(** ** The specification's wording, for comparison *)

Module Spec.
Section WithRuntime.
Context {RT : Runtime}.



(** "for each raw tag, lowercase it and look it up in the GenreMapping.
    If found, append every tag in its mapped sequence that is not already
    present in the output.  If not found, append the raw tag itself if not
    already present." *)
Fixpoint map_tags (mapping : list (str * list str))
         (raw out : list str) : list str :=
  match raw with
  | [] => out
  | tag :: rest =>
      match lookup (lower tag) mapping with
      | Some mapped => map_tags mapping rest (fold_left add_tag mapped out)
      | None => map_tags mapping rest (add_tag out tag)
      end
  end.

(** What one raw tag contributes: its mapped tags when the mapping has a
    non-empty sequence for it, the raw tag itself otherwise. *)
Definition expansion (tag_map : list (str * list str)) (tag : str)
  : list str :=
  match lookup (lower tag) tag_map with
  | Some (t :: more) => t :: more
  | _ => [tag]
  end.

Definition str_eq_dec : forall a b : str, {a = b} + {a <> b} :=
  list_eq_dec N.eq_dec.

(** A sequence without its repeats, every tag at its first place. *)
Definition first_seen (l : list str) : list str :=
  rev (nodup str_eq_dec (rev l)).

(** An ASCII digit, and the number that a run of ASCII digits writes. *)
Definition ascii_digit (c : char) : bool := ((48 <=? c) && (c <=? 57))%N.

Definition number (s : str) : N :=
  fold_left (fun acc c => (acc * 10 + (c - 48))%N) s 0%N.

(** The characters an integer literal is made of: digits, whitespace
    around it, a sign, underscores. *)
Definition int_char (c : char) : bool :=
  isdigit c || int_space c || (c =? 43)%N || (c =? 45)%N || (c =? 95)%N.

(** "if both a source ID and an ISBN were found, notify the cache
    collaborator of the ISBN-ID association; if a source ID and cover URL
    were found, notify the cache collaborator of the ID-cover-URL
    association" *)
Definition isbn_notice (id : str) (isbn : option str) : list event :=
  match id, isbn with
  | _ :: _, Some (c :: i) => [cache_isbn_to_identifier (c :: i) id]
  | _, _ => []
  end.

Definition cover_notice (id : str) (cover : option str) : list event :=
  match id, cover with
  | _ :: _, Some (c :: v) => [cache_identifier_to_cover_url id (c :: v)]
  | _, _ => []
  end.

Definition notices (f : Fields.t) : list event :=
  isbn_notice (Fields.ridibooks_id f) (Fields.isbn f)
  ++ cover_notice (Fields.ridibooks_id f) (Fields.cover_url f).

Definition parsing_tags : event := log_info (u "Parsing tags").

Definition failed (url : str) : event :=
  log_exception (u "get_details failed for url: " ++ repr url).



Definition is_put (ev : event) : bool :=
  match ev with
  | result_queue_put _ => true
  | _ => false
  end.

End WithRuntime.
End Spec.

(** ** Sample pages *)

Module Page.

Definition ld : str :=
  uq "{'@context': 'http://schema.org', '@type': 'Book', "
  ++ uq "'name': 'Mystery Series 3권', "
  ++ uq "'author': {'@type': 'Person', 'name': 'Kim, Lee'}, "
  ++ uq "'translator': {'name': 'Park'}, "
  ++ uq "'publisher': {'name': 'Ridi'}, "
  ++ uq "'datePublished': '20240101', 'description': 'A story', "
  ++ uq "'keywords': '[\'fantasy\', \'romance\']'}".

Definition ld_no_translator : str :=
  uq "{'@type': 'Book', 'author': {'name': 'Kim, Lee'}, "
  ++ uq "'publisher': {'name': 'Ridi'}, "
  ++ uq "'datePublished': '20240101', 'description': 'A story'}".

Definition meta (property content : string) : element :=
  [(u "property", u property); (u "content", u content)].

Definition head : list element :=
  [meta "og:title" "Mystery Series 3권";
   meta "og:image" "https://img.ridicdn.net/cover/987654/xxlarge";
   [(u "name", u "viewport"); (u "content", u "width=device-width")];
   meta "books:isbn" "9788901234567";
   meta "books:rating:normalized_value" "1"].

Definition breadcrumb : genre_node :=
  {| a1 := [u "소설"]; sub_genre_nodes := [u " 판타지 "] |}.

(** A breadcrumb container that holds no link. *)
Definition empty_breadcrumb : genre_node :=
  {| a1 := []; sub_genre_nodes := [] |}.

Definition good : document :=
  {| head_meta := head;
     head_ld_json := [uq "{'@type': 'WebSite'}"; ld];
     info_category_wrap := [breadcrumb] |}.

Definition no_translator : document :=
  {| head_meta := head;
     head_ld_json := [ld_no_translator];
     info_category_wrap := [] |}.

Definition no_book_block : document :=
  {| head_meta := head;
     head_ld_json := [uq "{'@type': 'WebSite'}"];
     info_category_wrap := [breadcrumb] |}.

Definition linkless_breadcrumb : document :=
  {| head_meta := head;
     head_ld_json := [ld];
     info_category_wrap := [empty_breadcrumb] |}.

Definition worker (root : option document) : Worker :=
  {| url := u "https://ridibooks.com/books/987654?_s=search";
     relevance := 0;
     page := root;
     page_error := u "HTTPSConnectionPool: Max retries exceeded";
     genre_mappings := [(u "Fantasy", [u "Fantasy & SF"])];
     clean := fun mi => Ok mi |}.

(** What [run] logs when the sample worker fails. *)
Definition failed : event :=
  log_exception
    (u "get_details failed for url: "
     ++ u "'https://ridibooks.com/books/987654?_s=search'").

End Page.

(** ** The rest of [worker.py] *)

(** Lines 116-119 of [load_details], and 179-182 of [parse_tags]: the
    repairs made to the text of the JSON-LD block before it is decoded.
    [book_block] applies them in this order. *)
Definition repair (ld : str) : str :=
  let ld := replace ld (u "&lt;") (u "<") in
  let ld := replace ld (u "&gt;") (u ">") in
  let ld := replace ld (u "\&quot;") (uq "\'") in
  replace ld (u "&quot;") (uq "\'").

(** [Worker.__init__]: the table [lm] of language codes and names, and
    the loop that turns it into [self.lang_map]. *)
Definition lm : list (str * list str) :=
  [(u "eng", [u "English"; u "Englisch"]);
   (u "fra", [u "French"; u "Français"]);
   (u "ita", [u "Italian"; u "Italiano"]);
   (u "dut", [u "Dutch"]);
   (u "deu", [u "German"; u "Deutsch"]);
   (u "spa", [u "Spanish"; u "Español"; u "Espaniol"]);
   (u "jpn", [u "Japanese"; u "日本語"]);
   (u "kor", [u "Korean"; u "한국어"]);
   (u "por", [u "Portuguese"; u "Português"])].

Definition lang_map_of (lm : list (str * list str)) : list (str * str) :=
  fold_left
    (fun lang_map (entry : str * list str) =>
       fold_left (fun lang_map name => dict_set name (fst entry) lang_map)
                 (snd entry) lang_map)
    lm [].

Definition lang_map : list (str * str) := lang_map_of lm.

(** ** [libs/requests/packages.py]

    [sys.modules] maps a module name to a module object; an object is
    stood for by a number, so that two names of one object can be told
    from two objects.  The shim imports each package and registers the
    modules of the package once more under "requests.packages.".  What
    [__import__] does to [sys.modules] is taken as given; what it returns
    is kept in [locals()] and plays no part here. *)

Module Packages.

Definition module_object := N.
Definition modules := list (str * module_object).

Definition packages : list str :=
  [u "calibre_plugins.ridibooks.libs.urllib3";
   u "calibre_plugins.ridibooks.libs.idna";
   u "calibre.ebooks.chardet"].

Definition alias (mod_name : str) : str := u "requests.packages." ++ mod_name.

(** [mod == package or mod.startswith(package + '.')] *)
Definition belongs (package mod_name : str) : bool :=
  PyStr.eqb mod_name package || startswith mod_name (package ++ u ".").

(** One round of the inner loop, lines 11-12. *)
Definition alias_step (package : str) (sys_modules : result modules)
           (mod_name : str) : result modules :=
  sys_modules <-- sys_modules ;;
  if belongs package mod_name then
    match lookup mod_name sys_modules with
    | Some object => Ok (dict_set (alias mod_name) object sys_modules)
    | None => Raise KeyError
    end
  else Ok sys_modules.

(** The inner loop, lines 10-12: it runs over the names that
    [sys.modules] had when the loop began. *)
Definition alias_package (package : str) (sys_modules : modules)
  : result modules :=
  fold_left (alias_step package) (map fst sys_modules) (Ok sys_modules).

(** One round of the outer loop, lines 7-12: the import, then the inner
    loop. *)
Definition shim_round (import : str -> modules -> result modules)
           (sys_modules : result modules) (package : str) : result modules :=
  sys_modules <-- sys_modules ;;
  sys_modules <-- import package sys_modules ;;
  alias_package package sys_modules.

(** The outer loop, lines 6-12. *)
Definition shim (import : str -> modules -> result modules)
           (sys_modules : modules) : result modules :=
  fold_left (shim_round import) packages (Ok sys_modules).

End Packages.

(** ** Notions used to state properties *)

Module Shape.
Section WithRuntime.
Context {RT : Runtime}.

(** No whitespace at either end. *)
Definition trimmed (s : str) : bool :=
  match s with
  | [] => true
  | c :: _ => negb (isspace c) && negb (isspace (last s c))
  end.

(** A digit directly followed by the marker, somewhere in the title. *)
Fixpoint digit_before (mk : char) (title : str) : bool :=
  match title with
  | c :: ((d :: _) as rest) =>
      (isdigit c && (d =? mk)%N) || digit_before mk rest
  | _ => false
  end.

(** The marker the series detection looks for in a title. *)
Definition marker_of (title : str) : char :=
  if endswith title [volume] then volume else episode.

(** The text of a keywords field that lists [ks]: each keyword between
    double quotes, a comma and a space between two of them. *)
Definition keywords_text (ks : list str) : str :=
  dquote :: join (uq "', '") ks ++ [dquote].

(** The name and code pairs of a language table, in the order the loop of
    [__init__] meets them. *)
Definition name_codes (lm : list (str * list str)) : list (str * str) :=
  flat_map (fun entry : str * list str =>
              map (fun name => (name, fst entry)) (snd entry)) lm.

End WithRuntime.
End Shape.

(** * Properties *)

(** ** Strings *)

Example u_hangul : u "3권" = [51; 44428]%N.
Proof. reflexivity. Qed.

Lemma eqb_eq (a b : str) : PyStr.eqb a b = true <-> a = b.
Proof.
  revert b; induction a as [|x a IH]; intros [|y b]; simpl;
    try (split; [discriminate | congruence]); try tauto.
  rewrite andb_true_iff, N.eqb_eq, IH.
  split; [intros [-> ->]; reflexivity | intros H; inversion H; auto].
Qed.

Lemma eqb_refl (a : str) : PyStr.eqb a a = true.
Proof. apply eqb_eq; reflexivity. Qed.

Lemma eqb_neq (a b : str) : PyStr.eqb a b = false <-> a <> b.
Proof.
  destruct (PyStr.eqb a b) eqn:E.
  - apply eqb_eq in E. split; [discriminate | congruence].
  - split; [|reflexivity]. intros _ H. apply eqb_eq in H. congruence.
Qed.

Lemma startswith_nil (s : str) : startswith s [] = true.
Proof. destruct s; reflexivity. Qed.

Lemma startswith_app (p r : str) : startswith (p ++ r) p = true.
Proof.
  induction p as [|c p IH]; simpl; [apply startswith_nil|].
  now rewrite N.eqb_refl, IH.
Qed.

Lemma startswith_skipn (s p : str) :
  startswith s p = true -> s = p ++ skipn (List.length p) s.
Proof.
  revert s; induction p as [|c p IH]; intros s H; simpl in *.
  - reflexivity.
  - destruct s as [|d s]; [discriminate|].
    apply andb_true_iff in H as [Hc Hp]. apply N.eqb_eq in Hc; subst d.
    simpl. f_equal. now apply IH.
Qed.

Lemma contains_unfold (sub s : str) :
  contains sub s =
  startswith s sub
  || match s with [] => false | _ :: s' => contains sub s' end.
Proof. destruct s; reflexivity. Qed.

Lemma contains_app (a sep b : str) : contains sep (a ++ sep ++ b) = true.
Proof.
  induction a as [|c a IH]; simpl.
  - rewrite contains_unfold, startswith_app. reflexivity.
  - rewrite IH. apply orb_true_r.
Qed.

Lemma contains_prefix (sep a b : str) :
  contains sep a = true -> contains sep (a ++ b) = true.
Proof.
  induction a as [|c a IH]; intros H; rewrite contains_unfold in H.
  - rewrite orb_false_r in H. destruct sep; [|discriminate].
    rewrite contains_unfold, startswith_nil. reflexivity.
  - rewrite (contains_unfold sep ((c :: a) ++ b)).
    apply orb_true_iff in H as [H|H].
    + apply startswith_skipn in H. rewrite H at 1.
      rewrite <- app_assoc, startswith_app. reflexivity.
    + simpl. rewrite (IH H). apply orb_true_r.
Qed.

Lemma partition_unfold (sep s : str) :
  partition sep s =
  if startswith s sep then Some ([], skipn (List.length sep) s)
  else match s with
       | [] => None
       | c :: s' =>
           match partition sep s' with
           | Some (a, b) => Some (c :: a, b)
           | None => None
           end
       end.
Proof. destruct s; reflexivity. Qed.

Lemma partition_None (sep s : str) :
  partition sep s = None <-> contains sep s = false.
Proof.
  induction s as [|c s IH]; rewrite partition_unfold, contains_unfold.
  - destruct (startswith [] sep); simpl; split; congruence.
  - destruct (startswith (c :: s) sep); simpl.
    + split; discriminate.
    + rewrite <- IH. destruct (partition sep s) as [[a b]|];
        split; congruence.
Qed.

(** [partition] cuts at the first occurrence of the separator. *)
Lemma partition_Some (sep s a b : str) :
  partition sep s = Some (a, b) ->
  s = a ++ sep ++ b /\
  forall j, j < List.length a -> startswith (skipn j s) sep = false.
Proof.
  revert a b; induction s as [|c s IH]; intros a b;
    rewrite partition_unfold.
  - destruct (startswith [] sep) eqn:E; [|discriminate].
    intros H; inversion H; subst. split.
    + apply startswith_skipn in E. exact E.
    + simpl; intros j Hj; lia.
  - destruct (startswith (c :: s) sep) eqn:E.
    + intros H; inversion H; subst. split.
      * apply startswith_skipn in E. exact E.
      * simpl; intros j Hj; lia.
    + destruct (partition sep s) as [[a' b']|] eqn:P; [|discriminate].
      intros H; inversion H; subst. destruct (IH a' b eq_refl) as [Hs Hj].
      split.
      * simpl. now rewrite <- Hs.
      * intros [|j] Hlt; simpl in Hlt; [exact E | apply Hj; lia].
Qed.

Lemma partition_before (sep s a b : str) :
  partition sep s = Some (a, b) -> sep <> [] -> contains sep a = false.
Proof.
  revert a b; induction s as [|c s IH]; intros a b;
    rewrite partition_unfold.
  - destruct (startswith [] sep) eqn:E; [|discriminate].
    intros H Hsep; inversion H; subst. destruct sep; [congruence|reflexivity].
  - destruct (startswith (c :: s) sep) eqn:E.
    + intros H Hsep; inversion H; subst.
      destruct sep; [congruence|reflexivity].
    + destruct (partition sep s) as [[a' b']|] eqn:P; [|discriminate].
      intros H Hsep; inversion H; subst.
      rewrite contains_unfold, (IH a' b eq_refl Hsep), orb_false_r.
      destruct (startswith (c :: a') sep) eqn:E'; [|reflexivity].
      apply partition_Some in P as [Hs _].
      apply startswith_skipn in E'.
      assert (startswith (c :: s) sep = true); [|congruence].
      rewrite Hs, app_comm_cons, E', <- app_assoc. apply startswith_app.
Qed.

Lemma partition_shrinks (sep s a b : str) :
  partition sep s = Some (a, b) -> sep <> [] ->
  List.length b < List.length s.
Proof.
  intros H Hsep. apply partition_Some in H as [-> _].
  rewrite !length_app. destruct sep; [congruence|simpl; lia].
Qed.

Lemma split_fuel_enough (sep : str) (n m : nat) (s : str) :
  sep <> [] -> List.length s <= n -> List.length s <= m ->
  split_fuel n sep s = split_fuel m sep s.
Proof.
  intros Hsep. revert m s; induction n as [|n IH]; intros m s Hn Hm.
  - destruct s; [|simpl in Hn; lia].
    destruct m; simpl; [reflexivity|].
    destruct sep; [congruence|reflexivity].
  - destruct m as [|m].
    + destruct s; [|simpl in Hm; lia]. simpl.
      destruct sep; [congruence|reflexivity].
    + simpl. destruct (partition sep s) as [[a b]|] eqn:P; [|reflexivity].
      f_equal. pose proof (partition_shrinks _ _ _ _ P Hsep).
      apply IH; lia.
Qed.

(** [split] cuts at the first separator and goes on with the rest. *)
Lemma split_unfold (s sep : str) :
  sep <> [] ->
  split s sep = match partition sep s with
                | None => [s]
                | Some (a, b) => a :: split b sep
                end.
Proof.
  intros Hsep. unfold split. destruct s as [|c s].
  - simpl. destruct sep; [congruence|reflexivity].
  - cbn [List.length split_fuel].
    destruct (partition sep (c :: s)) as [[a b]|] eqn:P; [|reflexivity].
    f_equal. pose proof (partition_shrinks _ _ _ _ P Hsep) as L. simpl in L.
    apply split_fuel_enough; [assumption|lia|lia].
Qed.



(** ** The identifier of the URL *)







(** ** Meta fields *)

Lemma property_is_get (property : str) (e : element) :
  property_is property e = true <-> get e (u "property") = Some property.
Proof.
  unfold property_is. destruct (get e (u "property")) as [p|].
  - rewrite eqb_eq. split; congruence.
  - split; discriminate.
Qed.

Lemma filter_none {A} (f : A -> bool) (l : list A) :
  (forall x, In x l -> f x = false) <-> filter f l = [].
Proof.
  induction l as [|a l IH]; simpl.
  - tauto.
  - destruct (f a) eqn:E.
    + split; [|discriminate]. intros H.
      specialize (H a (or_introl eq_refl)). congruence.
    + rewrite <- IH. split.
      * intros H x Hx. apply H. now right.
      * intros H x [<-|Hx]; auto.
Qed.

(** C9: [_find_meta] returns the content attribute of the first entry
    whose property is the requested one, and raises [IndexError] exactly
    when no entry has that property; it raises nothing else and so has no
    value to fall back on. *)
Theorem find_meta_first_match (node : list element) (property : str) :
  (forall pre e post,
      node = pre ++ e :: post ->
      get e (u "property") = Some property ->
      (forall x, In x pre -> get x (u "property") <> Some property) ->
      _find_meta node property = Ok (get e (u "content"))) /\
  (_find_meta node property = Raise IndexError <->
   forall e, In e node -> get e (u "property") <> Some property) /\
  (forall r, _find_meta node property = Ok r ->
             exists e, In e node /\ get e (u "property") = Some property
                       /\ r = get e (u "content")).
Proof.
  unfold _find_meta. repeat split.
  - intros pre e post -> He Hpre.
    rewrite filter_app.
    assert (filter (property_is property) pre = []) as ->.
    { apply filter_none. intros x Hx.
      destruct (property_is property x) eqn:E; [|reflexivity].
      apply property_is_get in E. now apply Hpre in E. }
    simpl. apply property_is_get in He. rewrite He. reflexivity.
  - intros H e He Hp.
    apply property_is_get in Hp.
    destruct (filter (property_is property) node) as [|x l] eqn:F;
      [|discriminate].
    apply filter_none with (x := e) in F; [congruence|assumption].
  - intros H.
    assert (filter (property_is property) node = []) as ->; [|reflexivity].
    apply filter_none. intros x Hx.
    destruct (property_is property x) eqn:E; [|reflexivity].
    apply property_is_get in E. now apply H in E.
  - intros r H.
    destruct (filter (property_is property) node) as [|x l] eqn:F;
      [discriminate|].
    simpl in H. inversion H; subst.
    assert (In x (filter (property_is property) node)) as Hin
      by (rewrite F; now left).
    apply filter_In in Hin as [Hin Hp]. apply property_is_get in Hp.
    exists x. auto.
Qed.

Lemma find_meta_first_match_witness :
  _find_meta [Page.meta "og:image" "cover"; Page.meta "og:title" "first";
              Page.meta "og:title" "second"] (u "og:title")
  = Ok (Some (u "first")) /\
  _find_meta [Page.meta "og:image" "cover"] (u "og:title")
  = Raise IndexError.
Proof.
  split.
  - apply (proj1 (find_meta_first_match _ (u "og:title"))
             [Page.meta "og:image" "cover"] (Page.meta "og:title" "first")
             [Page.meta "og:title" "second"]).
    + reflexivity.
    + reflexivity.
    + intros x [<-|[]]. vm_compute. discriminate.
  - apply (proj1 (proj2 (find_meta_first_match _ (u "og:title")))).
    intros e [<-|[]]. vm_compute. discriminate.
Defined.

(** ** The tag mapper *)

Section TagMapper.
Context {RT : Runtime}.

Lemma mem_In (tag : str) (l : list str) : mem tag l = true <-> In tag l.
Proof.
  unfold mem. rewrite existsb_exists. split.
  - intros (x & Hx & E). apply eqb_eq in E. now subst.
  - intros H. exists tag. split; [assumption | apply eqb_refl].
Qed.

Lemma add_tag_In (l : list str) (tag x : str) :
  In x (add_tag l tag) <-> In x l \/ x = tag.
Proof.
  unfold add_tag. destruct (mem tag l) eqn:E.
  - apply mem_In in E. split; [now left | intros [H| ->]; assumption].
  - rewrite in_app_iff. simpl. intuition.
Qed.

Lemma add_tag_NoDup (l : list str) (tag : str) :
  NoDup l -> NoDup (add_tag l tag).
Proof.
  intros H. unfold add_tag. destruct (mem tag l) eqn:E; [assumption|].
  apply NoDup_app; [assumption | repeat constructor; simpl; tauto |].
  intros x Hx [<-|[]]. apply mem_In in Hx. congruence.
Qed.

Lemma add_tags_NoDup (tags l : list str) :
  NoDup l -> NoDup (fold_left add_tag tags l).
Proof.
  revert l; induction tags as [|t tags IH]; intros l H; simpl;
    [assumption|]. apply IH. now apply add_tag_NoDup.
Qed.

Lemma add_tags_In (tags l : list str) (x : str) :
  In x (fold_left add_tag tags l) <-> In x l \/ In x tags.
Proof.
  revert l; induction tags as [|t tags IH]; intros l; simpl.
  - tauto.
  - rewrite IH, add_tag_In. intuition.
Qed.

(** The loop adds the expansion of each tag in turn. *)
Lemma convert_loop_fold (m : list (str * list str))
      (genre_tags tags_to_add : list str) :
  convert_loop m genre_tags tags_to_add
  = fold_left add_tag (flat_map (Spec.expansion m) genre_tags) tags_to_add.
Proof.
  revert tags_to_add; induction genre_tags as [|t rest IH];
    intros acc; simpl; [reflexivity|].
  rewrite fold_left_app. unfold Spec.expansion at 2.
  destruct (lookup (lower t) m) as [[|x xs]|]; apply IH.
Qed.

Lemma convert_loop_snoc (m : list (str * list str))
      (genre_tags : list str) (t : str) (acc : list str) :
  convert_loop m (genre_tags ++ [t]) acc
  = fold_left add_tag (Spec.expansion m t) (convert_loop m genre_tags acc).
Proof.
  rewrite !convert_loop_fold, flat_map_app, fold_left_app. simpl.
  now rewrite app_nil_r.
Qed.

Lemma add_tags_first_seen (l : list str) :
  fold_left add_tag l [] = Spec.first_seen l.
Proof.
  unfold Spec.first_seen.
  induction l as [|x l IH] using rev_ind; [reflexivity|].
  rewrite fold_left_app, rev_app_distr. simpl. rewrite IH.
  unfold add_tag.
  destruct (in_dec Spec.str_eq_dec x (rev l)) as [Hin|Hin].
  - assert (mem x (rev (nodup Spec.str_eq_dec (rev l))) = true) as ->;
      [|reflexivity].
    apply mem_In. rewrite <- in_rev. now apply nodup_In.
  - assert (mem x (rev (nodup Spec.str_eq_dec (rev l))) = false) as ->;
      [|reflexivity].
    destruct (mem x _) eqn:E; [|reflexivity].
    apply mem_In in E. rewrite <- in_rev in E. apply nodup_In in E.
    contradiction.
Qed.

Lemma lookup_dict_set {A} (k k' : str) (v : A) (d : list (str * A)) :
  lookup k (dict_set k' v d)
  = if PyStr.eqb k' k then Some v else lookup k d.
Proof.
  induction d as [|[k0 v0] d IH]; simpl.
  - reflexivity.
  - destruct (PyStr.eqb k0 k') eqn:E0; simpl.
    + apply eqb_eq in E0; subst k0.
      destruct (PyStr.eqb k' k); reflexivity.
    + destruct (PyStr.eqb k0 k) eqn:E1; [|exact IH].
      apply eqb_eq in E1; subst k0.
      destruct (PyStr.eqb k' k) eqn:E2; [|reflexivity].
      apply eqb_eq in E2; subst k'. rewrite eqb_refl in E0. discriminate.
Qed.

(** [calibre_tag_map] answers with the last configured item whose
    lowercased key is the one asked for. *)
Lemma calibre_tag_map_lookup (calibre_tag_lookup : list (str * list str))
      (k : str) :
  lookup k (calibre_tag_map calibre_tag_lookup)
  = lookup k (map (fun kv => (lower (fst kv), snd kv))
                  (rev calibre_tag_lookup)).
Proof.
  unfold calibre_tag_map.
  induction calibre_tag_lookup as [|[k' v] l IH] using rev_ind;
    [reflexivity|].
  rewrite fold_left_app, rev_app_distr. simpl.
  rewrite lookup_dict_set, IH. reflexivity.
Qed.

Lemma lookup_In {A} (k : str) (v : A) (l : list (str * A)) :
  NoDup (map fst l) -> In (k, v) l -> lookup k l = Some v.
Proof.
  induction l as [|[k' v'] l IH]; simpl; [tauto|].
  intros Hnd [E|Hin].
  - inversion E; subst. now rewrite eqb_refl.
  - inversion Hnd; subst. destruct (PyStr.eqb k' k) eqn:Ek.
    + apply eqb_eq in Ek; subst. exfalso. apply H1.
      apply in_map_iff. now exists (k, v).
    + now apply IH.
Qed.

Lemma lookup_Some_In {A} (k : str) (v : A) (l : list (str * A)) :
  lookup k l = Some v -> In (k, v) l.
Proof.
  induction l as [|[k' v'] l IH]; simpl; [discriminate|].
  destruct (PyStr.eqb k' k) eqn:Ek.
  - apply eqb_eq in Ek; subst. intros E; inversion E. now left.
  - intros E. right. now apply IH.
Qed.

Lemma lookup_None_In {A} (k : str) (l : list (str * A)) :
  lookup k l = None -> forall v, ~ In (k, v) l.
Proof.
  induction l as [|[k' v'] l IH]; simpl; [tauto|].
  destruct (PyStr.eqb k' k) eqn:Ek; [discriminate|].
  intros E v [H|H].
  - inversion H; subst. rewrite eqb_refl in Ek. discriminate.
  - now apply (IH E v).
Qed.

Lemma lookup_rev {A} (k : str) (l : list (str * A)) :
  NoDup (map fst l) -> lookup k (rev l) = lookup k l.
Proof.
  intros Hnd. destruct (lookup k l) as [v|] eqn:E.
  - apply lookup_In.
    + rewrite map_rev. now apply NoDup_rev.
    + apply in_rev. rewrite rev_involutive. now apply lookup_Some_In.
  - destruct (lookup k (rev l)) as [v|] eqn:E'; [|reflexivity].
    apply lookup_Some_In in E'. apply in_rev in E'.
    now apply (lookup_None_In k l E) in E'.
Qed.

(** A mapping whose keys are lowercase already, as the configuration is
    meant to hold them, is looked up as it is. *)
Lemma calibre_tag_map_lowercase (calibre_tag_lookup : list (str * list str))
      (k : str) :
  (forall kv, In kv calibre_tag_lookup -> lower (fst kv) = fst kv) ->
  NoDup (map fst calibre_tag_lookup) ->
  lookup k (calibre_tag_map calibre_tag_lookup)
  = lookup k calibre_tag_lookup.
Proof.
  intros Hlow Hnd. rewrite calibre_tag_map_lookup.
  rewrite <- (lookup_rev k calibre_tag_lookup Hnd). f_equal.
  rewrite <- (map_id (rev calibre_tag_lookup)) at 2.
  apply map_ext_in. intros [k' v] Hin. apply in_rev in Hin.
  cbn [fst snd]. f_equal. apply (Hlow (k', v) Hin).
Qed.

End TagMapper.

(** C2, as the specification words it, fails: a raw tag that is found in
    the mapping with an empty sequence is added as it is, where the
    wording adds nothing. *)
Lemma map_tags_wording_differs :
  @_convert_genres_to_calibre_tags sample_runtime
    [(u "fantasy", [])] [u "Fantasy"]
  <> @Spec.map_tags sample_runtime
       (@calibre_tag_map sample_runtime [(u "fantasy", [])])
       [u "Fantasy"] [].
Proof. vm_compute. discriminate. Qed.

Lemma map_tags_agree {RT : Runtime} (m : list (str * list str))
      (raw out : list str) :
  (forall k, lookup k m <> Some []) ->
  convert_loop m raw out = Spec.map_tags m raw out.
Proof.
  intros Hm. revert out; induction raw as [|t rest IH]; intros out; simpl;
    [reflexivity|].
  destruct (lookup (lower t) m) as [[|x xs]|] eqn:E; try apply IH.
  now apply Hm in E.
Qed.

(** C2 (amended): the mapper takes the raw tags in order; a tag whose
    lowercased form has a non-empty mapped sequence contributes the tags of
    that sequence, any other tag (not found, or found with an empty
    sequence) contributes itself, and a contribution is appended only when
    the output does not have it yet.  So the output is the sequence of all
    contributions with every tag at its first place, it has no repeats, an
    unmapped tag is in it unchanged, it is what the specification's wording
    computes when no mapped sequence is empty, and the example of the
    specification holds.  The lookup is made in the mapping with its keys
    lowercased, which is the mapping itself when its keys are lowercase. *)
Theorem convert_genres_first_seen {RT : Runtime}
        (calibre_tag_lookup : list (str * list str))
        (genre_tags : list str) :
  let tag_map := calibre_tag_map calibre_tag_lookup in
  let out := _convert_genres_to_calibre_tags calibre_tag_lookup genre_tags in
  (forall t,
      _convert_genres_to_calibre_tags calibre_tag_lookup (genre_tags ++ [t])
      = fold_left add_tag (Spec.expansion tag_map t) out) /\
  out = Spec.first_seen (flat_map (Spec.expansion tag_map) genre_tags) /\
  NoDup out /\
  (forall t, In t genre_tags -> lookup (lower t) tag_map = None ->
             In t out) /\
  (forall t mapped x,
      In t genre_tags -> lookup (lower t) tag_map = Some mapped ->
      In x mapped -> In x out) /\
  ((forall k, lookup k tag_map <> Some []) ->
   out = Spec.map_tags tag_map genre_tags []) /\
  ((forall kv, In kv calibre_tag_lookup -> lower (fst kv) = fst kv) ->
   NoDup (map fst calibre_tag_lookup) ->
   forall k, lookup k tag_map = lookup k calibre_tag_lookup) /\
  _convert_genres_to_calibre_tags
    [(u "fantasy", [u "Fantasy & SF"])]
    [u "Fantasy"; u "fantasy"; u "SciFi"]
  = [u "Fantasy & SF"; u "SciFi"].
Proof.
  intros tag_map out. unfold out, _convert_genres_to_calibre_tags.
  fold tag_map. repeat split.
  - intros t. apply convert_loop_snoc.
  - rewrite convert_loop_fold. apply add_tags_first_seen.
  - rewrite convert_loop_fold. apply add_tags_NoDup. constructor.
  - intros t Hin Hl. rewrite convert_loop_fold. apply add_tags_In. right.
    apply in_flat_map. exists t. split; [assumption|].
    unfold Spec.expansion. rewrite Hl. now left.
  - intros t mapped x Hin Hl Hx. rewrite convert_loop_fold.
    apply add_tags_In. right. apply in_flat_map. exists t.
    split; [assumption|]. unfold Spec.expansion. rewrite Hl.
    destruct mapped; [destruct Hx | exact Hx].
  - intros Hm. now apply map_tags_agree.
  - intros Hlow Hnd k. now apply calibre_tag_map_lowercase.
Qed.

Lemma convert_genres_first_seen_witness :
  let lk := [(u "fantasy", [u "Fantasy & SF"])] in
  let raw := [u "Fantasy"; u "fantasy"; u "SciFi"] in
  In (u "SciFi") (@_convert_genres_to_calibre_tags sample_runtime lk raw) /\
  In (u "Fantasy & SF")
     (@_convert_genres_to_calibre_tags sample_runtime lk raw) /\
  @_convert_genres_to_calibre_tags sample_runtime lk raw
  = @Spec.map_tags sample_runtime (@calibre_tag_map sample_runtime lk) raw []
  /\
  lookup (u "fantasy") (@calibre_tag_map sample_runtime lk)
  = lookup (u "fantasy") lk.
Proof.
  intros lk raw.
  destruct (@convert_genres_first_seen sample_runtime lk raw)
    as (_ & _ & _ & H4 & H5 & H6 & H7 & _).
  split; [|split; [|split]].
  - apply H4; [simpl; auto | reflexivity].
  - apply (H5 (u "fantasy") [u "Fantasy & SF"]);
      [simpl; auto | reflexivity | simpl; auto].
  - apply H6. intros k.
    change (@calibre_tag_map sample_runtime lk)
      with [(u "fantasy", [u "Fantasy & SF"])].
    cbn [lookup]. destruct (PyStr.eqb (u "fantasy") k); discriminate.
  - apply H7.
    + intros kv [<-|[]]. reflexivity.
    + repeat constructor. simpl. tauto.
Defined.

(** C8, as stated, fails: a tag mapped to an empty sequence is not
    dropped. *)
Lemma empty_mapping_not_dropped :
  lookup (@lower sample_runtime (u "Romance"))
         (@calibre_tag_map sample_runtime [(u "romance", [])]) = Some [] /\
  @_convert_genres_to_calibre_tags sample_runtime
    [(u "romance", [])] ([] ++ [u "Romance"])
  <> @_convert_genres_to_calibre_tags sample_runtime
       [(u "romance", [])] [].
Proof. split; [reflexivity | vm_compute; discriminate]. Qed.

(** C8 (amended): a raw tag whose lowercased form is mapped to an empty
    sequence is treated like a tag that is not mapped: the raw tag itself
    is appended unless the output has it already, so it is in the output
    afterwards. *)
Theorem empty_mapping_passes_raw_tag {RT : Runtime}
        (calibre_tag_lookup : list (str * list str))
        (genre_tags : list str) (t : str) :
  lookup (lower t) (calibre_tag_map calibre_tag_lookup) = Some [] ->
  _convert_genres_to_calibre_tags calibre_tag_lookup (genre_tags ++ [t])
  = add_tag (_convert_genres_to_calibre_tags calibre_tag_lookup genre_tags) t
  /\ In t (_convert_genres_to_calibre_tags calibre_tag_lookup
             (genre_tags ++ [t])).
Proof.
  intros H. unfold _convert_genres_to_calibre_tags.
  assert (convert_loop (calibre_tag_map calibre_tag_lookup)
                       (genre_tags ++ [t]) []
          = add_tag (convert_loop (calibre_tag_map calibre_tag_lookup)
                                  genre_tags []) t) as E.
  { rewrite convert_loop_snoc. unfold Spec.expansion. rewrite H.
    reflexivity. }
  split; [exact E|]. rewrite E. apply add_tag_In. now right.
Qed.

Lemma empty_mapping_passes_raw_tag_witness :
  @_convert_genres_to_calibre_tags sample_runtime
    [(u "romance", []); (u "fantasy", [u "Fantasy & SF"])]
    ([u "Fantasy"] ++ [u "Romance"])
  = add_tag (@_convert_genres_to_calibre_tags sample_runtime
               [(u "romance", []); (u "fantasy", [u "Fantasy & SF"])]
               [u "Fantasy"]) (u "Romance").
Proof.
  refine (proj1 (@empty_mapping_passes_raw_tag sample_runtime _ _ _ _)).
  vm_compute. reflexivity.
Defined.

(** ** Dates *)

Section Dates.
Context {RT : Runtime}.

Lemma ascii_digit_cases (c : char) :
  Spec.ascii_digit c = true ->
  (c = 48 \/ c = 49 \/ c = 50 \/ c = 51 \/ c = 52 \/
   c = 53 \/ c = 54 \/ c = 55 \/ c = 56 \/ c = 57)%N.
Proof.
  unfold Spec.ascii_digit. rewrite andb_true_iff, !N.leb_le. lia.
Qed.

Lemma ascii_digit_decimal (c : char) :
  Spec.ascii_digit c = true -> decimal c = Some (c - 48)%N.
Proof. unfold decimal, Spec.ascii_digit. now intros ->. Qed.

Lemma ascii_digit_not_int_space (c : char) :
  Spec.ascii_digit c = true -> int_space c = false.
Proof.
  intros H. apply ascii_digit_cases in H.
  repeat (destruct H as [-> | H]; [reflexivity|]). now subst.
Qed.

Lemma ascii_digit_not_sign (c : char) :
  Spec.ascii_digit c = true -> c <> 43%N /\ c <> 45%N.
Proof.
  unfold Spec.ascii_digit. rewrite andb_true_iff, !N.leb_le. lia.
Qed.

Lemma int_lstrip_digits (s : str) :
  forallb Spec.ascii_digit s = true -> int_lstrip s = s.
Proof.
  destruct s as [|c s]; simpl; [reflexivity|].
  rewrite andb_true_iff. intros [H _].
  now rewrite (ascii_digit_not_int_space c H).
Qed.

Lemma int_strip_digits (s : str) :
  forallb Spec.ascii_digit s = true -> int_strip s = s.
Proof.
  intros H. unfold int_strip. rewrite (int_lstrip_digits s H).
  rewrite int_lstrip_digits; [apply rev_involutive|].
  rewrite forallb_forall in *. intros x Hx. apply H. now apply in_rev.
Qed.

Lemma digits_ascii (s : str) (acc : N) (b : bool) :
  forallb Spec.ascii_digit s = true ->
  s <> [] \/ b = true ->
  digits acc b s
  = Some (fold_left (fun a c => (a * 10 + (c - 48))%N) s acc).
Proof.
  revert acc b; induction s as [|c s IH]; intros acc b H Hb; simpl.
  - destruct Hb as [Hb | ->]; [congruence | reflexivity].
  - simpl in H. apply andb_true_iff in H as [Hc Hs].
    rewrite (ascii_digit_decimal c Hc). apply IH; [assumption | now right].
Qed.

Lemma sign_split_digit (c : char) (s : str) :
  Spec.ascii_digit c = true -> sign_split (c :: s) = (false, c :: s).
Proof.
  intros Hc. apply ascii_digit_cases in Hc.
  repeat (destruct Hc as [-> | Hc]; [reflexivity|]). now subst.
Qed.

Lemma sign_split_keeps (body : str) (c : char) :
  In c body -> c <> 43%N -> c <> 45%N -> In c (snd (sign_split body)).
Proof.
  destruct body as [|x r]; intros Hin Hp Hm; [destruct Hin|].
  destruct (N.eq_dec x 43) as [->|N1];
    [simpl; destruct Hin as [E|Hin]; [congruence | exact Hin]|].
  destruct (N.eq_dec x 45) as [->|N2];
    [simpl; destruct Hin as [E|Hin]; [congruence | exact Hin]|].
  assert (sign_split (x :: r) = (false, x :: r)) as ->; [|exact Hin].
  unfold sign_split. destruct x as [|p]; [reflexivity|].
  do 6 (destruct p as [p|p|]; try reflexivity); congruence.
Qed.

Lemma few_digits (r : str) :
  List.length r <= 640 -> too_many_digits r = false.
Proof.
  intros H. unfold too_many_digits.
  pose proof (filter_length_le isdigit r) as L.
  destruct int_max_str_digits_ok as [-> | Hmax]; [reflexivity|].
  apply andb_false_iff. right. apply Nat.ltb_ge. lia.
Qed.

(** [int] reads a non-empty run of ASCII digits as the number it writes. *)
Lemma int_ascii_digits (s : str) :
  forallb Spec.ascii_digit s = true -> s <> [] -> List.length s <= 640 ->
  int s = Ok (Z.of_N (Spec.number s)).
Proof.
  intros H Hne Hlen. unfold int. rewrite (int_strip_digits s H).
  destruct s as [|c s]; [congruence|].
  assert (Hc : Spec.ascii_digit c = true)
    by (simpl in H; now apply andb_true_iff in H).
  rewrite (sign_split_digit c s Hc).
  simpl fst; simpl snd. rewrite (few_digits _ Hlen).
  rewrite digits_ascii; [reflexivity|assumption|].
  left; discriminate.
Qed.

Lemma int_lstrip_keeps (s : str) (c : char) :
  In c s -> int_space c = false -> In c (int_lstrip s).
Proof.
  induction s as [|x s IH]; simpl; [tauto|].
  intros [<-|Hin] Hc.
  - rewrite Hc. now left.
  - destruct (int_space x); [now apply IH | now right].
Qed.

Lemma int_strip_keeps (s : str) (c : char) :
  In c s -> int_space c = false -> In c (int_strip s).
Proof.
  intros Hin Hc. unfold int_strip. apply in_rev.
  rewrite rev_involutive. apply int_lstrip_keeps; [|assumption].
  apply in_rev. rewrite rev_involutive. now apply int_lstrip_keeps.
Qed.

Lemma digits_bad_char (s : str) (c : char) (acc : N) (b : bool) :
  In c s -> decimal c = None -> c <> 95%N -> digits acc b s = None.
Proof.
  revert acc b; induction s as [|x s IH]; intros acc b Hin Hd Hu;
    simpl; [destruct Hin|].
  destruct Hin as [<-|Hin].
  - rewrite Hd. apply N.eqb_neq in Hu. now rewrite Hu.
  - destruct (decimal x); [now apply IH|].
    destruct ((x =? 95)%N && b); [now apply IH | reflexivity].
Qed.

Lemma int_raises (s : str) (e : exn) : int s = Raise e -> e = ValueError.
Proof.
  unfold int. destruct (too_many_digits _);
    [|destruct (digits 0 false _)]; intros H; inversion H; reflexivity.
Qed.

(** [int] rejects a string with a character that no integer literal
    has. *)
Lemma int_bad_char (s : str) (c : char) :
  In c s -> Spec.int_char c = false -> int s = Raise ValueError.
Proof.
  unfold Spec.int_char. rewrite !orb_false_iff, !N.eqb_neq.
  intros Hin ((((Hd & Hs) & Hp) & Hm) & Hu).
  assert (decimal c = None) as Hdec
    by (unfold isdigit in Hd; destruct (decimal c); congruence).
  pose proof (int_strip_keeps s c Hin Hs) as Hb.
  unfold int.
  pose proof (sign_split_keeps _ c Hb Hp Hm) as Hr.
  rewrite (digits_bad_char _ c 0%N false Hr Hdec Hu).
  now destruct (too_many_digits _).
Qed.

Lemma int_empty : int [] = Raise ValueError.
Proof.
  unfold int. cbn. now destruct (too_many_digits []).
Qed.

Lemma days_in_month_le (y m : Z) : (days_in_month y m <= 31)%Z.
Proof.
  unfold days_in_month.
  destruct (m =? 2)%Z; [destruct (is_leap y); lia|].
  destruct (_ || _); lia.
Qed.

Lemma mk_datetime_Ok (y m d : Z) (t : option tzinfo) (dt : datetime) :
  mk_datetime y m d t = Ok dt ->
  dt = {| year := y; month := m; day := d;
          hour := 0; minute := 0; second := 0; tz := t |} /\
  (1 <= y <= 9999 /\ 1 <= m <= 12 /\ 1 <= d <= days_in_month y m)%Z.
Proof.
  unfold mk_datetime.
  destruct (negb _); [discriminate|].
  destruct ((1 <=? y)%Z && _ && _ && _ && _ && _) eqn:E; [|discriminate].
  intros H; inversion H; subst. split; [reflexivity|].
  rewrite !andb_true_iff, !Z.leb_le in E. lia.
Qed.

Lemma mk_datetime_valid (y m d : Z) (t : option tzinfo) :
  (1 <= y <= 9999)%Z -> (1 <= m <= 12)%Z ->
  (1 <= d <= days_in_month y m)%Z ->
  mk_datetime y m d t
  = Ok {| year := y; month := m; day := d;
          hour := 0; minute := 0; second := 0; tz := t |}.
Proof.
  intros Hy Hm Hd. pose proof (days_in_month_le y m) as Hdim.
  unfold mk_datetime, c_int.
  repeat match goal with
         | |- context [(?a <=? ?b)%Z] =>
             let L := fresh in
             assert ((a <=? b)%Z = true) as L by (apply Z.leb_le; lia);
             rewrite L; clear L
         end.
  reflexivity.
Qed.

Lemma mk_datetime_raises (y m d : Z) (t : option tzinfo) (e : exn) :
  mk_datetime y m d t = Raise e -> e = ValueError \/ e = OverflowError.
Proof.
  unfold mk_datetime. destruct (negb _).
  - intros H; inversion H. now right.
  - destruct (_ && _); intros H; inversion H. now left.
Qed.

Lemma format_date_Ok (s : str) (dt : datetime) :
  _format_date s = Ok dt ->
  int (slice s 0 4) = Ok (year dt) /\
  int (slice s 4 6) = Ok (month dt) /\
  int (slice_from s 6) = Ok (day dt) /\
  (1 <= year dt <= 9999 /\ 1 <= month dt <= 12 /\
   1 <= day dt <= days_in_month (year dt) (month dt))%Z /\
  hour dt = 0%Z /\ minute dt = 0%Z /\ second dt = 0%Z /\ tz dt = Some utc_tz.
Proof.
  unfold _format_date.
  destruct (int (slice s 0 4)) as [y|]; [|discriminate].
  destruct (int (slice s 4 6)) as [m|]; [|discriminate].
  destruct (int (slice_from s 6)) as [d|]; [|discriminate].
  simpl. intros H. apply mk_datetime_Ok in H as [-> R]. simpl. tauto.
Qed.

Lemma format_date_raises (s : str) (e : exn) :
  _format_date s = Raise e -> e = ValueError \/ e = OverflowError.
Proof.
  unfold _format_date.
  destruct (int (slice s 0 4)) as [y|e1] eqn:E1;
    [|simpl; intros H; inversion H; subst; left;
      now apply int_raises in E1].
  destruct (int (slice s 4 6)) as [m|e2] eqn:E2;
    [|simpl; intros H; inversion H; subst; left;
      now apply int_raises in E2].
  destruct (int (slice_from s 6)) as [d|e3] eqn:E3;
    [|simpl; intros H; inversion H; subst; left;
      now apply int_raises in E3].
  simpl. apply mk_datetime_raises.
Qed.

(** A slice that [int] rejects makes [_format_date] raise [ValueError],
    whichever slice it is. *)
Lemma format_date_int_fails (s : str) :
  int (slice s 0 4) = Raise ValueError \/
  int (slice s 4 6) = Raise ValueError \/
  int (slice_from s 6) = Raise ValueError ->
  _format_date s = Raise ValueError.
Proof.
  intros H. unfold _format_date.
  destruct (int (slice s 0 4)) as [y|e1] eqn:E1;
    [|apply int_raises in E1; now subst].
  destruct (int (slice s 4 6)) as [m|e2] eqn:E2;
    [|apply int_raises in E2; now subst].
  destruct (int (slice_from s 6)) as [d|e3] eqn:E3;
    [|apply int_raises in E3; now subst].
  destruct H as [H|[H|H]]; discriminate H.
Qed.

End Dates.

(** C5, as stated, fails: a string of seven characters is not refused
    for its length; its last digit alone is read as the day. *)
Lemma format_date_short_string :
  List.length (u "2024011") <> 8 /\
  @_format_date sample_runtime (u "2024011")
  = Ok {| year := 2024; month := 1; day := 1;
          hour := 0; minute := 0; second := 0; tz := Some utc_tz |}.
Proof. split; [cbv; discriminate | reflexivity]. Qed.

(** C5 (amended): for a string of eight ASCII digits YYYYMMDD that
    denotes a calendar date, [_format_date] returns the datetime with that
    year, month and day at midnight, with [utc_tz] as its time zone.  It
    raises [ValueError] when one of its three slices (characters 0-3, 4-5,
    6 to the end) has a character that no integer literal has (one that
    is not a digit, a sign, an underscore or whitespace that [int] skips;
    the separators U+001C to U+001F are such characters), and when the
    string has at most six characters; whatever it raises is [ValueError], or [OverflowError] for
    a field too large for the constructor; what it returns always has the
    integers of the three slices as its fields and is a calendar date.  The
    length of the string is not checked as such. *)
Theorem format_date_components {RT : Runtime} (date_text : str) :
  (List.length date_text = 8 ->
   forallb Spec.ascii_digit date_text = true ->
   forall y m d,
     y = Z.of_N (Spec.number (slice date_text 0 4)) ->
     m = Z.of_N (Spec.number (slice date_text 4 6)) ->
     d = Z.of_N (Spec.number (slice_from date_text 6)) ->
     (1 <= y)%Z -> (1 <= m <= 12)%Z -> (1 <= d <= days_in_month y m)%Z ->
     _format_date date_text
     = Ok {| year := y; month := m; day := d;
             hour := 0; minute := 0; second := 0; tz := Some utc_tz |}) /\
  (forall c,
      In c (slice date_text 0 4) \/ In c (slice date_text 4 6)
      \/ In c (slice_from date_text 6) ->
      Spec.int_char c = false ->
      _format_date date_text = Raise ValueError) /\
  (List.length date_text <= 6 -> _format_date date_text = Raise ValueError) /\
  (forall dt,
      _format_date date_text = Ok dt ->
      int (slice date_text 0 4) = Ok (year dt) /\
      int (slice date_text 4 6) = Ok (month dt) /\
      int (slice_from date_text 6) = Ok (day dt) /\
      (1 <= year dt <= 9999 /\ 1 <= month dt <= 12 /\
       1 <= day dt <= days_in_month (year dt) (month dt))%Z /\
      hour dt = 0%Z /\ minute dt = 0%Z /\ second dt = 0%Z /\
      tz dt = Some utc_tz) /\
  (forall e,
      _format_date date_text = Raise e ->
      e = ValueError \/ e = OverflowError).
Proof.
  split; [|split; [|split; [|split]]].
  - intros Hlen Hdig y m d -> -> -> Hy Hm Hd.
    do 8 (destruct date_text as [|? date_text]; [discriminate Hlen|]).
    destruct date_text; [|discriminate Hlen].
    simpl in Hdig. repeat (apply andb_true_iff in Hdig as [? Hdig]).
    unfold _format_date, slice, slice_from in *.
    cbn [skipn firstn Nat.sub].
    rewrite !int_ascii_digits;
      try discriminate; try (cbn [List.length]; lia);
      try (cbn [forallb];
           repeat match goal with
                  | H : Spec.ascii_digit ?x = true
                    |- context [Spec.ascii_digit ?x] => rewrite H
                  end; reflexivity).
    cbn [rbind].
    cbn [skipn firstn Nat.sub] in Hy, Hm, Hd.
    apply mk_datetime_valid; try assumption. split; [assumption|].
    unfold Spec.number. cbn [fold_left].
    repeat match goal with
           | H : Spec.ascii_digit _ = true |- _ =>
               unfold Spec.ascii_digit in H;
               rewrite andb_true_iff, !N.leb_le in H
           end. lia.
  - intros c Hc Hbad. apply format_date_int_fails.
    destruct Hc as [Hc|[Hc|Hc]];
      [left | right; left | right; right];
      apply (int_bad_char _ c Hc Hbad).
  - intros Hlen. apply format_date_int_fails. right; right.
    unfold slice_from. rewrite skipn_all2 by exact Hlen. apply int_empty.
  - apply format_date_Ok.
  - apply format_date_raises.
Qed.

Lemma format_date_components_witness :
  @_format_date sample_runtime (u "20240229")
  = Ok {| year := 2024; month := 2; day := 29;
          hour := 0; minute := 0; second := 0; tz := Some utc_tz |} /\
  @_format_date sample_runtime (u "2024ab01") = Raise ValueError /\
  @_format_date sample_runtime (u "20240101" ++ [28%N]) = Raise ValueError /\
  @_format_date sample_runtime (u "202401") = Raise ValueError.
Proof.
  split; [|split; [|split]].
  - apply (proj1 (@format_date_components sample_runtime (u "20240229"))
             eq_refl eq_refl 2024%Z 2%Z 29%Z eq_refl eq_refl eq_refl).
    + lia.
    + lia.
    + change (days_in_month 2024 2) with 29%Z. lia.
  - apply (proj1 (proj2 (@format_date_components sample_runtime
                           (u "2024ab01"))) 97%N).
    + right; left. vm_compute. auto.
    + reflexivity.
  - apply (proj1 (proj2 (@format_date_components sample_runtime
                           (u "20240101" ++ [28%N]))) 28%N).
    + right; right. vm_compute. auto.
    + reflexivity.
  - apply (proj1 (proj2 (proj2 (@format_date_components sample_runtime
                                  (u "202401"))))).
    vm_compute. lia.
Defined.

(** ** The matcher *)

Section Matcher.
Context {RT : Runtime}.

Lemma match_star_cons (k : Re.cls) (p : Re.regex) (at0 : bool)
      (st : Re.mstate) (c : char) (s : str) :
  Re.match_here (Re.Star k :: p) at0 st (c :: s)
  = if Re.in_cls k c then
      match Re.match_here (Re.Star k :: p) at0 (Re.take c st) s with
      | Some r => Some r
      | None => Re.match_here p at0 st (c :: s)
      end
    else Re.match_here p at0 st (c :: s).
Proof. reflexivity. Qed.

Lemma match_star_nil (k : Re.cls) (p : Re.regex) (at0 : bool)
      (st : Re.mstate) :
  Re.match_here (Re.Star k :: p) at0 st [] = Re.match_here p at0 st [].
Proof. reflexivity. Qed.

Lemma match_plus_cons (k : Re.cls) (p : Re.regex) (at0 : bool)
      (st : Re.mstate) (c : char) (s : str) :
  Re.match_here (Re.Plus k :: p) at0 st (c :: s)
  = if Re.in_cls k c
    then Re.match_here (Re.Star k :: p) at0 (Re.take c st) s
    else None.
Proof. reflexivity. Qed.

(** The state after taking the characters of [body] one by one. *)
Lemma takes_fields (body : str) (st : Re.mstate) :
  let st' := Re.takes body st in
  Re.taken st' = rev body ++ Re.taken st /\
  Re.opened st' = Re.opened st /\
  Re.closed st' = Re.closed st.
Proof.
  revert st; induction body as [|c body IH]; intros st; simpl.
  - auto.
  - destruct (IH (Re.take c st)) as (H1 & H2 & H3).
    rewrite H1, H2, H3. simpl. rewrite <- app_assoc. auto.
Qed.

(** A pattern that starts with the anchor matches nowhere but at index 0. *)
Lemma sub_from_anchored (p : Re.regex) (repl : Re.mstate -> str)
      (skip : nat) (s : str) :
  Re.sub_from (Re.Bol :: p) repl false skip s = skipn skip s.
Proof.
  revert skip; induction s as [|c s IH]; intros skip.
  - now destruct skip.
  - destruct skip as [|k]; simpl.
    + f_equal. apply (IH 0).
    + apply IH.
Qed.

(** The greedy group of [quoted] runs to the last quote. *)
Lemma quoted_star (body : str) (st : Re.mstate) :
  ~ In 10%N body ->
  Re.match_here [Re.Star Re.Dot; Re.Close 1; Re.One (Re.Lit dquote); Re.Eol]
                true st (body ++ [dquote])
  = Some (Re.take dquote
            (Re.close_group 1
               (Re.takes body st)), []).
Proof.
  revert st; induction body as [|b body IH]; intros st Hnl.
  - reflexivity.
  - cbn [app]. rewrite match_star_cons.
    assert (Re.in_cls Re.Dot b = true) as ->.
    { simpl. apply negb_true_iff, N.eqb_neq. intros ->. apply Hnl. now left. }
    rewrite IH; [reflexivity|]. intros H. apply Hnl. now right.
Qed.

Lemma sub_quoted_body (body : str) :
  ~ In 10%N body ->
  Re.sub quoted (Re.group 1) (dquote :: body ++ [dquote]) = body.
Proof.
  intros Hnl. unfold Re.sub, quoted.
  cbn [Re.sub_from].
  assert (Re.match_here
            [Re.Bol; Re.One (Re.Lit dquote); Re.Open 1; Re.Star Re.Dot;
             Re.Close 1; Re.One (Re.Lit dquote); Re.Eol]
            true Re.mstart (dquote :: body ++ [dquote])
          = Re.match_here
              [Re.Star Re.Dot; Re.Close 1; Re.One (Re.Lit dquote); Re.Eol]
              true (Re.open_group 1 (Re.take dquote Re.mstart))
              (body ++ [dquote])) as -> by reflexivity.
  rewrite (quoted_star body _ Hnl).
  set (st0 := Re.open_group 1 (Re.take dquote Re.mstart)).
  destruct (takes_fields body st0) as (H1 & H2 & H3).
  set (st1 := Re.takes body st0) in *.
  assert (Re.close_group 1 st1
          = {| Re.taken := Re.taken st1; Re.opened := Re.opened st1;
               Re.closed := (1, body) :: Re.closed st1 |}) as E.
  { unfold Re.close_group. rewrite H2. simpl.
    rewrite H1. simpl. rewrite rev_app_distr, rev_involutive. reflexivity. }
  rewrite E. cbn [Re.take Re.taken Re.group Re.closed Re.assoc Nat.eqb].
  rewrite H1. simpl Re.taken.
  replace (List.length (dquote :: rev body ++ [dquote]))
    with (S (List.length (body ++ [dquote])))
    by (simpl; now rewrite !length_app, length_rev).
  rewrite sub_from_anchored, skipn_all. apply app_nil_r.
Qed.

Lemma sub_quoted_other (c : char) (rest : str) :
  c <> dquote -> Re.sub quoted (Re.group 1) (c :: rest) = c :: rest.
Proof.
  intros Hc. unfold Re.sub, quoted. cbn [Re.sub_from].
  assert (Re.match_here
            [Re.Bol; Re.One (Re.Lit dquote); Re.Open 1; Re.Star Re.Dot;
             Re.Close 1; Re.One (Re.Lit dquote); Re.Eol]
            true Re.mstart (c :: rest) = None) as ->.
  { cbn. apply N.eqb_neq in Hc. now rewrite Hc. }
  f_equal. apply sub_from_anchored.
Qed.

End Matcher.




(** ** Greedy repetition *)

Section Greedy.
Context {RT : Runtime}.

Lemma takes_cons (c : char) (a : str) (st : Re.mstate) :
  Re.takes (c :: a) st = Re.takes a (Re.take c st).
Proof. reflexivity. Qed.

Lemma takes_app (a b : str) (st : Re.mstate) :
  Re.takes (a ++ b) st = Re.takes b (Re.takes a st).
Proof. unfold Re.takes. apply fold_left_app. Qed.

(** If the rest of the pattern matches after some run of characters of
    the class, the repetition matches. *)
Lemma star_complete (k : Re.cls) (p : Re.regex) (at0 : bool) :
  forall (b : str) (st : Re.mstate) (t : str),
    forallb (Re.in_cls k) b = true ->
    Re.match_here p at0 (Re.takes b st) t <> None ->
    Re.match_here (Re.Star k :: p) at0 st (b ++ t) <> None.
Proof.
  induction b as [|x b IH]; intros st t Hb Hp.
  - cbn [app]. destruct t as [|y t].
    + rewrite match_star_nil. exact Hp.
    + rewrite match_star_cons. destruct (Re.in_cls k y); [|exact Hp].
      destruct (Re.match_here (Re.Star k :: p) at0 (Re.take y st) t);
        [discriminate | exact Hp].
  - cbn [forallb] in Hb. apply andb_true_iff in Hb as [Hx Hb].
    cbn [app]. rewrite match_star_cons, Hx.
    specialize (IH (Re.take x st) t Hb Hp).
    destruct (Re.match_here (Re.Star k :: p) at0 (Re.take x st) (b ++ t));
      [discriminate | congruence].
Qed.

(** What a match of a repetition is made of: a run [a] of characters of
    the class, then a match of the rest of the pattern; and the rest of
    the pattern matches after no longer run. *)
Lemma star_sound (k : Re.cls) (p : Re.regex) (at0 : bool) :
  forall (s : str) (st : Re.mstate) (r : Re.mstate * str),
    Re.match_here (Re.Star k :: p) at0 st s = Some r ->
    exists a t,
      s = a ++ t /\
      forallb (Re.in_cls k) a = true /\
      Re.match_here p at0 (Re.takes a st) t = Some r /\
      forall b t',
        b <> [] -> t = b ++ t' -> forallb (Re.in_cls k) b = true ->
        Re.match_here p at0 (Re.takes (a ++ b) st) t' = None.
Proof.
  induction s as [|c s IH]; intros st r H.
  - rewrite match_star_nil in H. exists [], [].
    repeat split; [exact H|]. intros b t' Hb E. destruct b; [congruence|].
    discriminate E.
  - rewrite match_star_cons in H. destruct (Re.in_cls k c) eqn:Ec.
    + destruct (Re.match_here (Re.Star k :: p) at0 (Re.take c st) s)
        as [r'|] eqn:Inner.
      * inversion H; subst r'.
        destruct (IH _ _ Inner) as (a & t & Hs & Ha & Hm & Hmax).
        exists (c :: a), t. repeat split.
        -- now rewrite Hs.
        -- cbn [forallb]. now rewrite Ec, Ha.
        -- exact Hm.
        -- intros b t' Hb E Hall. apply (Hmax b t' Hb E Hall).
      * exists [], (c :: s). repeat split; [exact H|].
        intros b t' Hb E Hall. destruct b as [|x b]; [congruence|].
        cbn [app] in E. inversion E; subst x s.
        cbn [app]. rewrite takes_cons.
        destruct (Re.match_here p at0 (Re.takes b (Re.take c st)) t')
          eqn:G; [|reflexivity].
        exfalso. cbn [forallb] in Hall.
        apply andb_true_iff in Hall as [_ Hall].
        apply (star_complete k p at0 b (Re.take c st) t' Hall);
          [rewrite G; discriminate | exact Inner].
    + exists [], (c :: s). repeat split; [exact H|].
      intros b t' Hb E Hall. destruct b as [|x b]; [congruence|].
      cbn [app] in E. inversion E; subst x. cbn [forallb] in Hall.
      rewrite Ec in Hall. discriminate.
Qed.

(** Whether a pattern without [^] matches does not depend on what was
    matched before it. *)
Lemma star_fail_any (k : Re.cls) (p : Re.regex) (at0 at0' : bool) :
  (forall s st st', Re.match_here p at0 st s = None ->
                    Re.match_here p at0' st' s = None) ->
  forall s st st', Re.match_here (Re.Star k :: p) at0 st s = None ->
                   Re.match_here (Re.Star k :: p) at0' st' s = None.
Proof.
  intros IHp. induction s as [|c s IH]; intros st st'.
  - rewrite !match_star_nil. apply IHp.
  - rewrite !match_star_cons. destruct (Re.in_cls k c); [|apply IHp].
    destruct (Re.match_here (Re.Star k :: p) at0 (Re.take c st) s) eqn:G;
      [discriminate|].
    intros H. rewrite (IH _ (Re.take c st') G). now apply IHp with st.
Qed.

Lemma fail_any (p : Re.regex) (at0 at0' : bool) :
  Re.no_bol p = true ->
  forall s st st', Re.match_here p at0 st s = None ->
                   Re.match_here p at0' st' s = None.
Proof.
  induction p as [|t p IH]; intros Hnb.
  - intros s st st' H. discriminate H.
  - cbn [Re.no_bol forallb] in Hnb. apply andb_true_iff in Hnb as [Ht Hnb].
    specialize (IH Hnb). destruct t as [| |g|g|k|k|k].
    + discriminate Ht.
    + intros s st st'. cbn [Re.match_here].
      destruct (Re.at_end s); [apply IH | reflexivity].
    + intros s st st'. cbn [Re.match_here]. apply IH.
    + intros s st st'. cbn [Re.match_here]. apply IH.
    + intros [|c s] st st'; cbn [Re.match_here]; [reflexivity|].
      destruct (Re.in_cls k c); [apply IH | reflexivity].
    + now apply star_fail_any.
    + intros [|c s] st st'; [reflexivity|].
      rewrite !match_plus_cons.
      destruct (Re.in_cls k c); [|reflexivity].
      now apply star_fail_any.
Qed.

End Greedy.

(** ** The series patterns *)

Section Series.
Context {RT : Runtime}.

Lemma match_close (g : nat) (p : Re.regex) (at0 : bool)
      (st : Re.mstate) (s : str) :
  Re.match_here (Re.Close g :: p) at0 st s
  = Re.match_here p at0 (Re.close_group g st) s.
Proof. reflexivity. Qed.

Lemma match_open (g : nat) (p : Re.regex) (at0 : bool)
      (st : Re.mstate) (s : str) :
  Re.match_here (Re.Open g :: p) at0 st s
  = Re.match_here p at0 (Re.open_group g st) s.
Proof. reflexivity. Qed.

Lemma match_one (k : Re.cls) (p : Re.regex) (at0 : bool)
      (st : Re.mstate) (s : str) :
  Re.match_here (Re.One k :: p) at0 st s
  = match s with
    | c :: s' =>
        if Re.in_cls k c then Re.match_here p at0 (Re.take c st) s'
        else None
    | [] => None
    end.
Proof. reflexivity. Qed.

Lemma match_nil (at0 : bool) (st : Re.mstate) (s : str) :
  Re.match_here [] at0 st s = Some (st, s).
Proof. reflexivity. Qed.

Lemma close_group_open (g from : nat) (st : Re.mstate) :
  Re.assoc g (Re.opened st) = Some from ->
  Re.close_group g st
  = {| Re.taken := Re.taken st; Re.opened := Re.opened st;
       Re.closed := (g, skipn from (rev (Re.taken st))) :: Re.closed st |}.
Proof. intros H. unfold Re.close_group. now rewrite H. Qed.

(** What a match of the part after the first group is made of. *)
Lemma tail_shape (mk : char) (at0 : bool) (st : Re.mstate) (s : str)
      (m : Re.mstate) (rest : str) :
  Re.match_here (series_tail mk) at0 st s = Some (m, rest) ->
  exists sp c dg,
    s = sp ++ c :: dg ++ mk :: rest /\
    isdigit c = true /\
    forallb isdigit dg = true /\
    Re.group 2 m = c :: dg /\
    forall from,
      Re.assoc 1 (Re.opened st) = Some from ->
      Re.group 1 m = skipn from (rev (Re.taken st)).
Proof.
  unfold series_tail. rewrite match_close. intros H.
  apply star_sound in H as (sp & t & Hs & _ & H & _).
  set (st1 := Re.takes sp (Re.close_group 1 st)) in *.
  rewrite match_open in H.
  destruct t as [|c t]; [discriminate H|].
  rewrite match_plus_cons in H.
  destruct (Re.in_cls Re.Digit c) eqn:Hc; [|discriminate H].
  apply star_sound in H as (dg & t' & Ht & Hdg & H & _).
  set (st3 := Re.takes dg (Re.take c (Re.open_group 2 st1))) in *.
  rewrite match_close, match_one in H.
  destruct t' as [|x rest']; [discriminate H|].
  destruct (Re.in_cls (Re.Lit mk) x) eqn:Hx; [|discriminate H].
  rewrite match_nil in H. inversion H; subst m rest'. clear H.
  cbn [Re.in_cls] in Hx. apply N.eqb_eq in Hx. subst x.
  exists sp, c, dg. split; [now rewrite Hs, Ht|].
  split; [exact Hc|]. split; [exact Hdg|].
  destruct (takes_fields dg (Re.take c (Re.open_group 2 st1)))
    as (T3 & O3 & C3).
  destruct (takes_fields sp (Re.close_group 1 st)) as (T1 & O1 & C1).
  fold st3 in T3, O3, C3. fold st1 in T1, O1, C1.
  cbn [Re.take Re.open_group Re.taken Re.opened Re.closed] in T3, O3, C3.
  assert (Re.close_group 2 st3
          = {| Re.taken := Re.taken st3; Re.opened := Re.opened st3;
               Re.closed := (2, c :: dg) :: Re.closed st3 |}) as E.
  { rewrite (close_group_open 2 (List.length (Re.taken st1)) st3).
    - rewrite T3. f_equal. f_equal. f_equal.
      rewrite rev_app_distr. cbn [rev]. rewrite rev_involutive.
      rewrite <- !app_assoc. cbn [app].
      rewrite skipn_app, length_rev, Nat.sub_diag, skipn_all2
        by (rewrite length_rev; lia).
      reflexivity.
    - rewrite O3. cbn [Re.assoc Nat.eqb]. reflexivity. }
  rewrite E. split; [reflexivity|].
  intros from Hfrom.
  cbn [Re.group Re.take Re.closed Re.assoc Nat.eqb].
  rewrite C3, C1, (close_group_open 1 from st Hfrom). reflexivity.
Qed.

(** The part after the first group matches in front of a digit that is
    followed by the marker. *)
Lemma tail_last_digit (mk : char) (at0 : bool) (st : Re.mstate)
      (c : char) (rest : str) :
  isdigit c = true ->
  Re.match_here (series_tail mk) at0 st (c :: mk :: rest) <> None.
Proof.
  intros Hc. unfold series_tail. rewrite match_close.
  apply (star_complete Re.Space _ at0 [] _ (c :: mk :: rest) eq_refl).
  rewrite match_open, match_plus_cons. cbn [Re.in_cls]. rewrite Hc.
  apply (star_complete Re.Digit _ at0 [] _ (mk :: rest) eq_refl).
  rewrite match_close, match_one. cbn [Re.in_cls].
  rewrite N.eqb_refl, match_nil. discriminate.
Qed.

Lemma forallb_dot (s : str) :
  ~ In 10%N s -> forallb (Re.in_cls Re.Dot) s = true.
Proof.
  intros H. apply forallb_forall. intros x Hx. cbn.
  apply negb_true_iff, N.eqb_neq. intros ->. contradiction.
Qed.

(** In a title without newline the greedy first group leaves one digit
    to the second group and no whitespace between the two. *)
Lemma greedy_leaves_one_digit (mk : char) (at0 : bool) (st : Re.mstate)
      (s : str) (m : Re.mstate) (rest : str) :
  ~ In 10%N s ->
  Re.match_here (Re.Star Re.Dot :: series_tail mk) at0 st s = Some (m, rest) ->
  exists a c,
    s = a ++ c :: mk :: rest /\
    isdigit c = true /\
    Re.group 2 m = [c] /\
    forall from,
      Re.assoc 1 (Re.opened st) = Some from ->
      Re.group 1 m = skipn from (rev (Re.taken st) ++ a).
Proof.
  intros Hnl H.
  apply star_sound in H as (a & t & Hs & _ & H & Hmax).
  apply tail_shape in H as (sp & c & dg & Ht & Hc & Hdg & G2 & G1).
  assert (sp ++ c :: dg <> []) as Hne by (destruct sp; discriminate).
  destruct (exists_last Hne) as (b & c' & Hb).
  assert (isdigit c' = true) as Hc'.
  { destruct dg as [|d dg] using rev_ind.
    - apply app_inj_tail in Hb as [_ <-]. exact Hc.
    - clear IHdg. rewrite app_comm_cons, app_assoc in Hb.
      apply app_inj_tail in Hb as [_ <-].
      rewrite forallb_app in Hdg. cbn in Hdg.
      apply andb_true_iff in Hdg as [_ Hdg].
      now rewrite andb_true_r in Hdg. }
  assert (t = b ++ c' :: mk :: rest) as Ht'.
  { rewrite Ht. change (c :: dg ++ mk :: rest)
      with ((c :: dg) ++ mk :: rest).
    rewrite app_assoc, Hb, <- app_assoc. reflexivity. }
  destruct b as [|x b].
  - cbn [app] in Hb.
    destruct sp as [|y sp]; [|destruct sp; discriminate Hb].
    cbn [app] in Hb. inversion Hb; subst c' dg.
    exists a, c. split; [now rewrite Hs, Ht|]. split; [exact Hc|].
    split; [exact G2|]. intros from Hfrom. rewrite (G1 from).
    + destruct (takes_fields a st) as (T & _ & _). rewrite T.
      now rewrite rev_app_distr, rev_involutive.
    + destruct (takes_fields a st) as (_ & O & _). now rewrite O.
  - exfalso.
    apply (tail_last_digit mk at0 (Re.takes (a ++ x :: b) st) c' rest Hc').
    apply (Hmax (x :: b) (c' :: mk :: rest)); [discriminate | exact Ht' |].
    apply forallb_dot. intros Hin. apply Hnl. rewrite Hs, Ht'.
    apply in_or_app. right. apply in_or_app. now left.
Qed.

Lemma series_pattern_head (mk : char) (at0 : bool) (s : str) :
  Re.match_here (series_pattern mk) at0 Re.mstart s
  = Re.match_here (Re.Star Re.Dot :: series_tail mk) at0
                  (Re.open_group 1 Re.mstart) s.
Proof. reflexivity. Qed.

(** In a title without newline, a match that exists anywhere exists at
    index 0. *)
Lemma series_pattern_fail_later (mk : char) (at0 at0' : bool)
      (x : char) (s : str) :
  x <> 10%N ->
  Re.match_here (series_pattern mk) at0 Re.mstart (x :: s) = None ->
  Re.match_here (series_pattern mk) at0' Re.mstart s = None.
Proof.
  intros Hx H.
  destruct (Re.match_here (series_pattern mk) at0' Re.mstart s)
    as [r|] eqn:G; [|reflexivity].
  exfalso. rewrite series_pattern_head in *.
  apply star_sound in G as (a & t & Hs & Ha & G & _).
  assert (Re.match_here (Re.Star Re.Dot :: series_tail mk) at0
            (Re.open_group 1 Re.mstart) ((x :: a) ++ t) <> None) as C.
  { apply star_complete.
    - cbn [forallb]. rewrite Ha. cbn.
      apply N.eqb_neq in Hx. now rewrite Hx.
    - intros F.
      apply (fail_any (series_tail mk) at0 at0' eq_refl t _
               (Re.takes a (Re.open_group 1 Re.mstart))) in F.
      congruence. }
  apply C. cbn [app]. now rewrite <- Hs.
Qed.

Lemma search_at_head (mk : char) (s : str) (at0 : bool) :
  ~ In 10%N s ->
  Re.match_here (series_pattern mk) at0 Re.mstart s = None ->
  Re.search_from (series_pattern mk) at0 s = None.
Proof.
  revert at0; induction s as [|x s IH]; intros at0 Hnl H.
  - cbn [Re.search_from]. now rewrite H.
  - cbn [Re.search_from]. rewrite H. apply IH.
    + intros Hin. apply Hnl. now right.
    + apply (series_pattern_fail_later mk at0 false x s); [|exact H].
      intros ->. apply Hnl. now left.
Qed.

(** What [re.search] finds in a title without newline. *)
Lemma search_series (mk : char) (title : str) (m : Re.mstate) :
  ~ In 10%N title ->
  Re.search (series_pattern mk) title = Some m ->
  exists c rest,
    title = Re.group 1 m ++ c :: mk :: rest /\
    isdigit c = true /\
    Re.group 2 m = [c].
Proof.
  intros Hnl H. unfold Re.search in H.
  destruct (Re.match_here (series_pattern mk) true Re.mstart title)
    as [[m' rest]|] eqn:G.
  - assert (m' = m) as ->.
    { destruct title; cbn [Re.search_from] in H; rewrite G in H;
        now inversion H. }
    rewrite series_pattern_head in G.
    apply greedy_leaves_one_digit in G as (a & c & Hs & Hc & G2 & G1);
      [|exact Hnl].
    exists c, rest. rewrite (G1 0 eq_refl). cbn [skipn]. auto.
  - rewrite (search_at_head mk title true Hnl G) in H. discriminate.
Qed.

Lemma search_from_match (p : Re.regex) (s : str) (at0 : bool)
      (m : Re.mstate) :
  Re.search_from p at0 s = Some m ->
  exists at0' s' rest, Re.match_here p at0' Re.mstart s' = Some (m, rest).
Proof.
  revert at0; induction s as [|x s IH]; intros at0; cbn [Re.search_from].
  - destruct (Re.match_here p at0 Re.mstart []) as [[m' rest]|] eqn:G;
      [|discriminate].
    intros H; inversion H; subst. now exists at0, [], rest.
  - destruct (Re.match_here p at0 Re.mstart (x :: s)) as [[m' rest]|] eqn:G.
    + intros H; inversion H; subst. now exists at0, (x :: s), rest.
    + apply IH.
Qed.

Lemma plain_digits_total (s : str) (acc : N) :
  forallb isdigit s = true -> exists n, plain_digits acc s = Some n.
Proof.
  revert acc; induction s as [|c s IH]; intros acc H; cbn [plain_digits].
  - now exists acc.
  - cbn [forallb] in H. apply andb_true_iff in H as [Hc Hs].
    unfold isdigit in Hc. destruct (decimal c) as [d|]; [|discriminate Hc].
    now apply IH.
Qed.

(** The second group of a match is a non-empty run of digits, which
    [float] reads. *)
Lemma float_of_group (mk : char) (title : str) (m : Re.mstate) :
  Re.search (series_pattern mk) title = Some m ->
  exists index, float (Re.group 2 m) = Ok index.
Proof.
  intros H. apply search_from_match in H as (at0 & s & rest & H).
  rewrite series_pattern_head in H.
  apply star_sound in H as (a & t & _ & _ & H & _).
  apply tail_shape in H as (sp & c & dg & _ & Hc & Hdg & G2 & _).
  rewrite G2. unfold float.
  destruct (plain_digits_total (c :: dg) 0) as [n Hn].
  - cbn [forallb]. now rewrite Hc, Hdg.
  - rewrite Hn. now exists (round_binary64 n).
Qed.

End Series.

(** C1 (code defect): the first group of the series patterns is greedy.
    For a title without newline the series, when one is found, is read as
    follows: the index is the single digit that stands before the marker,
    and the name is the whole title before that digit, with its trailing
    whitespace and with any further digits of the number.  So "Action
    Tales 12화" gives the name "Action Tales 1" with index 2.0 where the
    specification has "Action Tales" and 12.0, and "Mystery Series 3권"
    gives the name "Mystery Series " (with the space) and 3.0.  No title
    makes the detection raise: a title with neither pattern gives no
    series. *)
Theorem title_series_last_digit_only :
  (forall (RT : Runtime) (title : str),
      ~ In 10%N title ->
      title_series (Some title) = Ok None \/
      exists name c d rest mk,
        title = name ++ c :: mk :: rest /\
        mk = (if endswith title [volume] then volume else episode) /\
        decimal c = Some d /\
        title_series (Some title) = Ok (Some (name, round_binary64 d))) /\
  (forall (RT : Runtime) (title : str),
      exists series, title_series (Some title) = Ok series) /\
  @title_series sample_runtime (Some (u "Action Tales 12화"))
  = Ok (Some (u "Action Tales 1", FInt 2)) /\
  @title_series sample_runtime (Some (u "Mystery Series 3권"))
  = Ok (Some (u "Mystery Series ", FInt 3)) /\
  @title_series sample_runtime (Some (u "Plain title")) = Ok None.
Proof.
  split; [|split; [|repeat split]].
  2:{ intros RT title. unfold title_series.
      set (mk := if endswith title [volume] then volume else episode).
      assert ((if endswith title [volume]
               then Re.search (series_pattern volume) title
               else Re.search (series_pattern episode) title)
              = Re.search (series_pattern mk) title) as ->
        by (unfold mk; now destruct (endswith title [volume])).
      destruct (Re.search (series_pattern mk) title) as [m|] eqn:S;
        [|now exists None].
      destruct (float_of_group mk title m S) as [index ->].
      now eexists. }
  intros RT title Hnl. unfold title_series.
  set (mk := if endswith title [volume] then volume else episode).
  assert ((if endswith title [volume]
           then Re.search (series_pattern volume) title
           else Re.search (series_pattern episode) title)
          = Re.search (series_pattern mk) title) as ->
    by (unfold mk; now destruct (endswith title [volume])).
  destruct (Re.search (series_pattern mk) title) as [m|] eqn:S;
    [right | now left].
  apply search_series in S as (c & rest & Ht & Hc & G2); [|exact Hnl].
  unfold isdigit in Hc. destruct (decimal c) as [d|] eqn:Hd;
    [|discriminate Hc].
  exists (Re.group 1 m), c, d, rest, mk.
  split; [exact Ht|]. split; [reflexivity|]. split; [exact Hd|].
  rewrite G2. unfold float. cbn [plain_digits]. rewrite Hd.
  reflexivity.
Qed.

Lemma title_series_last_digit_only_witness :
  exists name c d rest mk,
    u "Dungeon 10권" = name ++ c :: mk :: rest /\
    @decimal sample_runtime c = Some d /\
    @title_series sample_runtime (Some (u "Dungeon 10권"))
    = Ok (Some (name, round_binary64 d)).
Proof.
  destruct (proj1 title_series_last_digit_only sample_runtime
              (u "Dungeon 10권")) as [H | (name & c & d & rest & mk & H)].
  - vm_compute. intuition discriminate.
  - discriminate H.
  - exists name, c, d, rest, mk. tauto.
Defined.

(** ** The pipeline *)

Section Pipeline.
Context {RT : Runtime}.

Lemma bind_pair_ok {A B} (tr : list event) (a : A) (k : A -> M B) :
  bind (tr, Ok a) k = (tr ++ fst (k a), snd (k a)).
Proof. unfold bind. now destruct (k a). Qed.

Lemma bind_pair_raise {A B} (tr : list event) (e : exn) (k : A -> M B) :
  @bind A B (tr, Raise e) k = (tr, Raise e).
Proof. reflexivity. Qed.

Lemma bind_ret {A B} (a : A) (k : A -> M B) : bind (ret a) k = k a.
Proof. unfold bind, ret. now destruct (k a). Qed.

Lemma bind_lift_ok {A B} (a : A) (k : A -> M B) :
  bind (lift (Ok a)) k = k a.
Proof. apply bind_ret. Qed.

Lemma bind_lift_raise {A B} (e : exn) (k : A -> M B) :
  bind (lift (Raise e)) k = ([], Raise e).
Proof. reflexivity. Qed.

Lemma bind_emit {B} (ev : event) (k : unit -> M B) :
  bind (emit ev) k = (ev :: fst (k tt), snd (k tt)).
Proof. unfold bind, emit. now destruct (k tt). Qed.

Lemma cache_notifications_told (id : str) (isbn cover : option str) :
  cache_notifications id isbn cover
  = (Spec.isbn_notice id isbn ++ Spec.cover_notice id cover, Ok tt).
Proof.
  unfold cache_notifications, Spec.isbn_notice, Spec.cover_notice.
  destruct id as [|x id]; [reflexivity|].
  destruct isbn as [[|c i]|]; destruct cover as [[|d v]|]; reflexivity.
Qed.

(** [parse_tags] logs one line and tells the outside nothing else. *)
Lemma parse_tags_trace (w : Worker) (root : document) :
  fst (parse_tags w root) = [Spec.parsing_tags].
Proof.
  unfold parse_tags. rewrite bind_emit. cbn [fst]. f_equal.
  destruct (book_block root) as [book_info|e];
    [rewrite bind_lift_ok | reflexivity].
  destruct (keyword_tags book_info) as [all_tags|e];
    [rewrite bind_lift_ok | reflexivity].
  match goal with
  | |- context [bind (lift ?r) _] => destruct r
  end; [rewrite bind_lift_ok | reflexivity].
  reflexivity.
Qed.

Lemma parse_tags_pair (w : Worker) (root : document) :
  parse_tags w root = ([Spec.parsing_tags], snd (parse_tags w root)).
Proof.
  rewrite <- (parse_tags_trace w root). now destruct (parse_tags w root).
Qed.

(** [load_details], stage by stage: what it has told the outside and how
    it ends. *)
Lemma load_details_anatomy (w : Worker) :
  match page w with
  | None =>
      load_details w
      = ([log_exception (page_error w)], Raise UnboundLocalError)
  | Some root =>
      match extract_fields w root with
      | Raise e => load_details w = ([], Raise e)
      | Ok f =>
          match snd (parse_tags w root) with
          | Raise e =>
              load_details w
              = (Spec.notices f ++ [Spec.parsing_tags], Raise e)
          | Ok tags =>
              match title_series (Fields.title f) with
              | Raise e =>
                  load_details w
                  = (Spec.notices f ++ [Spec.parsing_tags], Raise e)
              | Ok series =>
                  let mi := assemble w f tags series in
                  match clean w mi with
                  | Raise e =>
                      load_details w
                      = (Spec.notices f
                         ++ [Spec.parsing_tags; clean_downloaded_metadata mi],
                         Raise e)
                  | Ok mi' =>
                      load_details w
                      = (Spec.notices f
                         ++ [Spec.parsing_tags; clean_downloaded_metadata mi;
                             result_queue_put mi'],
                         Ok tt)
                  end
              end
          end
      end
  end.
Proof.
  unfold load_details, _get_book_page.
  destruct (page w) as [root|]; [|reflexivity].
  rewrite bind_ret.
  destruct (extract_fields w root) as [f|e]; [|reflexivity].
  rewrite bind_lift_ok.
  rewrite cache_notifications_told, bind_pair_ok. fold (Spec.notices f).
  pose proof (parse_tags_pair w root) as Hp.
  destruct (snd (parse_tags w root)) as [tags|e]; rewrite Hp;
    [|reflexivity].
  rewrite bind_pair_ok.
  destruct (title_series (Fields.title f)) as [series|e]; [|reflexivity].
  rewrite bind_lift_ok. cbv zeta. rewrite bind_emit.
  destruct (clean w (assemble w f tags series)) as [mi'|e]; reflexivity.
Qed.

End Pipeline.

Section Outcome.
Context {RT : Runtime}.

Lemma notices_no_put (f : Fields.t) (ev : event) :
  In ev (Spec.notices f) -> Spec.is_put ev = false.
Proof.
  unfold Spec.notices, Spec.isbn_notice, Spec.cover_notice.
  destruct (Fields.ridibooks_id f) as [|x id]; [intros []|].
  destruct (Fields.isbn f) as [[|c i]|];
    destruct (Fields.cover_url f) as [[|d v]|]; simpl;
    intuition (subst; reflexivity).
Qed.

Lemma no_put_forallb (tr : list event) :
  (forall ev, In ev tr -> Spec.is_put ev = false) ->
  forallb (fun ev => negb (Spec.is_put ev)) tr = true.
Proof.
  intros H. apply forallb_forall. intros ev Hev. now rewrite (H ev Hev).
Qed.

(** Either [load_details] raises, having put nothing on the queue, or
    every stage succeeded and the last thing it did was to put the
    record that the hook returned. *)
Lemma load_details_outcome (w : Worker) :
  (exists tr e,
      load_details w = (tr, Raise e) /\
      forall ev, In ev tr -> Spec.is_put ev = false) \/
  (exists root f tags series mi,
      page w = Some root /\
      extract_fields w root = Ok f /\
      snd (parse_tags w root) = Ok tags /\
      title_series (Fields.title f) = Ok series /\
      clean w (assemble w f tags series) = Ok mi /\
      load_details w
      = ((Spec.notices f
          ++ [Spec.parsing_tags;
              clean_downloaded_metadata (assemble w f tags series)])
         ++ [result_queue_put mi], Ok tt)).
Proof.
  pose proof (load_details_anatomy w) as A.
  destruct (page w) as [root|] eqn:P.
  2:{ left. eexists _, _. split; [exact A|].
      intros ev [<-|[]]. reflexivity. }
  destruct (extract_fields w root) as [f|e] eqn:F.
  2:{ left. eexists _, _. split; [exact A|]. intros ev []. }
  destruct (snd (parse_tags w root)) as [tags|e] eqn:T.
  2:{ left. eexists _, _. split; [exact A|]. intros ev Hev.
      apply in_app_or in Hev as [Hev|[<-|[]]];
        [now apply (notices_no_put f) | reflexivity]. }
  destruct (title_series (Fields.title f)) as [series|e] eqn:S.
  2:{ left. eexists _, _. split; [exact A|]. intros ev Hev.
      apply in_app_or in Hev as [Hev|[<-|[]]];
        [now apply (notices_no_put f) | reflexivity]. }
  cbv zeta in A.
  destruct (clean w (assemble w f tags series)) as [mi|e] eqn:C.
  - right. exists root, f, tags, series, mi.
    repeat split; try assumption. rewrite A. f_equal.
    now rewrite <- app_assoc.
  - left. eexists _, _. split; [exact A|]. intros ev Hev.
    apply in_app_or in Hev as [Hev|[<-|[<-|[]]]];
      [now apply (notices_no_put f) | reflexivity | reflexivity].
Qed.

Lemma book_block_missing (root : document) :
  filter is_book (head_ld_json root) = [] ->
  book_block root = Raise IndexError.
Proof. intros H. unfold book_block. now rewrite H. Qed.

Lemma format_list_nonempty (s : str) : _format_list s <> [].
Proof.
  unfold _format_list. rewrite (split_unfold _ (u ",")) by (cbv; discriminate).
  destruct (partition (u ",") (_format_item s)) as [[a b]|]; discriminate.
Qed.

(** Every field of the record that [load_details] assembles has the value
    that its own statement computed from the page, the URL or the
    worker. *)
Lemma assemble_populated (w : Worker) (root : document) (f : Fields.t)
      (tags : option (list str)) (series : option (str * pyfloat)) :
  extract_fields w root = Ok f ->
  snd (parse_tags w root) = Ok tags ->
  title_series (Fields.title f) = Ok series ->
  forall record, record = assemble w f tags series ->
    exists book_info,
      book_block root = Ok book_info /\
      (exists title,
          _find_meta (meta_nodes root) (u "og:title") = Ok (Some title) /\
          Metadata.title record = Some title /\
          exists series,
            title_series (Some title) = Ok series /\
            Metadata.series record = option_map fst series /\
            Metadata.series_index record = option_map snd series) /\
      (exists author,
          name_of book_info (u "author") = Ok author /\
          ((json_in (u "translator") book_info = Ok true /\
            exists translator,
              name_of book_info (u "translator") = Ok translator /\
              Metadata.authors record
              = _format_list author
                ++ map (fun a => a ++ translator_mark)
                       (_format_list translator))
           \/
           (json_in (u "translator") book_info = Ok false /\
            Metadata.authors record = _format_list author))) /\
      Metadata.authors record <> [] /\
      (exists id,
          url_identifier (url w) = Ok id /\
          Metadata.identifier record = (u "ridibooks", id)) /\
      _find_meta (meta_nodes root) (u "og:image")
      = Ok (Metadata.cover_url record) /\
      Metadata.has_cover record = truthy (Metadata.cover_url record) /\
      (exists name,
          name_of book_info (u "publisher") = Ok name /\
          Metadata.publisher record = _format_item name) /\
      (exists date_text,
          getitem book_info (u "datePublished") = Ok (JStr date_text) /\
          _format_date date_text = Ok (Metadata.pubdate record)) /\
      (exists description,
          getitem book_info (u "description") = Ok (JStr description) /\
          Metadata.comments record = _format_item description) /\
      (exists value,
          _find_meta (meta_nodes root) (u "books:rating:normalized_value")
          = Ok (Some value) /\
          float value = Ok (Metadata.rating record)) /\
      snd (parse_tags w root) = Ok (Metadata.tags record) /\
      Metadata.language record = u "Korean" /\
      Metadata.source_relevance record = relevance w.
Proof.
  unfold extract_fields. intros H T S record ->.
  destruct (book_block root) as [book_info|]; [|discriminate H].
  cbn [rbind] in H.
  destruct (url_identifier (url w)) as [id|]; [|discriminate H].
  cbn [rbind] in H.
  destruct (_find_meta (meta_nodes root) (u "books:isbn")) as [isbn|];
    [|discriminate H].
  cbn [rbind] in H.
  destruct (_find_meta (meta_nodes root) (u "og:image")) as [cover|];
    [|discriminate H].
  cbn [rbind] in H.
  destruct (_find_meta (meta_nodes root) (u "og:title")) as [title|];
    [|discriminate H].
  cbn [rbind] in H.
  destruct (name_of book_info (u "author")) as [author|] eqn:N;
    [|discriminate H].
  cbn [rbind] in H.
  destruct (json_in (u "translator") book_info) as [has|] eqn:J;
    [|discriminate H].
  cbn [rbind] in H.
  assert (exists authors,
             (if has
              then name <-- name_of book_info (u "translator") ;;
                   Ok (_format_list author
                       ++ map (fun a => a ++ translator_mark)
                              (_format_list name))
              else Ok (_format_list author)) = Ok authors /\
             ((Ok has = Ok true /\
               exists translator,
                 name_of book_info (u "translator") = Ok translator /\
                 authors
                 = _format_list author
                   ++ map (fun a => a ++ translator_mark)
                          (_format_list translator))
              \/
              (Ok has = Ok false /\ authors = _format_list author)) /\
             authors <> []) as (authors & EA & HA & HN).
  { destruct has.
    - destruct (name_of book_info (u "translator")) as [translator|];
        [|discriminate H].
      cbn [rbind]. eexists. split; [reflexivity|]. split.
      + left. split; [reflexivity|]. now exists translator.
      + intros E. apply app_eq_nil in E as [E _].
        now apply format_list_nonempty in E.
    - eexists. split; [reflexivity|]. split.
      + right. now split.
      + apply format_list_nonempty. }
  rewrite EA in H. cbn [rbind] in H.
  destruct (name_of book_info (u "publisher")) as [publisher|] eqn:P;
    [|discriminate H].
  cbn [rbind] in H.
  destruct (getitem book_info (u "datePublished")) as [date_value|] eqn:D;
    [|discriminate H].
  cbn [rbind] in H.
  destruct date_value as [| | |date_text| |]; cbn [as_str rbind] in H;
    try discriminate H.
  destruct (_format_date date_text) as [pubdate|] eqn:FD; [|discriminate H].
  cbn [rbind] in H.
  destruct (getitem book_info (u "description")) as [text|] eqn:C;
    [|discriminate H].
  cbn [rbind] in H.
  destruct text as [| | |description| |]; cbn [as_str rbind] in H;
    try discriminate H.
  destruct (_find_meta (meta_nodes root)
              (u "books:rating:normalized_value")) as [[value|]|];
    cbn [rbind] in H; try discriminate H.
  destruct (float value) as [rating|] eqn:R; [|discriminate H].
  cbn [rbind] in H. inversion H; subst f; clear H.
  cbn [Fields.title] in S.
  destruct title as [title|]; [|discriminate S].
  exists book_info. split; [reflexivity|].
  unfold assemble.
  cbn [Metadata.title Metadata.authors Metadata.identifier
       Metadata.cover_url Metadata.has_cover Metadata.publisher
       Metadata.pubdate Metadata.comments Metadata.rating Metadata.tags
       Metadata.series Metadata.series_index Metadata.language
       Metadata.source_relevance
       Fields.ridibooks_id Fields.isbn Fields.cover_url Fields.title
       Fields.rating Fields.book_info Fields.publisher Fields.pubdate
       Fields.comments Fields.authors].
  split; [exists title; split; [reflexivity|]; split; [reflexivity|];
          now exists series|].
  split; [exists author; split; [exact N | rewrite J; exact HA]|].
  split; [exact HN|].
  split; [now exists id|].
  split; [reflexivity|]. split; [reflexivity|].
  split; [now exists publisher|].
  split; [now exists date_text|].
  split; [now exists description|].
  split; [now exists value|].
  split; [exact T|]. split; reflexivity.
Qed.

End Outcome.

(** C3: a record is put on the result queue exactly when every stage of
    [load_details] succeeded: the page was fetched, every field was
    extracted, the tags were parsed, the series was looked for and the
    hook returned.  When a stage raises, [run] logs the failure and the
    queue gets nothing; a page without a JSON-LD block of the book is such
    a case, and [run] then does nothing but log.  What is put is the
    record that the hook returned for the assembled record, and the
    assembled record is fully populated: every one of its fields has the
    value that its statement of [load_details] computed, its title is a
    string and it has at least one author.  The record is put once, as
    the last thing the worker does. *)
Theorem published_iff_pipeline_succeeds {RT : Runtime} (w : Worker) :
  ((exists mi, In (result_queue_put mi) (run w)) <->
   exists root f tags series mi,
     page w = Some root /\
     extract_fields w root = Ok f /\
     snd (parse_tags w root) = Ok tags /\
     title_series (Fields.title f) = Ok series /\
     clean w (assemble w f tags series) = Ok mi) /\
  ((exists mi, In (result_queue_put mi) (run w)) <->
   exists tr, load_details w = (tr, Ok tt)) /\
  (forall tr e,
      load_details w = (tr, Raise e) ->
      run w = tr ++ [Spec.failed (url w)] /\
      forall mi, ~ In (result_queue_put mi) (run w)) /\
  (forall mi,
      In (result_queue_put mi) (run w) ->
      exists root f tags series pre,
        page w = Some root /\
        extract_fields w root = Ok f /\
        snd (parse_tags w root) = Ok tags /\
        title_series (Fields.title f) = Ok series /\
        clean w (assemble w f tags series) = Ok mi /\
        run w = pre ++ [result_queue_put mi] /\
        forallb (fun ev => negb (Spec.is_put ev)) pre = true) /\
  (forall mi,
      In (result_queue_put mi) (run w) ->
      exists root record,
        page w = Some root /\
        In (clean_downloaded_metadata record) (run w) /\
        clean w record = Ok mi /\
        exists book_info,
          book_block root = Ok book_info /\
          (exists title,
              _find_meta (meta_nodes root) (u "og:title") = Ok (Some title) /\
              Metadata.title record = Some title /\
              exists series,
                title_series (Some title) = Ok series /\
                Metadata.series record = option_map fst series /\
                Metadata.series_index record = option_map snd series) /\
          (exists author,
              name_of book_info (u "author") = Ok author /\
              ((json_in (u "translator") book_info = Ok true /\
                exists translator,
                  name_of book_info (u "translator") = Ok translator /\
                  Metadata.authors record
                  = _format_list author
                    ++ map (fun a => a ++ translator_mark)
                           (_format_list translator))
               \/
               (json_in (u "translator") book_info = Ok false /\
                Metadata.authors record = _format_list author))) /\
          Metadata.authors record <> [] /\
          (exists id,
              url_identifier (url w) = Ok id /\
              Metadata.identifier record = (u "ridibooks", id)) /\
          _find_meta (meta_nodes root) (u "og:image")
          = Ok (Metadata.cover_url record) /\
          Metadata.has_cover record = truthy (Metadata.cover_url record) /\
          (exists name,
              name_of book_info (u "publisher") = Ok name /\
              Metadata.publisher record = _format_item name) /\
          (exists date_text,
              getitem book_info (u "datePublished") = Ok (JStr date_text) /\
              _format_date date_text = Ok (Metadata.pubdate record)) /\
          (exists description,
              getitem book_info (u "description") = Ok (JStr description) /\
              Metadata.comments record = _format_item description) /\
          (exists value,
              _find_meta (meta_nodes root) (u "books:rating:normalized_value")
              = Ok (Some value) /\
              float value = Ok (Metadata.rating record)) /\
          snd (parse_tags w root) = Ok (Metadata.tags record) /\
          Metadata.language record = u "Korean" /\
          Metadata.source_relevance record = relevance w) /\
  (forall root,
      page w = Some root ->
      filter is_book (head_ld_json root) = [] ->
      run w = [Spec.failed (url w)]).
Proof.
  assert (Hfail : forall tr e,
             load_details w = (tr, Raise e) ->
             (forall ev, In ev tr -> Spec.is_put ev = false) ->
             run w = tr ++ [Spec.failed (url w)] /\
             forall mi, ~ In (result_queue_put mi) (run w)).
  { intros tr e H Hno. unfold run. rewrite H. split; [reflexivity|].
    intros mi Hin. apply in_app_or in Hin as [Hin|[Hin|[]]].
    - apply Hno in Hin. discriminate.
    - discriminate Hin. }
  assert (Hstages : forall root f tags series mi,
             page w = Some root ->
             extract_fields w root = Ok f ->
             snd (parse_tags w root) = Ok tags ->
             title_series (Fields.title f) = Ok series ->
             clean w (assemble w f tags series) = Ok mi ->
             load_details w
             = (Spec.notices f
                ++ [Spec.parsing_tags;
                    clean_downloaded_metadata (assemble w f tags series);
                    result_queue_put mi], Ok tt)).
  { intros root f tags series mi P F T S C.
    pose proof (load_details_anatomy w) as A.
    rewrite P, F, T, S in A. cbv zeta in A. now rewrite C in A. }
  destruct (load_details_outcome w)
    as [(tr & e & H & Hno)
       |(root & f & tags & series & mi & P & F & T & S & C & H)].
  - destruct (Hfail tr e H Hno) as [Hrun Hnone].
    split; [|split; [|split; [|split; [|split]]]].
    + split.
      * intros (mi & Hin). now apply Hnone in Hin.
      * intros (root & f & tags & series & mi & P & F & T & S & C).
        rewrite (Hstages _ _ _ _ _ P F T S C) in H. discriminate H.
    + split.
      * intros (mi & Hin). now apply Hnone in Hin.
      * intros (tr' & H'). rewrite H in H'. discriminate.
    + intros tr' e' H'. rewrite H in H'. inversion H'; subst. auto.
    + intros mi Hin. now apply Hnone in Hin.
    + intros mi Hin. now apply Hnone in Hin.
    + intros root P B. pose proof (load_details_anatomy w) as A.
      rewrite P in A. unfold extract_fields in A.
      rewrite (book_block_missing root B) in A. cbn [rbind] in A.
      unfold run. rewrite A. reflexivity.
  - assert (run w = (Spec.notices f
                     ++ [Spec.parsing_tags;
                         clean_downloaded_metadata
                           (assemble w f tags series)])
                    ++ [result_queue_put mi]) as Hrun
      by (unfold run; now rewrite H).
    assert (forall ev,
               In ev (Spec.notices f
                      ++ [Spec.parsing_tags;
                          clean_downloaded_metadata
                            (assemble w f tags series)]) ->
               Spec.is_put ev = false) as Hpre.
    { intros ev Hev. apply in_app_or in Hev as [Hev|[<-|[<-|[]]]];
        [now apply (notices_no_put f) | reflexivity | reflexivity]. }
    assert (forall mi', In (result_queue_put mi') (run w) -> mi' = mi)
      as Hsame.
    { intros mi' Hin. rewrite Hrun in Hin.
      apply in_app_or in Hin as [Hin|[Hin|[]]].
      - apply Hpre in Hin. discriminate.
      - now inversion Hin. }
    split; [|split; [|split; [|split; [|split]]]].
    + split.
      * intros _. now exists root, f, tags, series, mi.
      * intros _. exists mi. rewrite Hrun. apply in_or_app. right.
        now left.
    + split.
      * intros _. now exists (fst (load_details w)); rewrite H.
      * intros _. exists mi. rewrite Hrun. apply in_or_app. right.
        now left.
    + intros tr e H'. rewrite H in H'. discriminate.
    + intros mi' Hin. apply Hsame in Hin. subst mi'.
      exists root, f, tags, series.
      eexists. repeat split; try eassumption. now apply no_put_forallb.
    + intros mi' Hin. apply Hsame in Hin. subst mi'.
      exists root, (assemble w f tags series).
      split; [exact P|]. split.
      * rewrite Hrun. apply in_or_app. left. apply in_or_app. right.
        right. now left.
      * split; [exact C|].
        exact (assemble_populated w root f tags series F T S _ eq_refl).
    + intros root' P' B. rewrite P in P'. inversion P'; subst root'.
      unfold extract_fields in F.
      rewrite (book_block_missing root B) in F. discriminate.
Qed.

Lemma published_iff_pipeline_succeeds_witness :
  (exists mi record,
      In (result_queue_put mi)
         (@run sample_runtime (Page.worker (Some Page.good))) /\
      clean (Page.worker (Some Page.good)) record = Ok mi /\
      Metadata.title record = Some (u "Mystery Series 3권") /\
      Metadata.authors record <> [] /\
      Metadata.language record = u "Korean") /\
  @run sample_runtime (Page.worker (Some Page.no_book_block))
  = [Page.failed] /\
  (forall mi, ~ In (result_queue_put mi)
                   (@run sample_runtime
                         (Page.worker (Some Page.linkless_breadcrumb)))).
Proof.
  split; [|split].
  - assert (exists mi,
               In (result_queue_put mi)
                  (@run sample_runtime (Page.worker (Some Page.good))))
      as [mi Hin].
    { apply (proj2 (proj1 (@published_iff_pipeline_succeeds sample_runtime
                             (Page.worker (Some Page.good))))).
      do 5 eexists. split; [reflexivity|].
      split; [vm_compute; reflexivity|].
      split; [vm_compute; reflexivity|].
      split; vm_compute; reflexivity. }
    destruct (proj1 (proj2 (proj2 (proj2 (proj2
                (@published_iff_pipeline_succeeds sample_runtime
                   (Page.worker (Some Page.good))))))) mi Hin)
      as (root & record & P & _ & C & book_info & _ & Ti & _ & An & _ & _
          & _ & _ & _ & _ & _ & _ & L & _).
    exists mi, record. split; [exact Hin|]. split; [exact C|].
    destruct Ti as (title & M & Ti & _).
    inversion P; subst root. vm_compute in M. inversion M; subst title.
    split; [exact Ti|]. split; [exact An | exact L].
  - refine (eq_trans
              (proj2 (proj2 (proj2 (proj2 (proj2
                 (@published_iff_pipeline_succeeds sample_runtime
                    (Page.worker (Some Page.no_book_block)))))))
                 Page.no_book_block eq_refl _) _);
      vm_compute; reflexivity.
  - eapply (proj1 (proj2 (proj2 (@published_iff_pipeline_succeeds
                                   sample_runtime
                                   (Page.worker
                                      (Some Page.linkless_breadcrumb)))))).
    vm_compute. reflexivity.
Defined.

(** C4, as stated, fails: on a page whose breadcrumb container holds no
    link, tag extraction raises after both caches have been told. *)
Lemma caches_told_before_tags_fail :
  snd (@parse_tags sample_runtime
         (Page.worker (Some Page.linkless_breadcrumb))
         Page.linkless_breadcrumb) = Raise IndexError /\
  @run sample_runtime (Page.worker (Some Page.linkless_breadcrumb))
  = [cache_isbn_to_identifier (u "9788901234567") (u "987654");
     cache_identifier_to_cover_url
       (u "987654") (u "https://img.ridicdn.net/cover/987654/xxlarge");
     Spec.parsing_tags; Page.failed].
Proof. split; vm_compute; reflexivity. Qed.

(** C4 (amended): what the worker tells the outside, in order: the
    ISBN-to-identifier cache (when an identifier and an ISBN were found),
    the identifier-to-cover cache (when an identifier and a cover URL
    were found), then, after tag extraction and series detection, the
    clean-up hook, then the result queue.  The caches are told as soon as
    the fields are extracted, before tag extraction and series detection:
    a failure in field extraction leaves nothing told, a failure in tag
    extraction or series detection leaves the caches told but the hook not
    called, and the hook is called and the record put only when every
    stage before them succeeded. *)
Theorem side_effects_in_order {RT : Runtime} (w : Worker) :
  (page w = None ->
   run w = [log_exception (page_error w); Spec.failed (url w)]) /\
  (forall root,
      page w = Some root ->
      (forall e,
          extract_fields w root = Raise e ->
          run w = [Spec.failed (url w)]) /\
      (forall f,
          extract_fields w root = Ok f ->
          (forall e,
              snd (parse_tags w root) = Raise e ->
              run w
              = Spec.notices f
                ++ [Spec.parsing_tags; Spec.failed (url w)]) /\
          (forall tags,
              snd (parse_tags w root) = Ok tags ->
              (forall e,
                  title_series (Fields.title f) = Raise e ->
                  run w
                  = Spec.notices f
                    ++ [Spec.parsing_tags; Spec.failed (url w)]) /\
              (forall series,
                  title_series (Fields.title f) = Ok series ->
                  (forall e,
                      clean w (assemble w f tags series) = Raise e ->
                      run w
                      = Spec.notices f
                        ++ [Spec.parsing_tags;
                            clean_downloaded_metadata
                              (assemble w f tags series);
                            Spec.failed (url w)]) /\
                  (forall mi,
                      clean w (assemble w f tags series) = Ok mi ->
                      run w
                      = Spec.notices f
                        ++ [Spec.parsing_tags;
                            clean_downloaded_metadata
                              (assemble w f tags series);
                            result_queue_put mi]))))).
Proof.
  pose proof (load_details_anatomy w) as A. unfold run. split.
  - intros P. rewrite P in A. now rewrite A.
  - intros root P. rewrite P in A. split.
    + intros e F. rewrite F in A. now rewrite A.
    + intros f F. rewrite F in A. split.
      * intros e T. rewrite T in A. rewrite A.
        now rewrite <- app_assoc.
      * intros tags T. rewrite T in A. split.
        -- intros e S. rewrite S in A. rewrite A.
           now rewrite <- app_assoc.
        -- intros series S. rewrite S in A. cbv zeta in A. split.
           ++ intros e C. rewrite C in A. rewrite A.
              now rewrite <- app_assoc.
           ++ intros mi C. rewrite C in A. now rewrite A.
Qed.

Lemma side_effects_in_order_witness :
  @run sample_runtime (Page.worker None)
  = [log_exception (u "HTTPSConnectionPool: Max retries exceeded");
     Page.failed] /\
  @run sample_runtime (Page.worker (Some Page.no_book_block))
  = [Page.failed] /\
  exists f mi,
    @run sample_runtime (Page.worker (Some Page.good))
    = Spec.notices f
      ++ [Spec.parsing_tags; clean_downloaded_metadata mi;
          result_queue_put mi].
Proof.
  split; [|split].
  - refine (eq_trans
              (proj1 (@side_effects_in_order sample_runtime
                        (Page.worker None)) eq_refl) _).
    vm_compute. reflexivity.
  - refine (eq_trans
              (proj1 (proj2 (@side_effects_in_order sample_runtime
                               (Page.worker (Some Page.no_book_block)))
                        Page.no_book_block eq_refl) IndexError _) _);
      vm_compute; reflexivity.
  - assert (exists f tags series,
               @extract_fields sample_runtime
                 (Page.worker (Some Page.good)) Page.good = Ok f /\
               snd (@parse_tags sample_runtime
                      (Page.worker (Some Page.good)) Page.good) = Ok tags /\
               @title_series sample_runtime (Fields.title f) = Ok series)
      as (f & tags & series & F & T & S).
    { do 3 eexists. split; [vm_compute; reflexivity|].
      split; vm_compute; reflexivity. }
    exists f, (assemble (Page.worker (Some Page.good)) f tags series).
    apply (proj2 (proj2 (proj2 (proj2 (proj2
             (@side_effects_in_order sample_runtime
                (Page.worker (Some Page.good)))
             Page.good eq_refl) f F) tags T) series S)).
    reflexivity.
Defined.

Section Authors.
Context {RT : Runtime}.

Lemma notices_not_clean (f : Fields.t) (mi : Metadata.t) :
  ~ In (clean_downloaded_metadata mi) (Spec.notices f).
Proof.
  unfold Spec.notices, Spec.isbn_notice, Spec.cover_notice.
  destruct (Fields.ridibooks_id f) as [|x id]; [intros []|].
  destruct (Fields.isbn f) as [[|c i]|];
    destruct (Fields.cover_url f) as [[|d v]|]; simpl;
    intuition discriminate.
Qed.

(** The hook is called with the record assembled from the extracted
    fields. *)
Lemma clean_called_on_assembled (w : Worker) (mi : Metadata.t) :
  In (clean_downloaded_metadata mi) (run w) ->
  exists root f tags series,
    page w = Some root /\ extract_fields w root = Ok f /\
    mi = assemble w f tags series.
Proof.
  pose proof (load_details_anatomy w) as A. unfold run.
  destruct (page w) as [root|] eqn:P;
    [|rewrite A; simpl; intuition discriminate].
  destruct (extract_fields w root) as [f|e] eqn:F;
    [|rewrite A; simpl; intuition discriminate].
  assert (forall tail,
             In (clean_downloaded_metadata mi) (Spec.notices f ++ tail) ->
             In (clean_downloaded_metadata mi) tail) as Htail.
  { intros tail H. apply in_app_or in H as [H|H]; [|exact H].
    now apply notices_not_clean in H. }
  destruct (snd (parse_tags w root)) as [tags|e].
  2:{ rewrite A, <- app_assoc. intros H. apply Htail in H.
      simpl in H. intuition discriminate. }
  destruct (title_series (Fields.title f)) as [series|e].
  2:{ rewrite A, <- app_assoc. intros H. apply Htail in H.
      simpl in H. intuition discriminate. }
  cbv zeta in A.
  assert (forall tail,
             In (clean_downloaded_metadata mi)
                (Spec.parsing_tags
                 :: clean_downloaded_metadata (assemble w f tags series)
                 :: tail) ->
             (forall ev, In ev tail -> ev <> clean_downloaded_metadata mi) ->
             mi = assemble w f tags series) as Hmi.
  { intros tail [H|[H|H]] Hno.
    - discriminate H.
    - now inversion H.
    - now apply Hno in H. }
  destruct (clean w (assemble w f tags series)) as [mi'|e]; rewrite A.
  - intros H. apply Htail in H. exists root, f, tags, series.
    split; [reflexivity|]. split; [exact F|].
    apply (Hmi _ H). intros ev [<-|[]]. discriminate.
  - rewrite <- app_assoc. intros H. apply Htail in H.
    exists root, f, tags, series.
    split; [reflexivity|]. split; [exact F|].
    apply (Hmi _ H). intros ev [<-|[]]. discriminate.
Qed.

(** One step through a chain of statements that ended well: the
    statement at its head did not raise. *)
Ltac stage H :=
  match type of H with
  | rbind ?r _ = Ok _ =>
      destruct r; cbn [rbind] in H; [|discriminate H]
  end.

(** How [extract_fields] fills the authors. *)
Lemma extract_fields_authors (w : Worker) (root : document)
      (f : Fields.t) :
  extract_fields w root = Ok f ->
  exists book_info author,
    book_block root = Ok book_info /\
    name_of book_info (u "author") = Ok author /\
    ((json_in (u "translator") book_info = Ok true /\
      exists translator,
        name_of book_info (u "translator") = Ok translator /\
        Fields.authors f
        = _format_list author
          ++ map (fun a => a ++ translator_mark) (_format_list translator))
     \/
     (json_in (u "translator") book_info = Ok false /\
      Fields.authors f = _format_list author)).
Proof.
  unfold extract_fields. intros H.
  destruct (book_block root) as [book_info|] eqn:B; [|discriminate H].
  cbn [rbind] in H.
  destruct (url_identifier (url w)); [|discriminate H].
  cbn [rbind] in H.
  do 3 stage H.
  destruct (name_of book_info (u "author")) as [author|] eqn:N;
    [|discriminate H].
  cbn [rbind] in H.
  destruct (json_in (u "translator") book_info) as [[|]|] eqn:J;
    [| |discriminate H]; cbn [rbind] in H.
  - destruct (name_of book_info (u "translator")) as [translator|] eqn:Tn;
      [|discriminate H].
    cbn [rbind] in H.
    repeat stage H.
    inversion H; subst f; clear H. cbn [Fields.authors].
    exists book_info, author. split; [reflexivity|]. split; [exact N|].
    left. split; [exact J|]. exists translator. now split.
  - repeat stage H.
    inversion H; subst f; clear H. cbn [Fields.authors].
    exists book_info, author. split; [reflexivity|]. split; [exact N|].
    right. split; [exact J | reflexivity].
Qed.

End Authors.

(** C10: the authors of the assembled record (the record the clean-up
    hook is called with) are the author names in their listed order; when
    the Book record has a 'translator' field they are followed by the
    translator names, each with the marker "(역자)" appended, so that no
    translator entry precedes an author entry; without a 'translator'
    field they are exactly the split author names. *)
Theorem authors_then_translators {RT : Runtime}
        (w : Worker) (mi : Metadata.t) :
  In (clean_downloaded_metadata mi) (run w) ->
  exists root book_info author,
    page w = Some root /\
    book_block root = Ok book_info /\
    name_of book_info (u "author") = Ok author /\
    ((json_in (u "translator") book_info = Ok true /\
      exists translator,
        name_of book_info (u "translator") = Ok translator /\
        Metadata.authors mi
        = _format_list author
          ++ map (fun a => a ++ u "(역자)") (_format_list translator))
     \/
     (json_in (u "translator") book_info = Ok false /\
      Metadata.authors mi = _format_list author)).
Proof.
  intros H.
  apply clean_called_on_assembled in H
    as (root & f & tags & series & P & F & ->).
  apply extract_fields_authors in F as (book_info & author & B & N & A).
  exists root, book_info, author. repeat split; assumption.
Qed.

Lemma authors_then_translators_witness :
  exists mi,
    In (clean_downloaded_metadata mi)
       (@run sample_runtime (Page.worker (Some Page.good))) /\
    Metadata.authors mi = [u "Kim"; u "Lee"; u "Park(역자)"].
Proof.
  assert (exists mi,
             In (clean_downloaded_metadata mi)
                (@run sample_runtime (Page.worker (Some Page.good))))
    as [mi Hin].
  { eexists. vm_compute. right. right. right. left. reflexivity. }
  exists mi. split; [exact Hin|].
  destruct (@authors_then_translators sample_runtime _ mi Hin)
    as (root & book_info & author & P & B & N & [(J & tr & Tn & A)|(J & A)]).
  - inversion P; subst root.
    vm_compute in B. inversion B; subst book_info.
    vm_compute in N. inversion N; subst author.
    vm_compute in Tn. inversion Tn; subst tr.
    rewrite A. reflexivity.
  - inversion P; subst root.
    vm_compute in B. inversion B; subst book_info. discriminate J.
Defined.

(** * More properties *)

(** ** Cutting and joining *)

Lemma contains_suffix (x a b : str) :
  contains x b = true -> contains x (a ++ b) = true.
Proof.
  intros H. induction a as [|c a IH]; [exact H|].
  cbn [app]. rewrite contains_unfold, IH. apply orb_true_r.
Qed.

Lemma contains_nil_false (x : str) : x <> [] -> contains x [] = false.
Proof. destruct x; [congruence | reflexivity]. Qed.

Lemma join_cons (sep p q : str) (l : list str) :
  join sep (p :: q :: l) = p ++ sep ++ join sep (q :: l).
Proof. reflexivity. Qed.

(** The pieces of a split have no separator in them, and what occurs in
    a piece occurs in the text. *)
Lemma split_fuel_pieces (sep : str) :
  sep <> [] ->
  forall (n : nat) (s p : str),
    List.length s <= n -> In p (split_fuel n sep s) ->
    contains sep p = false /\
    forall x, contains x p = true -> contains x s = true.
Proof.
  intros Hsep. induction n as [|n IH]; intros s p Hn Hin.
  - destruct s; [|simpl in Hn; lia]. destruct Hin as [<-|[]].
    split; [now apply contains_nil_false | auto].
  - cbn [split_fuel] in Hin.
    destruct (partition sep s) as [[a b]|] eqn:P.
    + destruct (partition_Some _ _ _ _ P) as [Hs _].
      destruct Hin as [<-|Hin].
      * split; [apply (partition_before _ _ _ _ P Hsep)|].
        intros x Hx. rewrite Hs. now apply contains_prefix.
      * pose proof (partition_shrinks _ _ _ _ P Hsep) as L.
        destruct (IH b p ltac:(lia) Hin) as [H1 H2].
        split; [exact H1|]. intros x Hx. rewrite Hs.
        apply contains_suffix, contains_suffix. now apply H2.
    + destruct Hin as [<-|[]]. split; [now apply partition_None | auto].
Qed.

Lemma split_pieces (s sep p : str) :
  sep <> [] -> In p (split s sep) ->
  contains sep p = false /\
  forall x, contains x p = true -> contains x s = true.
Proof.
  intros Hsep Hin. now apply (split_fuel_pieces sep Hsep (List.length s) s).
Qed.

Lemma split_fuel_nonempty (n : nat) (sep s : str) : split_fuel n sep s <> [].
Proof.
  destruct n; cbn [split_fuel]; [discriminate|].
  destruct (partition sep s) as [[a b]|]; discriminate.
Qed.

(** Joining the pieces of a split with the separator gives the text
    back. *)
Lemma join_split_fuel (sep : str) :
  sep <> [] ->
  forall (n : nat) (s : str),
    List.length s <= n -> join sep (split_fuel n sep s) = s.
Proof.
  intros Hsep. induction n as [|n IH]; intros s Hn; [reflexivity|].
  cbn [split_fuel]. destruct (partition sep s) as [[a b]|] eqn:P;
    [|reflexivity].
  pose proof (partition_shrinks _ _ _ _ P Hsep) as L.
  destruct (partition_Some _ _ _ _ P) as [Hs _].
  pose proof (split_fuel_nonempty n sep b) as Hne.
  destruct (split_fuel n sep b) as [|q l] eqn:E; [congruence|].
  rewrite join_cons, <- E, IH by lia. now rewrite Hs.
Qed.

Lemma join_split (s sep : str) : sep <> [] -> join sep (split s sep) = s.
Proof. intros Hsep. now apply join_split_fuel. Qed.

(** A text in which the first character of the separator does not occur
    is cut nowhere before its end. *)
Lemma startswith_head (s x : str) (c : char) :
  startswith s (c :: x) = true -> exists s', s = c :: s'.
Proof.
  destruct s as [|d s]; [discriminate|]. cbn.
  intros H. apply andb_true_iff in H as [H _].
  apply N.eqb_eq in H. subst. now exists s.
Qed.

Lemma partition_item (c : char) (sep' item rest : str) :
  ~ In c item ->
  partition (c :: sep') (item ++ (c :: sep') ++ rest) = Some (item, rest).
Proof.
  intros Hc. induction item as [|d item IH].
  - cbn [app]. rewrite partition_unfold.
    change (c :: sep' ++ rest) with ((c :: sep') ++ rest).
    rewrite startswith_app. f_equal. f_equal.
    now rewrite skipn_app, skipn_all, Nat.sub_diag.
  - rewrite partition_unfold, <- app_comm_cons.
    destruct (startswith (d :: item ++ (c :: sep') ++ rest) (c :: sep'))
      eqn:E.
    + apply startswith_head in E as (s' & E). inversion E; subst.
      exfalso. apply Hc. now left.
    + rewrite IH; [reflexivity|]. intros H. apply Hc. now right.
Qed.

Lemma partition_last (c : char) (sep' item : str) :
  ~ In c item -> partition (c :: sep') item = None.
Proof.
  intros Hc. induction item as [|d item IH]; [reflexivity|].
  rewrite partition_unfold.
  destruct (startswith (d :: item) (c :: sep')) eqn:E.
  - apply startswith_head in E as (s' & E). inversion E; subst.
    exfalso. apply Hc. now left.
  - rewrite IH; [reflexivity|]. intros H. apply Hc. now right.
Qed.

(** Cutting a joined list where it was joined gives the list back, when
    no item has the first character of the separator. *)
Lemma split_join (c : char) (sep' : str) (items : list str) :
  items <> [] ->
  (forall item, In item items -> ~ In c item) ->
  split (join (c :: sep') items) (c :: sep') = items.
Proof.
  intros Hne Hc. induction items as [|item items IH]; [congruence|].
  assert (c :: sep' <> []) as Hsep by discriminate.
  rewrite split_unfold by exact Hsep.
  destruct items as [|q l].
  - cbn [join]. rewrite partition_last; [reflexivity|].
    apply Hc. now left.
  - rewrite join_cons, partition_item by (apply Hc; now left).
    f_equal. apply IH; [discriminate|].
    intros i Hi. apply Hc. now right.
Qed.

(** ** Lists of names *)

Section FormatList.
Context {RT : Runtime}.

Lemma lstrip_suffix (s : str) :
  exists pre, s = pre ++ lstrip s /\ forallb isspace pre = true.
Proof.
  induction s as [|c s (pre & Hs & Hp)]; [now exists []|].
  cbn [lstrip]. destruct (isspace c) eqn:E.
  - exists (c :: pre). cbn [app forallb]. now rewrite E, <- Hs.
  - now exists [].
Qed.

Lemma lstrip_head (s : str) (c : char) (t : str) :
  lstrip s = c :: t -> isspace c = false.
Proof.
  induction s as [|d s IH]; cbn [lstrip]; [discriminate|].
  destruct (isspace d) eqn:E; [exact IH|].
  intros H. inversion H; subst. exact E.
Qed.

(** What [strip] returns is a part of its argument between two runs of
    whitespace. *)
Lemma strip_middle (s : str) :
  exists pre post,
    s = pre ++ strip s ++ post /\
    forallb isspace pre = true /\ forallb isspace post = true.
Proof.
  unfold strip, rstrip.
  destruct (lstrip_suffix s) as (pre & Hs & Hpre).
  destruct (lstrip_suffix (rev (lstrip s))) as (q & Hr & Hq).
  exists pre, (rev q). split; [|split; [exact Hpre|]].
  - rewrite Hs at 1. f_equal.
    rewrite <- (rev_involutive (lstrip s)), Hr at 1.
    now rewrite rev_app_distr.
  - apply forallb_forall. intros x Hx. apply in_rev in Hx.
    rewrite forallb_forall in Hq. now apply Hq.
Qed.

Lemma strip_trimmed (s : str) : Shape.trimmed (strip s) = true.
Proof.
  destruct (strip s) as [|c t] eqn:E; [reflexivity|].
  unfold Shape.trimmed. unfold strip, rstrip in E.
  destruct (lstrip (rev (lstrip s))) as [|z w] eqn:L;
    [discriminate E|].
  pose proof (lstrip_head _ _ _ L) as Hz.
  cbn [rev] in E.
  assert (last (c :: t) c = z) as ->
    by (rewrite <- E; apply last_last).
  rewrite Hz. rewrite andb_true_r. apply negb_true_iff.
  destruct (lstrip_suffix (rev (lstrip s))) as (q & Hr & _).
  rewrite L in Hr.
  assert (lstrip s = rev (z :: w) ++ rev q) as Hl.
  { rewrite <- (rev_involutive (lstrip s)), Hr. apply rev_app_distr. }
  cbn [rev] in Hl. rewrite E in Hl. cbn [app] in Hl.
  now apply (lstrip_head s c (t ++ rev q)).
Qed.

Lemma strip_In (s : str) (c : char) : In c (strip s) -> In c s.
Proof.
  destruct (strip_middle s) as (pre & post & Hs & _).
  intros H. rewrite Hs. apply in_or_app. right. apply in_or_app. now left.
Qed.

Lemma contains_single (c : char) (s : str) :
  contains [c] s = false -> ~ In c s.
Proof.
  induction s as [|d s IH]; [intros _ []|].
  rewrite contains_unfold. intros H. apply orb_false_iff in H as [H1 H2].
  intros [->|Hin]; [|now apply IH].
  cbn [startswith] in H1. rewrite N.eqb_refl, startswith_nil in H1.
  discriminate.
Qed.

Lemma join_In (sep : str) (items : list str) (c : char) :
  In c (join sep items) ->
  In c sep \/ exists item, In item items /\ In c item.
Proof.
  induction items as [|p [|q l] IH]; cbn [join].
  - intros [].
  - intros H. right. exists p. split; [now left | exact H].
  - intros H. apply in_app_or in H as [H|H];
      [right; exists p; split; [now left | exact H]|].
    apply in_app_or in H as [H|H]; [now left|].
    destruct (IH H) as [H'|(i & Hi & Hc)]; [now left|].
    right. exists i. split; [now right | exact Hc].
Qed.

End FormatList.

(** X1: [_format_list] never returns an empty list; each of its items
    has no whitespace at its ends and no comma in it; and the items are
    the stripped pieces of the formatted text, which the commas hold
    together: nothing but whitespace around an item is lost. *)
Theorem format_list_items {RT : Runtime} (s : str) :
  _format_list s <> [] /\
  (forall item,
      In item (_format_list s) ->
      Shape.trimmed item = true /\ ~ In 44%N item) /\
  exists pieces,
    _format_list s = map strip pieces /\
    join (u ",") pieces = _format_item s.
Proof.
  unfold _format_list.
  assert (Hsep : u "," <> []) by (cbv; discriminate).
  split; [|split].
  - unfold split. intros H. apply map_eq_nil in H.
    now apply split_fuel_nonempty in H.
  - intros item Hin. apply in_map_iff in Hin as (p & <- & Hp).
    split; [apply strip_trimmed|].
    intros Hc. apply strip_In in Hc.
    destruct (split_pieces _ _ _ Hsep Hp) as [Hno _].
    now apply (contains_single 44%N p Hno).
  - exists (split (_format_item s) (u ",")).
    split; [reflexivity | now apply join_split].
Qed.

Lemma format_list_items_witness :
  Shape.trimmed (u "Lee") = true /\ ~ In 44%N (u "Lee").
Proof.
  apply (proj1 (proj2 (@format_list_items sample_runtime (u "Kim , Lee ")))).
  vm_compute. right. left. reflexivity.
Defined.

(** X2: when the unescaped text is a list of items held together by
    commas, between double quotes or without them, and no item has a comma
    or a newline in it, [_format_list] returns the items, each stripped of
    the whitespace around it. *)
Theorem format_list_of_joined {RT : Runtime} (s : str) (items : list str) :
  items <> [] ->
  (forall item, In item items -> ~ In 44%N item /\ ~ In 10%N item) ->
  unescape s = dquote :: join (u ",") items ++ [dquote] \/
  (unescape s = join (u ",") items /\
   startswith (join (u ",") items) [dquote] = false) ->
  _format_list s = map strip items.
Proof.
  intros Hne Hitems Hs. unfold _format_list.
  assert (_format_item s = join (u ",") items) as ->.
  { unfold _format_item. destruct Hs as [-> | [-> Hq]].
    - apply sub_quoted_body. intros Hin.
      apply join_In in Hin as [Hin|(i & Hi & Hin)].
      + cbv in Hin. intuition discriminate.
      + now apply (proj2 (Hitems i Hi)).
    - destruct (join (u ",") items) as [|c rest]; [reflexivity|].
      apply sub_quoted_other. intros ->. cbn [startswith] in Hq.
      rewrite N.eqb_refl, startswith_nil in Hq. discriminate. }
  f_equal. change (u ",") with [44%N]. apply split_join; [exact Hne|].
  intros i Hi. apply (Hitems i Hi).
Qed.

Lemma format_list_of_joined_witness :
  @_format_list sample_runtime (uq "'a, b, c'") = [u "a"; u "b"; u "c"] /\
  @_format_list sample_runtime (u "Kim &amp; Co,Lee")
  = [u "Kim & Co"; u "Lee"].
Proof.
  split.
  - apply (@format_list_of_joined sample_runtime (uq "'a, b, c'")
             [u "a"; u " b"; u " c"]).
    + discriminate.
    + intros i [<-|[<-|[<-|[]]]]; vm_compute; intuition discriminate.
    + left. reflexivity.
  - apply (@format_list_of_joined sample_runtime (u "Kim &amp; Co,Lee")
             [u "Kim & Co"; u "Lee"]).
    + discriminate.
    + intros i [<-|[<-|[]]]; vm_compute; intuition discriminate.
    + right. split; reflexivity.
Defined.

(** ** Quoted text and line ends *)

Section QuotedLines.
Context {RT : Runtime}.

Lemma quoted_star_newline (body : str) (st : Re.mstate) :
  ~ In 10%N body ->
  Re.match_here [Re.Star Re.Dot; Re.Close 1; Re.One (Re.Lit dquote); Re.Eol]
                true st (body ++ [dquote; 10%N])
  = Some (Re.take dquote (Re.close_group 1 (Re.takes body st)), [10%N]).
Proof.
  revert st; induction body as [|b body IH]; intros st Hnl.
  - reflexivity.
  - cbn [app]. rewrite match_star_cons.
    assert (Re.in_cls Re.Dot b = true) as ->.
    { simpl. apply negb_true_iff, N.eqb_neq. intros ->. apply Hnl. now left. }
    rewrite IH; [reflexivity|]. intros H. apply Hnl. now right.
Qed.

Lemma sub_quoted_newline_end (body : str) :
  ~ In 10%N body ->
  Re.sub quoted (Re.group 1) (dquote :: body ++ [dquote; 10%N])
  = body ++ [10%N].
Proof.
  intros Hnl. unfold Re.sub, quoted. cbn [Re.sub_from].
  assert (Re.match_here
            [Re.Bol; Re.One (Re.Lit dquote); Re.Open 1; Re.Star Re.Dot;
             Re.Close 1; Re.One (Re.Lit dquote); Re.Eol]
            true Re.mstart (dquote :: body ++ [dquote; 10%N])
          = Re.match_here
              [Re.Star Re.Dot; Re.Close 1; Re.One (Re.Lit dquote); Re.Eol]
              true (Re.open_group 1 (Re.take dquote Re.mstart))
              (body ++ [dquote; 10%N])) as -> by reflexivity.
  rewrite (quoted_star_newline body _ Hnl).
  set (st0 := Re.open_group 1 (Re.take dquote Re.mstart)).
  destruct (takes_fields body st0) as (H1 & H2 & H3).
  set (st1 := Re.takes body st0) in *.
  assert (Re.close_group 1 st1
          = {| Re.taken := Re.taken st1; Re.opened := Re.opened st1;
               Re.closed := (1, body) :: Re.closed st1 |}) as E.
  { unfold Re.close_group. rewrite H2. simpl.
    rewrite H1. simpl. rewrite rev_app_distr, rev_involutive. reflexivity. }
  rewrite E. cbn [Re.take Re.taken Re.group Re.closed Re.assoc Nat.eqb].
  rewrite H1. simpl Re.taken.
  replace (List.length (dquote :: rev body ++ [dquote]))
    with (S (List.length (body ++ [dquote])))
    by (simpl; now rewrite !length_app, length_rev).
  rewrite sub_from_anchored. f_equal.
  change (body ++ [dquote; 10%N]) with (body ++ [dquote] ++ [10%N]).
  rewrite app_assoc, skipn_app, skipn_all, Nat.sub_diag. reflexivity.
Qed.

Lemma app_first_newline (a' t a r : str) :
  a' ++ t = a ++ 10%N :: r -> ~ In 10%N a' -> ~ In 10%N a ->
  exists a'', a = a' ++ a'' /\ t = a'' ++ 10%N :: r.
Proof.
  revert a; induction a' as [|x a' IH]; intros a H Ha' Ha.
  - exists a. now split.
  - destruct a as [|y a].
    + cbn [app] in H. inversion H; subst. exfalso. apply Ha'. now left.
    + cbn [app] in H. inversion H; subst.
      destruct (IH a H2) as (a'' & -> & ->).
      * intros Hin. apply Ha'. now right.
      * intros Hin. apply Ha. now right.
      * now exists a''.
Qed.

Lemma at_end_long (x b : str) (c : char) :
  Re.at_end (x ++ 10%N :: b ++ [c]) = false.
Proof.
  destruct x as [|x0 [|x1 x]]; cbn; try reflexivity;
    destruct b; reflexivity.
Qed.

(** The pattern does not match a text that has a newline between its
    quotes. *)
Lemma quoted_no_match_multiline (a b : str) (st : Re.mstate) :
  ~ In 10%N a ->
  Re.match_here [Re.Star Re.Dot; Re.Close 1; Re.One (Re.Lit dquote); Re.Eol]
                true st (a ++ 10%N :: b ++ [dquote]) = None.
Proof.
  intros Ha.
  destruct (Re.match_here _ true st (a ++ 10%N :: b ++ [dquote]))
    as [r|] eqn:G; [|reflexivity].
  exfalso. apply star_sound in G as (a' & t & Hs & Ha' & G & _).
  assert (~ In 10%N a') as Hn.
  { intros Hin. rewrite forallb_forall in Ha'. apply Ha' in Hin.
    discriminate Hin. }
  destruct (app_first_newline a' t a _ (eq_sym Hs) Hn Ha) as (a'' & -> & ->).
  rewrite match_close, match_one in G.
  destruct a'' as [|y a''].
  - cbn [app Re.in_cls] in G. discriminate G.
  - cbn [app] in G.
    destruct (Re.in_cls (Re.Lit dquote) y); [|discriminate G].
    cbn [Re.match_here] in G. rewrite at_end_long in G. discriminate G.
Qed.

Lemma sub_quoted_multiline (a b : str) :
  ~ In 10%N a ->
  Re.sub quoted (Re.group 1) (dquote :: a ++ 10%N :: b ++ [dquote])
  = dquote :: a ++ 10%N :: b ++ [dquote].
Proof.
  intros Ha. unfold Re.sub, quoted. cbn [Re.sub_from].
  assert (Re.match_here
            [Re.Bol; Re.One (Re.Lit dquote); Re.Open 1; Re.Star Re.Dot;
             Re.Close 1; Re.One (Re.Lit dquote); Re.Eol]
            true Re.mstart (dquote :: a ++ 10%N :: b ++ [dquote])
          = Re.match_here
              [Re.Star Re.Dot; Re.Close 1; Re.One (Re.Lit dquote); Re.Eol]
              true (Re.open_group 1 (Re.take dquote Re.mstart))
              (a ++ 10%N :: b ++ [dquote])) as -> by reflexivity.
  rewrite (quoted_no_match_multiline a b _ Ha).
  f_equal. apply sub_from_anchored.
Qed.

End QuotedLines.

(** X3: [_format_item] and line ends.  A text between double quotes that
    is followed by one final newline loses its quotes and keeps the
    newline; a text that has a newline between its quotes keeps its
    quotes: the pattern works on one line. *)
Theorem format_item_line_ends {RT : Runtime} (s : str) :
  (forall body,
      unescape s = dquote :: body ++ [dquote; 10%N] -> ~ In 10%N body ->
      _format_item s = body ++ [10%N]) /\
  (forall a b,
      unescape s = dquote :: a ++ 10%N :: b ++ [dquote] -> ~ In 10%N a ->
      _format_item s = unescape s).
Proof.
  unfold _format_item. split.
  - intros body -> Hnl. now apply sub_quoted_newline_end.
  - intros a b -> Ha. now apply sub_quoted_multiline.
Qed.

Lemma format_item_line_ends_witness :
  @_format_item sample_runtime (uq "'two" ++ [10%N] ++ uq "lines'")
  = uq "'two" ++ [10%N] ++ uq "lines'" /\
  @_format_item sample_runtime (uq "'one line'" ++ [10%N])
  = u "one line" ++ [10%N].
Proof.
  split.
  - apply (proj2 (@format_item_line_ends sample_runtime
                    (uq "'two" ++ [10%N] ++ uq "lines'"))
             (u "two") (u "lines")).
    + reflexivity.
    + vm_compute. intuition discriminate.
  - apply (proj1 (@format_item_line_ends sample_runtime
                    (uq "'one line'" ++ [10%N])) (u "one line")).
    + reflexivity.
    + vm_compute. intuition discriminate.
Defined.

(** ** Replacing *)

Lemma startswith_app_inv (a b x : str) :
  startswith (a ++ b) x = true ->
  startswith a x = true \/
  exists x2, x = a ++ x2 /\ x2 <> [] /\ startswith b x2 = true.
Proof.
  revert x; induction a as [|c a IH]; intros x H.
  - destruct x as [|d x]; [left; reflexivity|].
    right. exists (d :: x). repeat split; [discriminate | exact H].
  - destruct x as [|d x]; [left; reflexivity|].
    cbn [app startswith] in H. apply andb_true_iff in H as [Hd H].
    apply N.eqb_eq in Hd. subst d.
    destruct (IH x H) as [H'|(x2 & -> & Hx2 & Hb)].
    + left. cbn [startswith]. now rewrite N.eqb_refl.
    + right. exists x2. now repeat split.
Qed.

Lemma startswith_chars (s x : str) (c : char) :
  startswith s x = true -> In c x -> In c s.
Proof.
  intros H Hc. apply startswith_skipn in H. rewrite H.
  apply in_or_app. now left.
Qed.

(** An occurrence in [a ++ b] lies in [a], or in [b], or across the two;
    across them, it has a character of [a] and the first character of
    [b]. *)
Lemma contains_app_inv (x a b : str) :
  contains x (a ++ b) = true ->
  contains x a = true \/ contains x b = true \/
  ((exists c, In c a /\ In c x) /\
   (exists c rest, b = c :: rest /\ In c x)).
Proof.
  induction a as [|c a IH]; intros H.
  - right. left. exact H.
  - cbn [app] in H. rewrite contains_unfold in H.
    apply orb_true_iff in H as [H|H].
    + change (c :: a ++ b) with ((c :: a) ++ b) in H.
      apply startswith_app_inv in H as [H|(x2 & -> & Hx2 & Hb)].
      * left. rewrite contains_unfold, H. reflexivity.
      * right. right. split.
        -- exists c. split; [now left|]. apply in_or_app. left. now left.
        -- destruct x2 as [|d x2]; [congruence|].
           apply startswith_head in Hb as (rest & ->).
           exists d, rest. split; [reflexivity|].
           apply in_or_app. right. now left.
    + destruct (IH H) as [H'|[H'|((d & Hd & Hx) & Hb)]].
      * left. rewrite contains_unfold, H'. apply orb_true_r.
      * right. left. exact H'.
      * right. right. split; [|exact Hb].
        exists d. split; [now right | exact Hx].
Qed.

Lemma contains_chars (x s : str) (c : char) :
  contains x s = true -> In c x -> In c s.
Proof.
  induction s as [|d s IH]; rewrite contains_unfold; intros H Hc.
  - rewrite orb_false_r in H. now apply (startswith_chars [] x c).
  - apply orb_true_iff in H as [H|H].
    + now apply (startswith_chars (d :: s) x c).
    + right. now apply IH.
Qed.

(** Joining pieces in which [x] does not occur, with a separator that
    shares no character with [x], gives a text in which [x] does not
    occur. *)
Lemma join_clean (x new : str) (pieces : list str) :
  x <> [] -> new <> [] ->
  (forall c, In c new -> ~ In c x) ->
  (forall p, In p pieces -> contains x p = false) ->
  contains x (join new pieces) = false.
Proof.
  intros Hx Hnew Hdis. induction pieces as [|p [|q l] IH]; intros Hp.
  - now apply contains_nil_false.
  - apply Hp. now left.
  - rewrite join_cons.
    destruct (contains x (p ++ new ++ join new (q :: l))) eqn:E;
      [|reflexivity].
    exfalso. destruct new as [|n new]; [congruence|].
    apply contains_app_inv in E as [E|[E|(_ & c & rest & Hc & Hin)]].
    + rewrite (Hp p (or_introl eq_refl)) in E. discriminate.
    + apply contains_app_inv in E as [E|[E|((c & Hc & Hin) & _)]].
      * destruct x as [|x0 x]; [congruence|].
        apply (Hdis x0); [|now left].
        apply (contains_chars (x0 :: x) (n :: new) x0 E). now left.
      * rewrite IH in E; [discriminate|].
        intros p' Hp'. apply Hp. now right.
      * now apply (Hdis c).
    + cbn [app] in Hc. inversion Hc; subst.
      apply (Hdis c); [now left | exact Hin].
Qed.

(** After [replace], the replaced text is gone, and so is whatever was
    not there before, when the replacement shares no character with it. *)
Lemma replace_clean (x s old new : str) :
  x <> [] -> old <> [] -> new <> [] ->
  (forall c, In c new -> ~ In c x) ->
  x = old \/ contains x s = false ->
  contains x (replace s old new) = false.
Proof.
  intros Hx Hold Hnew Hdis Hs. unfold replace.
  apply join_clean; try assumption.
  intros p Hp. destruct (split_pieces s old p Hold Hp) as [H1 H2].
  destruct Hs as [-> | Hs]; [exact H1|].
  destruct (contains x p) eqn:E; [|reflexivity].
  rewrite (H2 x E) in Hs. discriminate.
Qed.

Lemma replace_absent (s old new : str) :
  old <> [] -> contains old s = false -> replace s old new = s.
Proof.
  intros Hold H. unfold replace. rewrite split_unfold by exact Hold.
  apply partition_None in H. now rewrite H.
Qed.

Lemma contains_needs_char (x s : str) (c : char) :
  In c x -> ~ In c s -> contains x s = false.
Proof.
  intros Hc Hs. destruct (contains x s) eqn:E; [|reflexivity].
  exfalso. apply Hs. now apply (contains_chars x s c).
Qed.


(** X4: the repairs that [load_details] and [parse_tags] make to the
    JSON-LD text leave none of the entities "&lt;", "&gt;" and "&quot;" in
    it, whatever the text was; and a text without an ampersand is decoded
    as it is. *)
Theorem repair_leaves_no_entity (ld : str) :
  contains (u "&lt;") (repair ld) = false /\
  contains (u "&gt;") (repair ld) = false /\
  contains (u "&quot;") (repair ld) = false /\
  (~ In 38%N ld -> repair ld = ld).
Proof.
  assert (D : forall (x new : str),
             forallb (fun c => negb (existsb (N.eqb c) x)) new = true ->
             forall c, In c new -> ~ In c x).
  { intros x new H c Hc Hx. rewrite forallb_forall in H.
    apply H in Hc. apply negb_true_iff in Hc.
    assert (existsb (N.eqb c) x = true); [|congruence].
    apply existsb_exists. exists c. split; [exact Hx | apply N.eqb_refl]. }
  unfold repair.
  set (s1 := replace ld (u "&lt;") (u "<")).
  set (s2 := replace s1 (u "&gt;") (u ">")).
  set (s3 := replace s2 (u "\&quot;") (uq "\'")).
  assert (L1 : contains (u "&lt;") s1 = false).
  { apply replace_clean; try (cbv; discriminate);
      [apply D; reflexivity | now left]. }
  assert (L2 : contains (u "&lt;") s2 = false).
  { apply replace_clean; try (cbv; discriminate);
      [apply D; reflexivity | now right]. }
  assert (G2 : contains (u "&gt;") s2 = false).
  { apply replace_clean; try (cbv; discriminate);
      [apply D; reflexivity | now left]. }
  assert (L3 : contains (u "&lt;") s3 = false).
  { apply replace_clean; try (cbv; discriminate);
      [apply D; reflexivity | now right]. }
  assert (G3 : contains (u "&gt;") s3 = false).
  { apply replace_clean; try (cbv; discriminate);
      [apply D; reflexivity | now right]. }
  split; [|split; [|split]].
  - apply replace_clean; try (cbv; discriminate);
      [apply D; reflexivity | now right].
  - apply replace_clean; try (cbv; discriminate);
      [apply D; reflexivity | now right].
  - apply replace_clean; try (cbv; discriminate);
      [apply D; reflexivity | now left].
  - intros Hamp.
    assert (A : forall x, In 38%N x -> x <> [] ->
                          forall new, replace ld x new = ld).
    { intros x Hx Hne new. apply replace_absent; [exact Hne|].
      now apply (contains_needs_char x ld 38%N). }
    unfold s3, s2, s1.
    rewrite !A; try (cbv; discriminate); try reflexivity;
      cbv; intuition.
Qed.

Lemma repair_leaves_no_entity_witness :
  repair (uq "{'@type': 'Book'}") = uq "{'@type': 'Book'}".
Proof.
  apply (proj2 (proj2 (proj2 (repair_leaves_no_entity
                                (uq "{'@type': 'Book'}"))))).
  vm_compute. intuition discriminate.
Defined.

(** ** Choosing the block and the meta entries *)



Lemma filter_filter_implied {A} (f g : A -> bool) (l : list A) :
  (forall x, f x = true -> g x = true) ->
  filter f (filter g l) = filter f l.
Proof.
  intros H. induction l as [|a l IH]; [reflexivity|].
  cbn [filter]. destruct (g a) eqn:G.
  - cbn [filter]. now rewrite IH.
  - rewrite IH. destruct (f a) eqn:F; [|reflexivity].
    apply H in F. congruence.
Qed.

(** X6: the selection of the meta entries whose property starts with
    "og" or "books" does not change what [_find_meta] finds for a property
    that starts with one of the two; for any other property [_find_meta]
    finds nothing among the selected entries and raises [IndexError], even
    when the page has such an entry. *)
Theorem find_meta_among_selected (root : document) (property : str) :
  (startswith property (u "og") || startswith property (u "books") = true ->
   _find_meta (meta_nodes root) property
   = _find_meta (head_meta root) property) /\
  (startswith property (u "og") || startswith property (u "books") = false ->
   _find_meta (meta_nodes root) property = Raise IndexError).
Proof.
  unfold _find_meta, meta_nodes. split; intros H.
  - rewrite filter_filter_implied; [reflexivity|].
    intros e He. apply property_is_get in He. now rewrite He.
  - assert (filter (property_is property)
              (filter (fun e =>
                         match get e (u "property") with
                         | Some p =>
                             startswith p (u "og")
                             || startswith p (u "books")
                         | None => false
                         end) (head_meta root)) = []) as ->;
      [|reflexivity].
    apply filter_none. intros e He. apply filter_In in He as [_ He].
    destruct (property_is property e) eqn:E; [|reflexivity].
    apply property_is_get in E. rewrite E in He. congruence.
Qed.

Lemma find_meta_among_selected_witness :
  _find_meta (meta_nodes Page.good) (u "og:title")
  = _find_meta (head_meta Page.good) (u "og:title") /\
  _find_meta (meta_nodes
                {| head_meta := [Page.meta "twitter:title" "t"];
                   head_ld_json := []; info_category_wrap := [] |})
             (u "twitter:title")
  = Raise IndexError.
Proof.
  split.
  - apply (proj1 (find_meta_among_selected Page.good (u "og:title"))).
    reflexivity.
  - apply (proj2 (find_meta_among_selected _ (u "twitter:title"))).
    reflexivity.
Defined.

(** ** Tags of the page *)

Section Keywords.

Lemma slice_inner (c d : char) (body : str) :
  slice (c :: body ++ [d]) 1 (List.length (c :: body ++ [d]) - 1) = body.
Proof.
  unfold slice. cbn [List.length skipn]. rewrite length_app. cbn [List.length].
  replace (S (List.length body + 1) - 1 - 1) with (List.length body + 0)
    by lia.
  rewrite firstn_app_2. cbn [firstn]. apply app_nil_r.
Qed.

Lemma slice_short (k : str) :
  List.length k <= 2 -> slice k 1 (List.length k - 1) = [].
Proof.
  intros H. unfold slice.
  destruct k as [|a [|b [|c k]]]; cbn in *; try reflexivity. lia.
Qed.

Lemma keyword_tags_str (members : list (str * json)) (k : str) :
  lookup (u "keywords") members = Some (JStr k) ->
  keyword_tags (JObj members)
  = Ok (split (slice k 1 (List.length k - 1)) (uq "', '")).
Proof.
  intros H. unfold keyword_tags, json_in, getitem. rewrite H. reflexivity.
Qed.

End Keywords.

(** X7: a 'keywords' field written as the page writes it (the keywords
    between double quotes, held together by a double quote, a comma, a
    space and a double quote) is read back as the list of the keywords,
    when there is at least one keyword and none has a double quote in
    it. *)
Theorem keyword_tags_of_text (members : list (str * json))
        (ks : list str) :
  ks <> [] ->
  (forall k, In k ks -> ~ In dquote k) ->
  lookup (u "keywords") members = Some (JStr (Shape.keywords_text ks)) ->
  keyword_tags (JObj members) = Ok ks.
Proof.
  intros Hne Hq H. rewrite (keyword_tags_str _ _ H). f_equal.
  unfold Shape.keywords_text. rewrite slice_inner.
  change (uq "', '") with (dquote :: [44%N; 32%N; dquote]).
  now apply split_join.
Qed.

Lemma keyword_tags_of_text_witness :
  keyword_tags (JObj [(u "@type", JStr (u "Book"));
                      (u "keywords", JStr (uq "'magic', 'school, days'"))])
  = Ok [u "magic"; u "school, days"].
Proof.
  apply (keyword_tags_of_text _ [u "magic"; u "school, days"]).
  - discriminate.
  - intros k [<-|[<-|[]]]; vm_compute; intuition discriminate.
  - reflexivity.
Defined.

(** X8: the edges of the keywords.  A Book record without a 'keywords'
    field gives no keyword; a field that is a string always gives at least
    one, and a string of at most two characters (the empty string, or the
    two quotes alone) gives the empty keyword alone; a field that is a
    list raises [AttributeError], and one that is null, a boolean or a
    number raises [TypeError]. *)
Theorem keyword_tags_edges (members : list (str * json)) :
  (lookup (u "keywords") members = None ->
   keyword_tags (JObj members) = Ok []) /\
  (forall k,
      lookup (u "keywords") members = Some (JStr k) ->
      exists first more,
        keyword_tags (JObj members) = Ok (first :: more) /\
        (List.length k <= 2 -> first = [] /\ more = [])) /\
  (forall items,
      lookup (u "keywords") members = Some (JArr items) ->
      keyword_tags (JObj members) = Raise AttributeError) /\
  (forall v,
      lookup (u "keywords") members = Some v ->
      v = JNull \/ (exists b, v = JBool b) \/ (exists n, v = JNum n) ->
      keyword_tags (JObj members) = Raise TypeError).
Proof.
  repeat split.
  - intros H. unfold keyword_tags, json_in. now rewrite H.
  - intros k H. rewrite (keyword_tags_str _ _ H).
    destruct (split (slice k 1 (List.length k - 1)) (uq "', '"))
      as [|first more] eqn:E.
    + exfalso. revert E. unfold split. apply split_fuel_nonempty.
    + exists first, more. split; [reflexivity|]. intros Hk.
      rewrite (slice_short k Hk) in E. vm_compute in E.
      inversion E. now split.
  - intros items H. unfold keyword_tags, json_in, getitem. now rewrite H.
  - intros v H [-> | [[b ->] | [n ->]]];
      unfold keyword_tags, json_in, getitem; now rewrite H.
Qed.

Lemma keyword_tags_edges_witness :
  keyword_tags (JObj [(u "name", JStr (u "t"))]) = Ok [] /\
  (exists first more,
      keyword_tags (JObj [(u "keywords", JStr [])]) = Ok (first :: more) /\
      (List.length (@nil char) <= 2 -> first = [] /\ more = [])) /\
  keyword_tags (JObj [(u "keywords", JArr [JStr (u "magic")])])
  = Raise AttributeError /\
  keyword_tags (JObj [(u "keywords", JNull)]) = Raise TypeError.
Proof.
  split; [|split; [|split]].
  - apply (proj1 (keyword_tags_edges [(u "name", JStr (u "t"))])).
    reflexivity.
  - apply (proj1 (proj2 (keyword_tags_edges [(u "keywords", JStr [])]))).
    reflexivity.
  - apply (proj1 (proj2 (proj2 (keyword_tags_edges
                                  [(u "keywords",
                                    JArr [JStr (u "magic")])])))
             [JStr (u "magic")]).
    reflexivity.
  - apply (proj2 (proj2 (proj2 (keyword_tags_edges
                                  [(u "keywords", JNull)]))) JNull).
    + reflexivity.
    + now left.
Defined.

Section Genres.
Context {RT : Runtime}.

Lemma genre_loop_added (nodes : list genre_node) (genre_tags : list str) :
  genre_loop nodes genre_tags true
  = Ok (genre_tags
        ++ flat_map (fun node => map strip (sub_genre_nodes node)) nodes).
Proof.
  revert genre_tags. induction nodes as [|node rest IH]; intros acc.
  - cbn. now rewrite app_nil_r.
  - cbn [genre_loop rbind flat_map]. rewrite IH. now rewrite app_assoc.
Qed.

End Genres.

(** X9: the genre tags are the text of the first link of the FIRST
    breadcrumb container, as it is, followed by the stripped texts of the
    sub-genre links of all the containers in their order.  The loop raises
    [IndexError] when the first container has no link, and only then: a
    later container without a link does no harm, and its first link is
    never read. *)
Theorem genre_loop_main_then_subs {RT : Runtime}
        (first : genre_node) (rest : list genre_node) :
  genre_loop (first :: rest) [] false
  = match a1 first with
    | [] => Raise IndexError
    | main :: _ =>
        Ok (main :: flat_map (fun node => map strip (sub_genre_nodes node))
                             (first :: rest))
    end.
Proof.
  cbn [genre_loop]. unfold index.
  destruct (a1 first) as [|main others]; [reflexivity|].
  cbn [nth_error rbind app]. rewrite genre_loop_added. reflexivity.
Qed.

Section ParseTags.
Context {RT : Runtime}.

(** How [parse_tags] ends, without what it logs. *)
Lemma parse_tags_result (w : Worker) (root : document) :
  snd (parse_tags w root)
  = (book_info <-- book_block root ;;
     all_tags <-- keyword_tags book_info ;;
     all_tags <-- match info_category_wrap root with
                  | [] => Ok all_tags
                  | genres_node =>
                      genre_tags <-- genre_loop genres_node [] false ;;
                      Ok (match all_tags with
                          | [] => genre_tags
                          | _ => all_tags ++ genre_tags
                          end)
                  end ;;
     let calibre_tags :=
       _convert_genres_to_calibre_tags (genre_mappings w) all_tags in
     Ok (match calibre_tags with
         | [] => None
         | _ => Some calibre_tags
         end)).
Proof.
  unfold parse_tags. rewrite bind_emit. cbn [snd].
  destruct (book_block root) as [book_info|e];
    [rewrite bind_lift_ok | reflexivity].
  cbn [rbind].
  destruct (keyword_tags book_info) as [all_tags|e];
    [rewrite bind_lift_ok | reflexivity].
  cbn [rbind].
  match goal with
  | |- context [bind (lift ?r) _] => destruct r
  end; [rewrite bind_lift_ok | reflexivity].
  cbv zeta. unfold ret. cbn [snd rbind]. reflexivity.
Qed.

Lemma convert_genres_nil (calibre_tag_lookup : list (str * list str))
      (genre_tags : list str) :
  _convert_genres_to_calibre_tags calibre_tag_lookup genre_tags = [] ->
  genre_tags = [].
Proof.
  unfold _convert_genres_to_calibre_tags. rewrite convert_loop_fold.
  destruct genre_tags as [|t rest]; [reflexivity|]. intros H. exfalso.
  assert (exists x, In x (Spec.expansion
                            (calibre_tag_map calibre_tag_lookup) t))
    as [x Hx].
  { unfold Spec.expansion.
    destruct (lookup (lower t) (calibre_tag_map calibre_tag_lookup))
      as [[|y ys]|]; eexists; now left. }
  assert (In x (fold_left add_tag
                  (flat_map (Spec.expansion
                               (calibre_tag_map calibre_tag_lookup))
                            (t :: rest)) [])) as Hin.
  { apply add_tags_In. right. cbn [flat_map]. apply in_or_app. now left. }
  rewrite H in Hin. exact Hin.
Qed.

Lemma convert_genres_NoDup (calibre_tag_lookup : list (str * list str))
      (genre_tags : list str) :
  NoDup (_convert_genres_to_calibre_tags calibre_tag_lookup genre_tags).
Proof.
  unfold _convert_genres_to_calibre_tags. rewrite convert_loop_fold.
  apply add_tags_NoDup. constructor.
Qed.

Lemma keyword_tags_nil (book_info : json) :
  keyword_tags book_info = Ok [] ->
  json_in (u "keywords") book_info = Ok false.
Proof.
  unfold keyword_tags.
  destruct (json_in (u "keywords") book_info) as [[|]|e];
    cbn [rbind]; [|reflexivity|discriminate].
  destruct (getitem book_info (u "keywords")) as [v|e];
    cbn [rbind]; [|discriminate].
  destruct v; try discriminate. intros H. exfalso.
  inversion H as [E]. revert E. unfold split. apply split_fuel_nonempty.
Qed.



Lemma genre_loop_nonempty (nodes : list genre_node)
      (genre_tags : list str) :
  nodes <> [] -> genre_loop nodes [] false = Ok genre_tags ->
  genre_tags <> [].
Proof.
  destruct nodes as [|first rest]; [congruence|]. intros _.
  cbn [genre_loop]. unfold index.
  destruct (a1 first) as [|main others]; [discriminate|].
  cbn [nth_error rbind app]. rewrite genre_loop_added.
  intros H. inversion H. discriminate.
Qed.

(** A page whose fields were all read has a Book record that is an
    object, and [parse_tags] decodes the same one. *)
Lemma extract_fields_book (w : Worker) (root : document) (f : Fields.t) :
  extract_fields w root = Ok f ->
  book_block root = Ok (Fields.book_info f) /\
  exists members, Fields.book_info f = JObj members.
Proof.
  unfold extract_fields. intros H.
  destruct (book_block root) as [book_info|] eqn:B; [|discriminate H].
  cbn [rbind] in H.
  repeat match type of H with
         | rbind (rbind (name_of book_info (u "author")) _) _ = Ok _ => fail 1
         | rbind ?r _ = Ok _ =>
             destruct r; cbn [rbind] in H; [|discriminate H]
         end.
  assert (exists members, book_info = JObj members) as Hobj.
  { unfold name_of, getitem in H. destruct book_info; try discriminate H.
    now eexists. }
  repeat match type of H with
         | rbind ?r _ = Ok _ =>
             destruct r; cbn [rbind] in H; [|discriminate H]
         end.
  inversion H; subst f. cbn [Fields.book_info]. now split.
Qed.

End ParseTags.

(** X10: what [parse_tags] returns.  A list of tags it returns is never
    empty and has no tag twice; and it returns [None] exactly when the
    Book record decodes, has no 'keywords' field, and the page has no
    breadcrumb container. *)
Theorem parse_tags_none_or_tags {RT : Runtime}
        (w : Worker) (root : document) :
  (forall tags,
      snd (parse_tags w root) = Ok (Some tags) ->
      tags <> [] /\ NoDup tags) /\
  (snd (parse_tags w root) = Ok None <->
   (exists book_info,
       book_block root = Ok book_info /\
       json_in (u "keywords") book_info = Ok false) /\
   info_category_wrap root = []).
Proof.
  rewrite parse_tags_result. cbv zeta. split; [|split].
  - intros tags H.
    destruct (book_block root) as [book_info|]; [|discriminate H].
    cbn [rbind] in H.
    destruct (keyword_tags book_info) as [all_tags|]; [|discriminate H].
    cbn [rbind] in H.
    match type of H with
    | rbind ?r _ = _ => destruct r as [all|]; [|discriminate H]
    end.
    cbn [rbind] in H.
    pose proof (convert_genres_NoDup (genre_mappings w) all) as Hnd.
    destruct (_convert_genres_to_calibre_tags (genre_mappings w) all)
      as [|t l]; [discriminate H|].
    inversion H; subst tags. split; [discriminate | exact Hnd].
  - intros H.
    destruct (book_block root) as [book_info|]; [|discriminate H].
    cbn [rbind] in H.
    destruct (keyword_tags book_info) as [all_tags|] eqn:K;
      [|discriminate H].
    cbn [rbind] in H.
    destruct (info_category_wrap root) as [|first rest] eqn:G.
    + cbn [rbind] in H.
      destruct (_convert_genres_to_calibre_tags (genre_mappings w) all_tags)
        as [|t l] eqn:C; [|discriminate H].
      apply convert_genres_nil in C. subst all_tags.
      split; [|reflexivity]. exists book_info.
      split; [reflexivity | now apply keyword_tags_nil].
    + exfalso.
      destruct (genre_loop (first :: rest) [] false) as [genre_tags|] eqn:L;
        [|discriminate H].
      apply genre_loop_nonempty in L; [|discriminate].
      cbn [rbind] in H.
      match type of H with
      | context [_convert_genres_to_calibre_tags ?m ?a] =>
          destruct (_convert_genres_to_calibre_tags m a) as [|t l] eqn:C;
            [|discriminate H]
      end.
      apply convert_genres_nil in C.
      destruct all_tags as [|k ks]; [congruence|discriminate C].
  - intros [(book_info & -> & J) ->]. cbn [rbind].
    unfold keyword_tags. rewrite J. reflexivity.
Qed.

Lemma parse_tags_none_or_tags_witness :
  (exists tags,
      snd (@parse_tags sample_runtime (Page.worker (Some Page.good))
             Page.good) = Ok (Some tags) /\
      tags <> [] /\ NoDup tags) /\
  snd (@parse_tags sample_runtime (Page.worker None)
         {| head_meta := [];
            head_ld_json := [uq "{'@type': 'Book'}"];
            info_category_wrap := [] |})
  = Ok None.
Proof.
  split.
  - eexists. split; [vm_compute; reflexivity|].
    apply (proj1 (@parse_tags_none_or_tags sample_runtime
                    (Page.worker (Some Page.good)) Page.good)).
    vm_compute. reflexivity.
  - apply (proj2 (@parse_tags_none_or_tags sample_runtime _ _)).
    split; [|reflexivity]. eexists. split; vm_compute; reflexivity.
Defined.



(** ** Keys of the genre mapping *)

Section MappingKeys.
Context {RT : Runtime}.





End MappingKeys.



(** ** Where the series is found *)

Section SeriesFound.
Context {RT : Runtime}.

Lemma digit_before_split (mk : char) (s : str) :
  Shape.digit_before mk s = true <->
  exists a c rest, s = a ++ c :: mk :: rest /\ isdigit c = true.
Proof.
  induction s as [|x s IH].
  - split; [discriminate|]. intros (a & c & rest & E & _).
    destruct a; discriminate E.
  - destruct s as [|d s'].
    + split; [discriminate|]. intros (a & c & rest & E & _).
      destruct a as [|y [|z a]]; discriminate E.
    + change (Shape.digit_before mk (x :: d :: s'))
        with (isdigit x && (d =? mk)%N
              || Shape.digit_before mk (d :: s')).
      rewrite orb_true_iff, andb_true_iff, N.eqb_eq, IH. split.
      * intros [[Hx ->] | (a & c & rest & E & Hc)].
        -- now exists [], x, s'.
        -- exists (x :: a), c, rest. cbn [app]. now rewrite E.
      * intros (a & c & rest & E & Hc). destruct a as [|y a].
        -- cbn [app] in E. inversion E; subst. now left.
        -- cbn [app] in E. inversion E; subst. right.
           now exists a, c, rest.
Qed.

(** A title without newline that has a digit before the marker has a
    match of the pattern at its start. *)
Lemma series_found (mk : char) (a : str) (c : char) (rest : str) :
  ~ In 10%N a -> isdigit c = true ->
  Re.search (series_pattern mk) (a ++ c :: mk :: rest) <> None.
Proof.
  intros Hnl Hc.
  assert (Re.match_here (series_pattern mk) true Re.mstart
            (a ++ c :: mk :: rest) <> None) as H.
  { rewrite series_pattern_head. apply star_complete.
    - now apply forallb_dot.
    - now apply tail_last_digit. }
  unfold Re.search.
  destruct (a ++ c :: mk :: rest) as [|x s]; cbn [Re.search_from];
    destruct (Re.match_here (series_pattern mk) true Re.mstart _)
    as [[m r]|]; congruence.
Qed.

(** The greedy first group runs up to the last digit that stands before
    the marker. *)
Lemma greedy_last_pair (mk : char) (at0 : bool) (st : Re.mstate)
      (s : str) (m : Re.mstate) (rest : str) :
  ~ In 10%N s ->
  Re.match_here (Re.Star Re.Dot :: series_tail mk) at0 st s = Some (m, rest) ->
  Shape.digit_before mk (mk :: rest) = false.
Proof.
  intros Hnl H.
  apply star_sound in H as (a & t & Hs & _ & H & Hmax).
  apply tail_shape in H as (sp & c & dg & Ht & _).
  destruct (Shape.digit_before mk (mk :: rest)) eqn:D; [|reflexivity].
  exfalso. apply digit_before_split in D as (x & c' & rest' & E & Hc').
  apply (tail_last_digit mk at0
           (Re.takes (a ++ (sp ++ c :: dg ++ x)) st) c' rest' Hc').
  apply Hmax.
  - destruct sp; discriminate.
  - rewrite Ht, E, <- !app_assoc. cbn [app]. now rewrite <- app_assoc.
  - apply forallb_dot. intros Hin. apply Hnl. rewrite Hs, Ht, E.
    apply in_or_app. right.
    apply in_app_or in Hin as [Hin|Hin]; [apply in_or_app; now left|].
    apply in_or_app. right. destruct Hin as [<-|Hin]; [now left|].
    right. apply in_app_or in Hin as [Hin|Hin];
      apply in_or_app; [now left|right].
    apply in_or_app. now left.
Qed.

Lemma search_last_pair (mk : char) (title : str) (m : Re.mstate) :
  ~ In 10%N title ->
  Re.search (series_pattern mk) title = Some m ->
  exists c rest,
    title = Re.group 1 m ++ c :: mk :: rest /\
    isdigit c = true /\
    Re.group 2 m = [c] /\
    Shape.digit_before mk (mk :: rest) = false.
Proof.
  intros Hnl H. unfold Re.search in H.
  destruct (Re.match_here (series_pattern mk) true Re.mstart title)
    as [[m' rest]|] eqn:G.
  - assert (m' = m) as ->.
    { destruct title; cbn [Re.search_from] in H; rewrite G in H;
        now inversion H. }
    rewrite series_pattern_head in G.
    pose proof (greedy_last_pair _ _ _ _ _ _ Hnl G) as Hlast.
    apply greedy_leaves_one_digit in G as (a & c & Hs & Hc & G2 & G1);
      [|exact Hnl].
    exists c, rest. rewrite (G1 0 eq_refl). cbn [skipn]. auto.
  - rewrite (search_at_head mk title true Hnl G) in H. discriminate.
Qed.

Lemma title_series_marker (title : str) :
  title_series (Some title)
  = match Re.search (series_pattern (Shape.marker_of title)) title with
    | Some m =>
        index <-- float (Re.group 2 m) ;;
        Ok (Some (Re.group 1 m, index))
    | None => Ok None
    end.
Proof.
  unfold title_series, Shape.marker_of.
  now destruct (endswith title [volume]).
Qed.

End SeriesFound.

(** X13: in a title without newline a series is found exactly when some
    digit stands right before the marker (the volume marker when the title
    ends with it, the episode marker otherwise); and the name is then the
    title up to the LAST such digit, which alone gives the index. *)
Theorem title_series_found_iff {RT : Runtime} (title : str) :
  ~ In 10%N title ->
  (title_series (Some title) = Ok None <->
   Shape.digit_before (Shape.marker_of title) title = false) /\
  (forall name index,
      title_series (Some title) = Ok (Some (name, index)) ->
      exists c rest,
        title = name ++ c :: Shape.marker_of title :: rest /\
        isdigit c = true /\
        float [c] = Ok index /\
        Shape.digit_before (Shape.marker_of title)
                           (Shape.marker_of title :: rest) = false).
Proof.
  intros Hnl. rewrite title_series_marker.
  set (mk := Shape.marker_of title). split; [split|].
  - intros H. destruct (Shape.digit_before mk title) eqn:D; [|reflexivity].
    apply digit_before_split in D as (a & c & rest & E & Hc).
    assert (Re.search (series_pattern mk) title <> None) as S.
    { rewrite E. apply series_found; [|exact Hc].
      intros Hin. apply Hnl. rewrite E. apply in_or_app. now left. }
    destruct (Re.search (series_pattern mk) title) as [m|] eqn:Sm;
      [|congruence].
    destruct (float_of_group mk title m Sm) as [index F].
    rewrite F in H. discriminate H.
  - intros D.
    destruct (Re.search (series_pattern mk) title) as [m|] eqn:S;
      [|reflexivity].
    apply search_series in S as (c & rest & E & Hc & _); [|exact Hnl].
    assert (Shape.digit_before mk title = true) as D'
        by (apply digit_before_split; eauto).
    congruence.
  - intros name index H.
    destruct (Re.search (series_pattern mk) title) as [m|] eqn:S;
      [|discriminate H].
    apply search_last_pair in S as (c & rest & E & Hc & G2 & Hlast);
      [|exact Hnl].
    rewrite G2 in H.
    destruct (float [c]) as [i|] eqn:F; [|discriminate H].
    cbn [rbind] in H. injection H as <- <-. now exists c, rest.
Qed.

Lemma title_series_found_iff_witness :
  @title_series sample_runtime (Some (u "Vol 3")) = Ok None /\
  exists c rest,
    u "1권 2권" = u "1권 " ++ c :: volume :: rest /\
    @float sample_runtime [c] = Ok (FInt 2) /\
    @Shape.digit_before sample_runtime volume (volume :: rest) = false.
Proof.
  assert (~ In 10%N (u "Vol 3")) as N1 by (vm_compute; intuition discriminate).
  assert (~ In 10%N (u "1권 2권")) as N2
      by (vm_compute; intuition discriminate).
  split.
  - apply (proj1 (@title_series_found_iff sample_runtime (u "Vol 3") N1)).
    vm_compute. reflexivity.
  - destruct (proj2 (@title_series_found_iff sample_runtime (u "1권 2권") N2)
                (u "1권 ") (FInt 2))
      as (c & rest & E & _ & F & L).
    + vm_compute. reflexivity.
    + exists c, rest. repeat split; assumption.
Defined.

(** ** The table of languages *)

Section Languages.

Lemma fold_dict_set_lookup {A} (pairs : list (str * A))
      (d : list (str * A)) (k : str) :
  lookup k (fold_left (fun d (p : str * A) => dict_set (fst p) (snd p) d)
                      pairs d)
  = match lookup k (rev pairs) with
    | Some v => Some v
    | None => lookup k d
    end.
Proof.
  induction pairs as [|[k' v] pairs IH] using rev_ind; [reflexivity|].
  rewrite fold_left_app, rev_app_distr. cbn. rewrite lookup_dict_set, IH.
  now destruct (PyStr.eqb k' k).
Qed.

Lemma lang_map_of_pairs (table : list (str * list str))
      (d : list (str * str)) :
  fold_left
    (fun lang_map (entry : str * list str) =>
       fold_left (fun lang_map name => dict_set name (fst entry) lang_map)
                 (snd entry) lang_map)
    table d
  = fold_left (fun d (p : str * str) => dict_set (fst p) (snd p) d)
              (Shape.name_codes table) d.
Proof.
  revert d. induction table as [|[code names] table IH]; intros d;
    [reflexivity|].
  unfold Shape.name_codes. cbn [fold_left flat_map fst snd].
  rewrite fold_left_app. fold (Shape.name_codes table). rewrite IH.
  f_equal. clear IH. revert d.
  induction names as [|name names IHn]; intros d; [reflexivity|].
  cbn [fold_left map fst snd]. apply IHn.
Qed.

End Languages.

(** X14: [lang_map] answers a name with the code of the last entry of the
    table that lists the name; when no name is listed twice, as in the
    table of the worker, it holds exactly the names of the table, each with
    the code it is listed under. *)
Theorem lang_map_of_names (table : list (str * list str)) :
  (forall name,
      lookup name (lang_map_of table)
      = lookup name (rev (Shape.name_codes table))) /\
  (NoDup (map fst (Shape.name_codes table)) ->
   forall name code,
     lookup name (lang_map_of table) = Some code <->
     exists names, In (code, names) table /\ In name names).
Proof.
  assert (forall name,
             lookup name (lang_map_of table)
             = lookup name (rev (Shape.name_codes table))) as H.
  { intros name. unfold lang_map_of.
    rewrite lang_map_of_pairs, fold_dict_set_lookup.
    now destruct (lookup name (rev (Shape.name_codes table))). }
  split; [exact H|]. intros Hnd name code.
  rewrite H, (lookup_rev name _ Hnd).
  assert (In (name, code) (Shape.name_codes table) <->
          exists names, In (code, names) table /\ In name names) as <-.
  { unfold Shape.name_codes. rewrite in_flat_map. split.
    - intros ([c names] & Hin & Hn). cbn [fst snd] in Hn.
      apply in_map_iff in Hn as (n & E & Hn). inversion E; subst.
      now exists names.
    - intros (names & Hin & Hn). exists (code, names).
      split; [exact Hin|]. apply in_map_iff. now exists name. }
  split; [apply lookup_Some_In | now apply lookup_In].
Qed.

Lemma lang_map_of_names_witness :
  lookup (u "한국어") lang_map = Some (u "kor") /\
  lookup (u "Espaniol") lang_map = Some (u "spa") /\
  lookup (u "kor") lang_map = None.
Proof.
  assert (NoDup (map fst (Shape.name_codes lm))) as Hnd.
  { assert (nodup Spec.str_eq_dec (map fst (Shape.name_codes lm))
            = map fst (Shape.name_codes lm)) as <-
        by (vm_compute; reflexivity).
    apply NoDup_nodup. }
  split; [|split].
  - apply (proj2 (lang_map_of_names lm) Hnd).
    exists [u "Korean"; u "한국어"]. split; [|now right; left].
    unfold lm. do 7 right. now left.
  - apply (proj2 (lang_map_of_names lm) Hnd).
    exists [u "Spanish"; u "Español"; u "Espaniol"].
    split; [|now right; right; left].
    unfold lm. do 5 right. now left.
  - vm_compute. reflexivity.
Defined.

(** ** The aliases of the bundled packages *)

Section Aliases.

Lemma alias_inj (a b : str) : Packages.alias a = Packages.alias b -> a = b.
Proof. unfold Packages.alias. apply app_inv_head. Qed.

Lemma belongs_unprefixed (package mod_name : str) :
  startswith package (u "r") = false ->
  Packages.belongs package mod_name = true ->
  startswith mod_name (u "requests.packages.") = false.
Proof.
  intros Hp H. unfold Packages.belongs in H.
  assert (startswith mod_name (package ++ u ".") = true
          -> startswith mod_name (u "requests.packages.") = false) as Hs.
  { intros S. apply startswith_skipn in S. rewrite S.
    destruct package as [|c p]; [reflexivity|].
    change (u "r") with [114%N] in Hp. cbn [startswith] in Hp.
    rewrite startswith_nil, andb_true_r in Hp.
    change (u "requests.packages.")
      with (114%N :: u "equests.packages.").
    cbn [app startswith]. now rewrite Hp. }
  apply orb_true_iff in H as [H|H]; [|now apply Hs].
  apply eqb_eq in H. subst mod_name.
  destruct package as [|c p]; [reflexivity|].
  change (u "r") with [114%N] in Hp. cbn [startswith] in Hp.
  rewrite startswith_nil, andb_true_r in Hp.
  change (u "requests.packages.") with (114%N :: u "equests.packages.").
  cbn [startswith]. now rewrite Hp.
Qed.

Lemma belongs_not_alias (package mod_name other : str) :
  startswith package (u "r") = false ->
  Packages.belongs package mod_name = true ->
  mod_name <> Packages.alias other.
Proof.
  intros Hp H E. apply (belongs_unprefixed _ _ Hp) in H.
  rewrite E in H. unfold Packages.alias in H.
  now rewrite startswith_app in H.
Qed.

Lemma lookup_key {A} (k : str) (d : list (str * A)) :
  In k (map fst d) -> lookup k d <> None.
Proof.
  intros H E. apply in_map_iff in H as ([k' v] & <- & Hin).
  now apply (lookup_None_In _ _ E v).
Qed.

(** The inner loop, part of the way: the names [done] have been seen and
    [todo] are to come. *)
Lemma alias_steps (package : str) (sys_modules : Packages.modules) :
  startswith package (u "r") = false ->
  forall (todo done : list str) (state : Packages.modules),
    (forall name, In name todo -> In name (map fst sys_modules)) ->
    (forall name,
        In name done -> Packages.belongs package name = true ->
        lookup (Packages.alias name) state = lookup name sys_modules) ->
    (forall name,
        (forall m, In m done -> Packages.belongs package m = true ->
                   name <> Packages.alias m) ->
        lookup name state = lookup name sys_modules) ->
    exists aliased,
      fold_left (Packages.alias_step package) todo (Ok state) = Ok aliased /\
      (forall name,
          In name (done ++ todo) -> Packages.belongs package name = true ->
          lookup (Packages.alias name) aliased = lookup name sys_modules) /\
      (forall name,
          (forall m, In m (done ++ todo) ->
                     Packages.belongs package m = true ->
                     name <> Packages.alias m) ->
          lookup name aliased = lookup name sys_modules).
Proof.
  intros Hp. induction todo as [|mod_name todo IH];
    intros done state Hkeys I1 I2.
  - exists state. rewrite app_nil_r. now split.
  - cbn [fold_left]. unfold Packages.alias_step at 2. cbn [rbind].
    assert (In mod_name (map fst sys_modules)) as Hk
        by (apply Hkeys; now left).
    assert (forall name, In name todo -> In name (map fst sys_modules))
      as Hkeys' by (intros name Hn; apply Hkeys; now right).
    replace (done ++ mod_name :: todo) with ((done ++ [mod_name]) ++ todo)
      by now rewrite <- app_assoc.
    destruct (Packages.belongs package mod_name) eqn:B.
    + assert (lookup mod_name state = lookup mod_name sys_modules) as L.
      { apply I2. intros m _ _. now apply (belongs_not_alias package). }
      rewrite L.
      destruct (lookup mod_name sys_modules) as [object|] eqn:O;
        [|now apply lookup_key in Hk].
      apply IH; [exact Hkeys'| |].
      * intros name Hin Hb. rewrite lookup_dict_set.
        destruct (PyStr.eqb (Packages.alias mod_name) (Packages.alias name))
          eqn:E.
        -- apply eqb_eq, alias_inj in E. now subst name.
        -- apply I1; [|exact Hb].
           apply in_app_or in Hin as [Hin|[<-|[]]]; [exact Hin|].
           now rewrite eqb_refl in E.
      * intros name Hno. rewrite lookup_dict_set.
        destruct (PyStr.eqb (Packages.alias mod_name) name) eqn:E.
        -- apply eqb_eq in E. exfalso.
           apply (Hno mod_name); [|exact B|now symmetry].
           apply in_or_app. right. now left.
        -- apply I2. intros m Hm. apply Hno. apply in_or_app. now left.
    + apply IH; [exact Hkeys'| |].
      * intros name Hin Hb.
        apply in_app_or in Hin as [Hin|[<-|[]]]; [now apply I1|congruence].
      * intros name Hno. apply I2. intros m Hm. apply Hno.
        apply in_or_app. now left.
Qed.

(** What the inner loop does to every name. *)
Lemma alias_package_names (package : str) (sys_modules : Packages.modules) :
  startswith package (u "r") = false ->
  exists aliased,
    Packages.alias_package package sys_modules = Ok aliased /\
    (forall name,
        Packages.belongs package name = true ->
        lookup name sys_modules <> None ->
        lookup (Packages.alias name) aliased = lookup name sys_modules) /\
    (forall name,
        (forall m, name = Packages.alias m ->
                   Packages.belongs package m = true ->
                   lookup m sys_modules = None) ->
        lookup name aliased = lookup name sys_modules).
Proof.
  intros Hp.
  destruct (alias_steps package sys_modules Hp (map fst sys_modules) []
              sys_modules) as (aliased & E & A1 & A2).
  - auto.
  - intros name [].
  - reflexivity.
  - exists aliased. split; [exact E|]. cbn [app] in A1, A2. split.
    + intros name B L. apply A1; [|exact B].
      destruct (lookup name sys_modules) as [object|] eqn:O; [|congruence].
      apply lookup_Some_In in O. apply in_map_iff. now exists (name, object).
    + intros name Hno. apply A2. intros m Hm B E'.
      apply lookup_key in Hm. apply Hm. now apply Hno.
Qed.

End Aliases.

(** X15: the inner loop of the shim, for a package whose name does not
    start with the letter r (as none of the three does).  It does not
    raise; every module of the package, the package itself and the modules
    whose names start with the package name and a dot, is afterwards
    registered also under "requests.packages." followed by its name, with
    the very same object, and keeps its own entry; and no other name of
    [sys.modules] changes. *)
Theorem alias_package_registers
        (package : str) (sys_modules : Packages.modules) :
  startswith package (u "r") = false ->
  exists aliased,
    Packages.alias_package package sys_modules = Ok aliased /\
    (forall name object,
        Packages.belongs package name = true ->
        lookup name sys_modules = Some object ->
        lookup (Packages.alias name) aliased = Some object /\
        lookup name aliased = Some object) /\
    (forall name,
        (forall m, name = Packages.alias m ->
                   Packages.belongs package m = true ->
                   lookup m sys_modules = None) ->
        lookup name aliased = lookup name sys_modules).
Proof.
  intros Hp.
  destruct (alias_package_names package sys_modules Hp)
    as (aliased & E & A1 & A2).
  exists aliased. split; [exact E|]. split; [|exact A2].
  intros name object B L. split.
  - rewrite A1; [exact L | exact B | congruence].
  - rewrite A2; [exact L|]. intros m E' _. exfalso.
    exact (belongs_not_alias package name m Hp B E').
Qed.

Lemma alias_package_registers_witness :
  exists aliased,
    Packages.alias_package (u "calibre.ebooks.chardet")
      [(u "sys", 1%N); (u "calibre.ebooks.chardet", 2%N);
       (u "calibre.ebooks.chardetect", 3%N);
       (u "calibre.ebooks.chardet.compat", 4%N)] = Ok aliased /\
    lookup (Packages.alias (u "calibre.ebooks.chardet.compat")) aliased
    = Some 4%N /\
    lookup (Packages.alias (u "calibre.ebooks.chardetect")) aliased
    = None.
Proof.
  destruct (alias_package_registers (u "calibre.ebooks.chardet")
              [(u "sys", 1%N); (u "calibre.ebooks.chardet", 2%N);
               (u "calibre.ebooks.chardetect", 3%N);
               (u "calibre.ebooks.chardet.compat", 4%N)])
    as (aliased & E & A1 & A2); [vm_compute; reflexivity|].
  exists aliased. split; [exact E|]. split.
  - refine (proj1 (A1 (u "calibre.ebooks.chardet.compat") 4%N _ _));
      vm_compute; reflexivity.
  - rewrite A2; [vm_compute; reflexivity|].
    intros m Hm B. apply alias_inj in Hm. subst m.
    vm_compute in B. discriminate B.
Defined.

Section Shim.
Variable import : str -> Packages.modules -> result Packages.modules.

Lemma shim_rounds_raise (ps : list str) (e : exn) :
  fold_left (Packages.shim_round import) ps (Raise e) = Raise e.
Proof. induction ps as [|p ps IH]; [reflexivity | exact IH]. Qed.

Lemma shim_rounds_raises (ps : list str) :
  (forall p, In p ps -> startswith p (u "r") = false) ->
  forall (state : Packages.modules) (e : exn),
    fold_left (Packages.shim_round import) ps (Ok state) = Raise e ->
    exists package before, In package ps /\ import package before = Raise e.
Proof.
  induction ps as [|p ps IH]; intros Hps state e H; [discriminate H|].
  cbn [fold_left] in H. unfold Packages.shim_round at 2 in H. cbn [rbind] in H.
  destruct (import p state) as [imported|e'] eqn:I.
  - cbn [rbind] in H.
    destruct (alias_package_names p imported) as (aliased & E & _);
      [apply Hps; now left|].
    rewrite E in H. apply IH in H as (q & before & Hq & Hr).
    + exists q, before. split; [now right | exact Hr].
    + intros q Hq. apply Hps. now right.
  - cbn [rbind] in H. rewrite shim_rounds_raise in H. inversion H; subst e'.
    exists p, state. split; [now left | exact I].
Qed.

Lemma shim_rounds_keep (name : str) (object : Packages.module_object) :
  startswith name (u "requests.packages.") = false ->
  (forall package before after n o,
      import package before = Ok after ->
      lookup n before = Some o -> lookup n after = Some o) ->
  forall (ps done : list str) (state final : Packages.modules),
    (forall p, In p ps -> startswith p (u "r") = false) ->
    lookup name state = Some object ->
    (forall p, In p done -> Packages.belongs p name = true ->
               lookup (Packages.alias name) state = Some object) ->
    fold_left (Packages.shim_round import) ps (Ok state) = Ok final ->
    lookup name final = Some object /\
    (forall p, In p (done ++ ps) -> Packages.belongs p name = true ->
               lookup (Packages.alias name) final = Some object).
Proof.
  intros Hname Himport.
  induction ps as [|p ps IH]; intros done state final Hps L A H.
  - inversion H; subst final. rewrite app_nil_r. now split.
  - cbn [fold_left] in H. unfold Packages.shim_round at 2 in H. cbn [rbind] in H.
    destruct (import p state) as [imported|e] eqn:I;
      [|cbn [rbind] in H; rewrite shim_rounds_raise in H; discriminate H].
    cbn [rbind] in H.
    destruct (alias_package_names p imported) as (aliased & E & A1 & A2);
      [apply Hps; now left|].
    rewrite E in H.
    replace (done ++ p :: ps) with ((done ++ [p]) ++ ps)
      by now rewrite <- app_assoc.
    assert (lookup name imported = Some object) as L'
        by exact (Himport _ _ _ _ _ I L).
    apply (IH (done ++ [p]) aliased final); [| | |exact H].
    + intros q Hq. apply Hps. now right.
    + rewrite A2; [exact L'|]. intros m Em. exfalso.
      rewrite Em in Hname. unfold Packages.alias in Hname.
      now rewrite startswith_app in Hname.
    + intros q Hq B.
      destruct (Packages.belongs p name) eqn:Bp.
      * rewrite A1; [exact L' | exact Bp | congruence].
      * rewrite A2.
        -- apply in_app_or in Hq as [Hq|[<-|[]]]; [|congruence].
           exact (Himport _ _ _ _ _ I (A q Hq B)).
        -- intros m Em Bm. apply alias_inj in Em. subst m. congruence.
Qed.

End Shim.

(** X16: the shim as a whole, whatever the imports do.  It fails only
    when one of the three imports fails, and then with what the import
    raised: registering the aliases never fails.  And when the imports
    only add to [sys.modules] (what is registered stays registered, with
    its object), a module that was registered before the shim ran, under a
    name that does not start with "requests.packages.", is still
    registered under its name afterwards; if it belongs to one of the
    three packages it is then also registered under the alias, with the
    same object. *)
Theorem shim_aliases
        (import : str -> Packages.modules -> result Packages.modules)
        (sys_modules : Packages.modules) :
  (forall e,
      Packages.shim import sys_modules = Raise e ->
      exists package before,
        In package Packages.packages /\ import package before = Raise e) /\
  (forall final,
      Packages.shim import sys_modules = Ok final ->
      (forall package before after n o,
          import package before = Ok after ->
          lookup n before = Some o -> lookup n after = Some o) ->
      forall name object,
        startswith name (u "requests.packages.") = false ->
        lookup name sys_modules = Some object ->
        lookup name final = Some object /\
        (forall package,
            In package Packages.packages ->
            Packages.belongs package name = true ->
            lookup (Packages.alias name) final = Some object)).
Proof.
  assert (forall p, In p Packages.packages -> startswith p (u "r") = false)
    as Hps.
  { intros p [<-|[<-|[<-|[]]]]; vm_compute; reflexivity. }
  unfold Packages.shim. split.
  - intros e H. exact (shim_rounds_raises import _ Hps _ _ H).
  - intros final H Himport name object Hname L.
    apply (shim_rounds_keep import name object Hname Himport
             Packages.packages [] sys_modules final Hps L); [|exact H].
    intros p [].
Qed.

Lemma shim_aliases_witness :
  exists final,
    Packages.shim (fun _ sys_modules => Ok sys_modules)
      [(u "sys", 1%N); (u "calibre.ebooks.chardet", 2%N);
       (u "calibre.ebooks.chardet.compat", 3%N)]
    = Ok final /\
    lookup (u "sys") final = Some 1%N /\
    lookup (Packages.alias (u "calibre.ebooks.chardet.compat")) final
    = Some 3%N.
Proof.
  assert (exists final,
             Packages.shim (fun _ sys_modules => Ok sys_modules)
               [(u "sys", 1%N); (u "calibre.ebooks.chardet", 2%N);
                (u "calibre.ebooks.chardet.compat", 3%N)]
             = Ok final) as [final H]
      by (eexists; vm_compute; reflexivity).
  assert (forall (package : str) (before after : Packages.modules)
                 (n : str) (o : Packages.module_object),
             (fun (_ : str) (sys_modules : Packages.modules) =>
                Ok sys_modules) package before = Ok after ->
             lookup n before = Some o -> lookup n after = Some o) as Hkeep.
  { intros package before after n o E L. inversion E; subst after.
    exact L. }
  exists final. split; [exact H|]. split.
  - refine (proj1 (proj2 (shim_aliases _ _) final H Hkeep
                     (u "sys") 1%N _ _)); vm_compute; reflexivity.
  - refine (proj2 (proj2 (shim_aliases _ _) final H Hkeep
                     (u "calibre.ebooks.chardet.compat") 3%N _ _)
              (u "calibre.ebooks.chardet") _ _).
    + vm_compute. reflexivity.
    + vm_compute. reflexivity.
    + right. right. now left.
    + vm_compute. reflexivity.
Defined.

(** ** Where the fields of the record come from *)

Section Provenance.
Context {RT : Runtime}.

(** The hook is called once every stage before it has succeeded. *)
Lemma clean_called_stages (w : Worker) (mi : Metadata.t) :
  In (clean_downloaded_metadata mi) (run w) ->
  exists root f tags series,
    page w = Some root /\
    extract_fields w root = Ok f /\
    snd (parse_tags w root) = Ok tags /\
    title_series (Fields.title f) = Ok series /\
    mi = assemble w f tags series.
Proof.
  pose proof (load_details_anatomy w) as A. unfold run.
  destruct (page w) as [root|] eqn:P;
    [|rewrite A; simpl; intuition discriminate].
  destruct (extract_fields w root) as [f|e] eqn:F;
    [|rewrite A; simpl; intuition discriminate].
  assert (forall tail,
             In (clean_downloaded_metadata mi) (Spec.notices f ++ tail) ->
             In (clean_downloaded_metadata mi) tail) as Htail.
  { intros tail H. apply in_app_or in H as [H|H]; [|exact H].
    now apply notices_not_clean in H. }
  destruct (snd (parse_tags w root)) as [tags|e] eqn:T.
  2:{ rewrite A, <- app_assoc. intros H. apply Htail in H.
      simpl in H. intuition discriminate. }
  destruct (title_series (Fields.title f)) as [series|e] eqn:S.
  2:{ rewrite A, <- app_assoc. intros H. apply Htail in H.
      simpl in H. intuition discriminate. }
  cbv zeta in A.
  assert (forall tail,
             In (clean_downloaded_metadata mi)
                (Spec.parsing_tags
                 :: clean_downloaded_metadata (assemble w f tags series)
                 :: tail) ->
             (forall ev, In ev tail -> ev <> clean_downloaded_metadata mi) ->
             mi = assemble w f tags series) as Hmi.
  { intros tail [H|[H|H]] Hno.
    - discriminate H.
    - now inversion H.
    - now apply Hno in H. }
  destruct (clean w (assemble w f tags series)) as [mi'|e]; rewrite A.
  - intros H. apply Htail in H. exists root, f, tags, series.
    repeat split; try assumption; try reflexivity.
    apply (Hmi _ H). intros ev [<-|[]]. discriminate.
  - rewrite <- app_assoc. intros H. apply Htail in H.
    exists root, f, tags, series.
    repeat split; try assumption; try reflexivity.
    apply (Hmi _ H). intros ev [<-|[]]. discriminate.
Qed.

(** What each extracted field was read from. *)
Lemma extract_fields_values (w : Worker) (root : document) (f : Fields.t) :
  extract_fields w root = Ok f ->
  url_identifier (url w) = Ok (Fields.ridibooks_id f) /\
  _find_meta (meta_nodes root) (u "books:isbn") = Ok (Fields.isbn f) /\
  _find_meta (meta_nodes root) (u "og:image") = Ok (Fields.cover_url f) /\
  _find_meta (meta_nodes root) (u "og:title") = Ok (Fields.title f) /\
  (exists value,
      _find_meta (meta_nodes root) (u "books:rating:normalized_value")
      = Ok (Some value) /\
      float value = Ok (Fields.rating f)) /\
  (exists name,
      name_of (Fields.book_info f) (u "publisher") = Ok name /\
      Fields.publisher f = _format_item name) /\
  (exists date_text,
      getitem (Fields.book_info f) (u "datePublished")
      = Ok (JStr date_text) /\
      _format_date date_text = Ok (Fields.pubdate f)) /\
  (exists description,
      getitem (Fields.book_info f) (u "description")
      = Ok (JStr description) /\
      Fields.comments f = _format_item description).
Proof.
  unfold extract_fields. intros H.
  destruct (book_block root) as [book_info|]; [|discriminate H].
  cbn [rbind] in H.
  destruct (url_identifier (url w)) as [id|]; [|discriminate H].
  cbn [rbind] in H.
  destruct (_find_meta (meta_nodes root) (u "books:isbn")) as [isbn|];
    [|discriminate H].
  cbn [rbind] in H.
  destruct (_find_meta (meta_nodes root) (u "og:image")) as [cover|];
    [|discriminate H].
  cbn [rbind] in H.
  destruct (_find_meta (meta_nodes root) (u "og:title")) as [title|];
    [|discriminate H].
  cbn [rbind] in H.
  destruct (name_of book_info (u "author")) as [author|]; [|discriminate H].
  cbn [rbind] in H.
  destruct (json_in (u "translator") book_info) as [has|];
    [|discriminate H].
  cbn [rbind] in H.
  match type of H with
  | rbind ?r _ = _ => destruct r as [authors|]; [|discriminate H]
  end.
  cbn [rbind] in H.
  destruct (name_of book_info (u "publisher")) as [publisher|] eqn:P;
    [|discriminate H].
  cbn [rbind] in H.
  destruct (getitem book_info (u "datePublished")) as [date_value|] eqn:D;
    [|discriminate H].
  cbn [rbind] in H.
  destruct date_value as [| | |date_text| |]; cbn [as_str rbind] in H;
    try discriminate H.
  destruct (_format_date date_text) as [pubdate|] eqn:FD; [|discriminate H].
  cbn [rbind] in H.
  destruct (getitem book_info (u "description")) as [text|] eqn:C;
    [|discriminate H].
  cbn [rbind] in H.
  destruct text as [| | |description| |]; cbn [as_str rbind] in H;
    try discriminate H.
  destruct (_find_meta (meta_nodes root)
              (u "books:rating:normalized_value")) as [[value|]|];
    cbn [rbind] in H; try discriminate H.
  destruct (float value) as [rating|] eqn:R; [|discriminate H].
  cbn [rbind] in H. inversion H; subst f; clear H.
  cbn [Fields.ridibooks_id Fields.isbn Fields.cover_url Fields.title
       Fields.rating Fields.book_info Fields.publisher Fields.pubdate
       Fields.comments].
  repeat split; eauto.
Qed.

(** What [run] tells the outside is a cache notice of the extracted
    fields or one of the four other kinds of event. *)
Lemma run_events (w : Worker) (ev : event) :
  In ev (run w) ->
  (exists root f,
      page w = Some root /\ extract_fields w root = Ok f /\
      In ev (Spec.notices f)) \/
  (exists text, ev = log_exception text) \/
  (exists text, ev = log_info text) \/
  (exists mi, ev = clean_downloaded_metadata mi) \/
  (exists mi, ev = result_queue_put mi).
Proof.
  pose proof (load_details_anatomy w) as A. unfold run.
  assert (forall tail : list event,
             (forall x, In x tail ->
                        (exists text, x = log_exception text) \/
                        (exists text, x = log_info text) \/
                        (exists mi, x = clean_downloaded_metadata mi) \/
                        (exists mi, x = result_queue_put mi)) ->
             forall root f,
               page w = Some root -> extract_fields w root = Ok f ->
               In ev (Spec.notices f ++ tail) ->
               (exists root f,
                   page w = Some root /\ extract_fields w root = Ok f /\
                   In ev (Spec.notices f)) \/
               (exists text, ev = log_exception text) \/
               (exists text, ev = log_info text) \/
               (exists mi, ev = clean_downloaded_metadata mi) \/
               (exists mi, ev = result_queue_put mi)) as Hsplit.
  { intros tail Ht root f P F H. apply in_app_or in H as [H|H].
    - left. now exists root, f.
    - right. now apply Ht. }
  destruct (page w) as [root|] eqn:P.
  2:{ rewrite A. intros [<-|[<-|[]]]; right; left; eauto. }
  destruct (extract_fields w root) as [f|e] eqn:F.
  2:{ rewrite A. intros [<-|[]]. right; left; eauto. }
  destruct (snd (parse_tags w root)) as [tags|e].
  2:{ rewrite A, <- app_assoc. apply (Hsplit _) with (root := root);
        [|reflexivity|exact F].
      intros x [<-|[<-|[]]]; unfold Spec.parsing_tags; eauto 6. }
  destruct (title_series (Fields.title f)) as [series|e].
  2:{ rewrite A, <- app_assoc. apply (Hsplit _) with (root := root);
        [|reflexivity|exact F].
      intros x [<-|[<-|[]]]; unfold Spec.parsing_tags; eauto 6. }
  cbv zeta in A.
  destruct (clean w (assemble w f tags series)) as [mi'|e]; rewrite A.
  - apply (Hsplit _) with (root := root); [|reflexivity|exact F].
    intros x [<-|[<-|[<-|[]]]]; unfold Spec.parsing_tags; eauto 6.
  - rewrite <- app_assoc.
    apply (Hsplit _) with (root := root); [|reflexivity|exact F].
    intros x [<-|[<-|[<-|[]]]]; unfold Spec.parsing_tags; eauto 6.
Qed.

End Provenance.

(** X17: what the worker gives to the record, before the hook is called,
    from the meta entries and the URL.  The title and the cover URL it
    gives are the contents of the first 'og:title' and 'og:image' entries,
    as they are; [has_cover] is given whether the cover URL is a non-empty
    string; the identifier is given as the token of the URL, under the key
    "ridibooks"; the rating is the normalized value read as a float, as it
    is (it is not divided by five); the tags are what [parse_tags]
    returned and the series is what the title gives; the language is
    always "Korean", and the relevance is the one the worker was created
    with. *)
Theorem record_from_meta {RT : Runtime} (w : Worker) (mi : Metadata.t) :
  In (clean_downloaded_metadata mi) (run w) ->
  exists root,
    page w = Some root /\
    _find_meta (meta_nodes root) (u "og:title") = Ok (Metadata.title mi) /\
    _find_meta (meta_nodes root) (u "og:image")
    = Ok (Metadata.cover_url mi) /\
    Metadata.has_cover mi = truthy (Metadata.cover_url mi) /\
    (exists id,
        url_identifier (url w) = Ok id /\
        Metadata.identifier mi = (u "ridibooks", id)) /\
    (exists value,
        _find_meta (meta_nodes root) (u "books:rating:normalized_value")
        = Ok (Some value) /\
        float value = Ok (Metadata.rating mi)) /\
    snd (parse_tags w root) = Ok (Metadata.tags mi) /\
    (exists series,
        title_series (Metadata.title mi) = Ok series /\
        Metadata.series mi = option_map fst series /\
        Metadata.series_index mi = option_map snd series) /\
    Metadata.language mi = u "Korean" /\
    Metadata.source_relevance mi = relevance w.
Proof.
  intros H.
  apply clean_called_stages in H
    as (root & f & tags & series & P & F & T & S & ->).
  apply extract_fields_values in F
    as (U & _ & C & Ti & R & _).
  exists root. cbn. repeat split; try assumption.
  - now exists (Fields.ridibooks_id f).
  - now exists series.
Qed.

Lemma record_from_meta_witness :
  exists mi,
    In (clean_downloaded_metadata mi)
       (@run sample_runtime (Page.worker (Some Page.good))) /\
    Metadata.language mi = u "Korean" /\
    exists id,
      url_identifier (url (Page.worker (Some Page.good))) = Ok id /\
      Metadata.identifier mi = (u "ridibooks", id).
Proof.
  assert (exists mi,
             In (clean_downloaded_metadata mi)
                (@run sample_runtime (Page.worker (Some Page.good))))
    as [mi Hin].
  { eexists. vm_compute. right. right. right. left. reflexivity. }
  exists mi. split; [exact Hin|].
  destruct (@record_from_meta sample_runtime _ mi Hin)
    as (root & _ & _ & _ & _ & Hid & _ & _ & _ & L & _).
  split; [exact L | exact Hid].
Defined.

(** X18: what the worker gives to the record, before the hook is called,
    from the Book record.  The publisher is the formatted name of the
    'publisher' member; the publication date is the date that
    [_format_date] makes of the 'datePublished' member, which is a string;
    and the comments are the formatted 'description' member, which is a
    string too. *)
Theorem record_from_book {RT : Runtime} (w : Worker) (mi : Metadata.t) :
  In (clean_downloaded_metadata mi) (run w) ->
  exists root book_info,
    page w = Some root /\
    book_block root = Ok book_info /\
    (exists name,
        name_of book_info (u "publisher") = Ok name /\
        Metadata.publisher mi = _format_item name) /\
    (exists date_text,
        getitem book_info (u "datePublished") = Ok (JStr date_text) /\
        _format_date date_text = Ok (Metadata.pubdate mi)) /\
    (exists description,
        getitem book_info (u "description") = Ok (JStr description) /\
        Metadata.comments mi = _format_item description).
Proof.
  intros H.
  apply clean_called_stages in H
    as (root & f & tags & series & P & F & _ & _ & ->).
  destruct (extract_fields_book w root f F) as [B _].
  apply extract_fields_values in F as (_ & _ & _ & _ & _ & Pb & D & C).
  exists root, (Fields.book_info f). cbn. repeat split; assumption.
Qed.

Lemma record_from_book_witness :
  exists mi,
    In (clean_downloaded_metadata mi)
       (@run sample_runtime (Page.worker (Some Page.good))) /\
    exists date_text,
      @_format_date sample_runtime date_text = Ok (Metadata.pubdate mi).
Proof.
  assert (exists mi,
             In (clean_downloaded_metadata mi)
                (@run sample_runtime (Page.worker (Some Page.good))))
    as [mi Hin].
  { eexists. vm_compute. right. right. right. left. reflexivity. }
  exists mi. split; [exact Hin|].
  destruct (@record_from_book sample_runtime _ mi Hin)
    as (root & book_info & _ & _ & _ & (date_text & _ & D) & _).
  exists date_text. exact D.
Defined.

(** X19: what the caches are told.  The ISBN cache is only ever told a
    non-empty ISBN, the content of the first 'books:isbn' entry of the
    page, with the non-empty identifier that the URL gives; the cover
    cache is only ever told that identifier with a non-empty cover URL,
    the content of the first 'og:image' entry. *)
Theorem caches_told_page_values {RT : Runtime} (w : Worker) :
  (forall isbn id,
      In (cache_isbn_to_identifier isbn id) (run w) ->
      isbn <> [] /\ id <> [] /\
      url_identifier (url w) = Ok id /\
      exists root,
        page w = Some root /\
        _find_meta (meta_nodes root) (u "books:isbn") = Ok (Some isbn)) /\
  (forall id cover_url,
      In (cache_identifier_to_cover_url id cover_url) (run w) ->
      cover_url <> [] /\ id <> [] /\
      url_identifier (url w) = Ok id /\
      exists root,
        page w = Some root /\
        _find_meta (meta_nodes root) (u "og:image") = Ok (Some cover_url)).
Proof.
  split.
  - intros isbn id H.
    apply run_events in H
      as [(root & f & P & F & H) | [[t E] | [[t E] | [[m E] | [m E]]]]];
      try discriminate E.
    apply extract_fields_values in F as (U & I & _).
    unfold Spec.notices, Spec.isbn_notice, Spec.cover_notice in H.
    destruct (Fields.ridibooks_id f) as [|x i]; [destruct H|].
    destruct (Fields.isbn f) as [[|c s]|];
      destruct (Fields.cover_url f) as [[|d v]|]; cbn in H;
      repeat match type of H with
             | _ \/ _ => destruct H as [H|H]
             | False => destruct H
             | _ = _ => inversion H; subst; clear H
             end;
      (split; [discriminate|]; split; [discriminate|];
       split; [exact U|]; now exists root).
  - intros id cover H.
    apply run_events in H
      as [(root & f & P & F & H) | [[t E] | [[t E] | [[m E] | [m E]]]]];
      try discriminate E.
    apply extract_fields_values in F as (U & _ & C & _).
    unfold Spec.notices, Spec.isbn_notice, Spec.cover_notice in H.
    destruct (Fields.ridibooks_id f) as [|x i]; [destruct H|].
    destruct (Fields.isbn f) as [[|c s]|];
      destruct (Fields.cover_url f) as [[|d v]|]; cbn in H;
      repeat match type of H with
             | _ \/ _ => destruct H as [H|H]
             | False => destruct H
             | _ = _ => inversion H; subst; clear H
             end;
      (split; [discriminate|]; split; [discriminate|];
       split; [exact U|]; now exists root).
Qed.

Lemma caches_told_page_values_witness :
  u "9788901234567" <> [] /\ u "987654" <> [] /\
  url_identifier (url (Page.worker (Some Page.linkless_breadcrumb)))
  = Ok (u "987654").
Proof.
  destruct (proj1 (@caches_told_page_values sample_runtime
                     (Page.worker (Some Page.linkless_breadcrumb)))
              (u "9788901234567") (u "987654"))
    as (A & B & C & _).
  - vm_compute. left. reflexivity.
  - split; [exact A|]. split; [exact B | exact C].
Defined.
